(** * Column grouping of vectorbt: [vectorbt/base/column_grouper.py]

    A shallow embedding of the column grouper (normalisation of a
    [group_by] mapper, factorisation into group ids, run lengths and
    prefix-sum offsets, and the enable/disable/modify policy) together
    with the properties its specification states.

    Conventions of the embedding.
    - Every exception of the module is a [ValueError]; the constructors of
      [ValueError] below are its messages.  A function that may raise
      returns a [result].
    - A [pd.Index] is its sequence of values plus its level names.  Labels
      are values of an arbitrary type [L] with decidable equality and with
      pandas' [isna], which tells the missing labels ([None], [NaN],
      [NaT]) from the others; a hierarchical label is a tuple, i.e. [L] is
      a product or a list, and a tuple is never missing.
    - NumPy integer arrays are lists of [Z]; [np.int_] is 64 bits and the
      only arithmetic on it counts array elements, so it never wraps.
    - [@cached_method] memoises a pure method by its arguments and is
      transparent here. *)

From stdpp Require Import base decidable option numbers list strings.
From stdpp Require Import gmap.

Local Open Scope Z_scope.

(** ** Exceptions *)

Inductive ValueError : Set :=
  | LengthMismatch      (* "group_by and index must have the same length" *)
  | IncoherentGroups    (* "Groups must be coherent and sorted" *)
  | EnableNotAllowed    (* "Enabling grouping is not allowed" *)
  | DisableNotAllowed   (* "Disabling grouping is not allowed" *)
  | ModifyNotAllowed    (* "Changing groups is not allowed" *)
  | LevelError.         (* whatever the level selection raises *)

Inductive result (A : Type) : Type :=
  | Ok (a : A)
  | Raise (e : ValueError).
Global Arguments Ok {A} a.
Global Arguments Raise {A} e.

Global Instance result_ret : MRet result := fun A a => Ok a.
Global Instance result_bind : MBind result := fun A B f m =>
  match m with
  | Ok a => f a
  | Raise e => Raise e
  end.
Global Instance result_fmap : FMap result := fun A B f m =>
  match m with
  | Ok a => Ok (f a)
  | Raise e => Raise e
  end.

Global Instance ValueError_eq_dec : EqDecision ValueError.
Proof. solve_decision. Defined.

(** ** Data *)

(** A level of a hierarchical index, by position or by name. *)
Inductive LevelKey : Set :=
  | LevelPos (i : Z)
  | LevelName (s : string).

(** [int], [str] (one level) or [tuple], [list] (several levels). *)
Inductive LevelSel : Set :=
  | OneLevel (k : LevelKey)
  | ManyLevels (ks : list LevelKey).

(** [pd.isna] on one label. *)
Class IsNa (L : Type) : Type :=
  isna : L → bool.

Section Model.
Context {L : Type} `{EqDecision L} `{!IsNa L}.

(** [pd.Index]: the labels and the names of its levels ([name] of a flat
    index, [names] of a [pd.MultiIndex]). *)
Record Index : Type := mkIndex {
  values : list L;
  names : list (option string)
}.

(** [len(index)] *)
Definition len (index : Index) : nat := length (values index).

(** [pd.Index(array)]: an unnamed flat index over the array's elements. *)
Definition pd_Index (vs : list L) : Index :=
  {| values := vs; names := [None] |}.

(** How [pd.Index.equals] compares two labels: they are equal, or both
    are missing. *)
Definition label_equal (x y : L) : bool :=
  bool_decide (x = y) || isna x && isna y.

Fixpoint array_equivalent (a b : list L) : bool :=
  match a, b with
  | [], [] => true
  | x :: a', y :: b' => label_equal x y && array_equivalent a' b'
  | _, _ => false
  end.

(** [pd.Index.equals]: the same number of elements, equal one by one in
    the same order; names are not compared. *)
Definition Index_equals (a b : Index) : bool :=
  array_equivalent (values a) (values b).

(** A mapper: what [group_by] is when it is neither [None] nor a [bool]. *)
Inductive Mapper : Type :=
  | MLevels (sel : LevelSel)   (* int, str, tuple, list *)
  | MIndex (i : Index)         (* pd.Index, or a named pd.Series *)
  | MArray (vs : list L).      (* anything else, e.g. a NumPy array *)

Inductive GroupBy : Type :=
  | GNone
  | GBool (b : bool)
  | GMapper (m : Mapper).

(** [vectorbt.base.index_fns.select_levels], which is not part of this
    module: the interface it is used through.  [None] when it raises. *)
Class IndexFns : Type :=
  select_levels : Index -> LevelSel -> option Index.

Context `{!IndexFns}.

(** *** [group_by_to_index] *)

(** Lines 22-25: a level selector is expanded over the index, anything
    that is not yet a [pd.Index] is coerced into one. *)
Definition coerce_mapper (index : Index) (group_by : Mapper) : result Index :=
  match group_by with
  | MLevels sel =>
      match select_levels index sel with
      | Some i => Ok i
      | None => Raise LevelError
      end
  | MIndex i => Ok i
  | MArray vs => Ok (pd_Index vs)
  end.

(** Lines 22-28: the path of [group_by_to_index] for a mapper. *)
Definition mapper_to_index (index : Index) (group_by : Mapper) : result Index :=
  group_by ← coerce_mapper index group_by;
  if bool_decide (len group_by ≠ len index)
  then Raise LengthMismatch
  else Ok group_by.

Definition group_by_to_index (index : Index) (group_by : GroupBy) : result GroupBy :=
  match group_by with
  | GNone | GBool _ => Ok group_by
  | GMapper m => GMapper ∘ MIndex <$> mapper_to_index index m
  end.

(** *** [pd.factorize] *)

(** Position of the first occurrence of [x] in [u]. *)
Fixpoint index_of (x : L) (u : list L) : option nat :=
  match u with
  | [] => None
  | y :: u' => if decide (x = y) then Some 0%nat else S <$> index_of x u'
  end.

(** One pass over the values with the table of labels seen so far: a
    missing label gets the sentinel [-1] and does not enter the table, a
    known label gets its position in the table, a new one is appended
    and gets the next code. *)
Fixpoint factorize_from (uniques : list L) (vs : list L) : list Z * list L :=
  match vs with
  | [] => ([], uniques)
  | v :: vs' =>
      if isna v
      then
        let '(codes, u) := factorize_from uniques vs' in
        (-1 :: codes, u)
      else
        match index_of v uniques with
        | Some k =>
            let '(codes, u) := factorize_from uniques vs' in
            (Z.of_nat k :: codes, u)
        | None =>
            let '(codes, u) := factorize_from (uniques ++ [v]) vs' in
            (Z.of_nat (length uniques) :: codes, u)
        end
  end.

(** [pd.factorize(values)] with its default [na_sentinel=-1]: codes and
    uniques, in order of first appearance; a missing label is coded [-1]
    and is not among the uniques. *)
Definition pd_factorize (vs : list L) : list Z * list L :=
  factorize_from [] vs.

(** [np.arange(n)] *)
Definition np_arange (n : nat) : list Z := Z.of_nat <$> seq 0 n.

(** Modelled from the spec: [vectorbt.utils.array.is_sorted] is not part
    of this module; walking the ids left to right, the current id must
    never be smaller than the previous one. *)
Fixpoint is_sorted (a : list Z) : bool :=
  match a with
  | x :: a' =>
      match a' with
      | y :: _ => bool_decide (x ≤ y) && is_sorted a'
      | [] => true
      end
  | [] => true
  end.

(** *** [get_groups_and_index] *)

Definition get_groups_and_index (index : Index) (group_by : GroupBy)
  : result (list Z * Index) :=
  match group_by with
  | GNone | GBool _ => Ok (np_arange (len index), index)
  | GMapper m =>
      group_by ← mapper_to_index index m;
      let '(groups, uniques) := pd_factorize (values group_by) in
      let index := {| values := uniques; names := names group_by |} in
      if negb (is_sorted groups)
      then Raise IncoherentGroups
      else Ok (groups, index)
  end.

(** *** [get_group_counts_nb] *)

(** The locals of the loop: the preallocated [result] array, the number
    [j] of counts written, [prev_group] and [run_count]. *)
Record counts_state : Type := mkCounts {
  result_arr : list Z;
  j : nat;
  prev_group : Z;
  run_count : Z
}.

(** [result[j] = run_count; j += 1; run_count = 0] *)
Definition emit_run (st : counts_state) : counts_state :=
  {| result_arr := <[j st := run_count st]> (result_arr st);
     j := S (j st);
     prev_group := prev_group st;
     run_count := 0 |}.

(** The body of the loop at index [i] of [n = groups.shape[0]] with
    [cur_group = groups[i]]. *)
Definition counts_step (n i : nat) (cur_group : Z) (st : counts_state)
  : result counts_state :=
  if bool_decide (cur_group < prev_group st)
  then Raise IncoherentGroups
  else
    let st :=
      if bool_decide (cur_group ≠ prev_group st)
      then
        let st := if bool_decide (prev_group st ≠ -1) then emit_run st else st in
        {| result_arr := result_arr st; j := j st;
           prev_group := cur_group; run_count := run_count st |}
      else st in
    let st :=
      {| result_arr := result_arr st; j := j st;
         prev_group := prev_group st; run_count := run_count st + 1 |} in
    let st :=
      if bool_decide (Z.of_nat i = Z.of_nat n - 1) then emit_run st else st in
    Ok st.

(** [for i in range(n)] from index [i] on, over the remaining elements. *)
Fixpoint counts_loop (n i : nat) (groups : list Z) (st : counts_state)
  : result counts_state :=
  match groups with
  | [] => Ok st
  | cur_group :: groups' =>
      st ← counts_step n i cur_group st;
      counts_loop n (S i) groups' st
  end.

(** [np.empty(n)] holds no meaningful values; zeros stand for them. *)
Definition counts_init (n : nat) : counts_state :=
  {| result_arr := replicate n 0; j := 0; prev_group := -1; run_count := 0 |}.

Definition get_group_counts_nb (groups : list Z) : result (list Z) :=
  let n := length groups in
  st ← counts_loop n 0 groups (counts_init n);
  Ok (take (j st) (result_arr st)).

(** [np.sum] *)
Definition np_sum (a : list Z) : Z := foldr Z.add 0 a.

(** [np.cumsum], from the running total [acc]. *)
Fixpoint cumsum_from (acc : Z) (a : list Z) : list Z :=
  match a with
  | [] => []
  | x :: a' => (acc + x) :: cumsum_from (acc + x) a'
  end.

Definition np_cumsum (a : list Z) : list Z := cumsum_from 0 a.

(** [np.cumsum(group_counts) - group_counts] *)
Definition start_idxs (group_counts : list Z) : list Z :=
  zip_with Z.sub (np_cumsum group_counts) group_counts.

(** [np.cumsum(group_counts)] *)
Definition end_idxs (group_counts : list Z) : list Z :=
  np_cumsum group_counts.

(** *** [ColumnGrouper] *)

(** The attributes set by [__init__]; [group_by] is [None] or the
    [pd.Index] that [group_by_to_index] returned. *)
Record ColumnGrouper : Type := mkGrouper {
  columns : Index;
  group_by : option Index;
  allow_enable : bool;
  allow_disable : bool;
  allow_modify : bool
}.

Definition ColumnGrouper_init (columns : Index) (group_by : GroupBy)
    (allow_enable allow_disable allow_modify : bool) : result ColumnGrouper :=
  match group_by with
  | GNone | GBool _ =>
      Ok (mkGrouper columns None allow_enable allow_disable allow_modify)
  | GMapper m =>
      gb ← mapper_to_index columns m;
      Ok (mkGrouper columns (Some gb) allow_enable allow_disable allow_modify)
  end.

(** [self.group_by] as a value that can be passed for [group_by]. *)
Definition self_group_by (self : ColumnGrouper) : GroupBy :=
  match group_by self with
  | None => GNone
  | Some i => GMapper (MIndex i)
  end.

(** The keyword arguments that [check_group_by] takes besides [group_by];
    [None] stands for the grouper's own flag. *)
Record Kwargs : Set := mkKwargs {
  kw_allow_enable : option bool;
  kw_allow_disable : option bool;
  kw_allow_modify : option bool
}.

Definition no_kwargs : Kwargs := mkKwargs None None None.

Definition is_grouped (self : ColumnGrouper) (gb : GroupBy) : bool :=
  match gb with
  | GBool false => false
  | _ =>
      let gb := match gb with
                | GNone | GBool true => self_group_by self
                | _ => gb
                end in
      match gb with
      | GNone => false
      | _ => true
      end
  end.

Definition is_grouping_enabled (self : ColumnGrouper) (gb : GroupBy) : bool :=
  bool_decide (group_by self = None) && is_grouped self gb.

Definition is_grouping_disabled (self : ColumnGrouper) (gb : GroupBy) : bool :=
  bool_decide (group_by self ≠ None) && negb (is_grouped self gb).

Definition is_grouping_modified (self : ColumnGrouper) (gb : GroupBy) : result bool :=
  gb ← group_by_to_index (columns self) gb;
  match gb, group_by self with
  | GMapper (MIndex gbi), Some base =>
      if negb (Index_equals gbi base)
      then
        groups1 ← fst <$> get_groups_and_index (columns self) (GMapper (MIndex gbi));
        groups2 ← fst <$> get_groups_and_index (columns self) (GMapper (MIndex base));
        if negb (bool_decide (groups1 = groups2)) then Ok true else Ok false
      else Ok false
  | _, _ => Ok false
  end.

(** [a or b or c]: [c] is evaluated only when [a] and [b] are false. *)
Definition is_grouping_changed (self : ColumnGrouper) (gb : GroupBy) : result bool :=
  if is_grouping_enabled self gb then Ok true
  else if is_grouping_disabled self gb then Ok true
  else is_grouping_modified self gb.

Definition check_group_by (self : ColumnGrouper) (gb : GroupBy) (kw : Kwargs)
  : result unit :=
  let allow_enable := default (allow_enable self) (kw_allow_enable kw) in
  let allow_disable := default (allow_disable self) (kw_allow_disable kw) in
  let allow_modify := default (allow_modify self) (kw_allow_modify kw) in
  if negb allow_enable && is_grouping_enabled self gb
  then Raise EnableNotAllowed
  else if negb allow_disable && is_grouping_disabled self gb
  then Raise DisableNotAllowed
  else if negb allow_modify
  then
    modified ← is_grouping_modified self gb;
    if modified : bool then Raise ModifyNotAllowed else Ok ()
  else Ok ().

Definition resolve_group_by (self : ColumnGrouper) (gb : GroupBy) (kw : Kwargs)
  : result GroupBy :=
  let gb := match gb with
            | GNone | GBool true => self_group_by self
            | _ => gb
            end in
  let gb := match gb, group_by self with
            | GBool false, None => GNone
            | _, _ => gb
            end in
  _ ← check_group_by self gb kw;
  group_by_to_index (columns self) gb.

Definition get_groups_and_columns (self : ColumnGrouper) (gb : GroupBy) (kw : Kwargs)
  : result (list Z * Index) :=
  gb ← resolve_group_by self gb kw;
  get_groups_and_index (columns self) gb.

Definition get_groups (self : ColumnGrouper) (gb : GroupBy) (kw : Kwargs)
  : result (list Z) :=
  fst <$> get_groups_and_columns self gb kw.

Definition get_columns (self : ColumnGrouper) (gb : GroupBy) (kw : Kwargs)
  : result Index :=
  snd <$> get_groups_and_columns self gb kw.

Definition get_group_counts (self : ColumnGrouper) (gb : GroupBy) (kw : Kwargs)
  : result (list Z) :=
  r ← resolve_group_by self gb kw;
  match r with
  | GNone | GBool false => Ok (replicate (len (columns self)) 1)
  | _ =>
      groups ← get_groups self gb kw;
      get_group_counts_nb groups
  end.

Definition get_group_start_idxs (self : ColumnGrouper) (gb : GroupBy) (kw : Kwargs)
  : result (list Z) :=
  group_counts ← get_group_counts self gb kw;
  Ok (start_idxs group_counts).

Definition get_group_end_idxs (self : ColumnGrouper) (gb : GroupBy) (kw : Kwargs)
  : result (list Z) :=
  group_counts ← get_group_counts self gb kw;
  Ok (end_idxs group_counts).

End Model.

Global Arguments Index : clear implicits.
Global Arguments Mapper : clear implicits.
Global Arguments GroupBy : clear implicits.
Global Arguments IndexFns : clear implicits.
Global Arguments ColumnGrouper : clear implicits.
Global Arguments Kwargs : clear implicits.

(** ** Concrete columns *)

(** A string is never missing, nor is a tuple of strings. *)
Global Instance string_isna : IsNa string :=
  fun _ => false.

Global Instance tuple_isna : IsNa (list string) :=
  fun _ => false.

(** Labels that may be missing: [None] is the missing label. *)
Global Instance option_isna {A : Type} : IsNa (option A) :=
  fun x => match x with
           | None => true
           | Some _ => false
           end.

(** Flat columns labelled by strings.  [select_levels] asserts that the
    index is hierarchical, so on a flat index every level selection
    raises. *)
Global Instance flat_index_fns : IndexFns string :=
  fun _ _ => None.

Global Instance flat_option_index_fns : IndexFns (option string) :=
  fun _ _ => None.

(** Hierarchical columns: a label is the tuple of its level values. *)
Definition level_position (names : list (option string)) (k : LevelKey) : option nat :=
  match k with
  | LevelPos i =>
      let n := Z.of_nat (length names) in
      if bool_decide (0 ≤ i < n) then Some (Z.to_nat i)
      else if bool_decide (- n ≤ i < 0) then Some (Z.to_nat (n + i))
      else None
  | LevelName s => index_of (Some s) names
  end.

(** Modelled from the spec: [index_fns.select_levels] is not part of this
    module; a level selector (single index/name or list of them) is
    expanded into the corresponding (multi-)level values, yielding a label
    per column. *)
Definition multi_select_levels (index : Index (list string)) (sel : LevelSel)
  : option (Index (list string)) :=
  let ks := match sel with
            | OneLevel k => [k]
            | ManyLevels ks => ks
            end in
  ps ← mapM (level_position (names index)) ks;
  vs ← mapM (fun label : list string => mapM (fun p => label !! p) ps) (values index);
  Some {| values := vs; names := (fun p => mjoin (names index !! p)) <$> ps |}.

Global Instance multi_index_fns : IndexFns (list string) := multi_select_levels.

Definition cols3 : Index string := pd_Index ["c0"; "c1"; "c2"]%string.
Definition labels_aab : list string := ["a"; "a"; "b"]%string.
Definition labels_xxy : list string := ["x"; "x"; "y"]%string.
Definition labels_abb : list string := ["a"; "b"; "b"]%string.
Definition labels_aba : list string := ["a"; "b"; "a"]%string.

(** Two-level columns [(asset, window)]. *)
Definition multi_cols4 : Index (list string) :=
  {| values := [["btc"; "10"]; ["btc"; "20"]; ["eth"; "10"]; ["eth"; "20"]]%string;
     names := [Some "asset"; Some "window"]%string |}.

(** Flat columns whose labels may be missing, and label sequences with a
    missing label. *)
Definition cols3_na : Index (option string) :=
  pd_Index [Some "c0"; Some "c1"; Some "c2"]%string.
Definition labels_Naa : list (option string) := [None; Some "a"; Some "a"]%string.
Definition labels_aaN : list (option string) := [Some "a"; Some "a"; None]%string.

(** A grouper over [cols3] without baseline. *)
Definition grouper3 (allow_enable : bool) : ColumnGrouper string :=
  mkGrouper cols3 None allow_enable true true.


(** A grouper over [cols3] whose baseline is ["a","a","b"]. *)
Definition grouper_aab (allow_modify : bool) : ColumnGrouper string :=
  mkGrouper cols3 (Some (pd_Index labels_aab)) true true allow_modify.

(** ** Plotting: [vectorbt/generic/plotting.py]

    The figure is plotly's.  Of a figure the data updaters use its traces
    [fig.data], of a trace its read-only [type] and its properties, read
    and assigned by name; assigning [None] removes a property.  A value
    of a property is of an arbitrary type [V]. *)

Inductive TraceType : Set :=
  | indicator | bar | scatter | histogram | box | heatmap | volume.

Global Instance TraceType_eq_dec : EqDecision TraceType.
Proof. solve_decision. Defined.

(** The [ValueError]s of the plotting functions, by message, and Python's
    [IndexError]. *)
Inductive PlotError : Set :=
  | MustPassTraceIdx      (* "Figure contains more traces than data. Must pass trace_idx." *)
  | MoreDataThanTraceIdx  (* "Data contains more traces than trace_idx" *)
  | NotA (kind : TraceType)  (* "Trace at index ... is not a <kind>" *)
  | DataRequired          (* "Data must be passed" *)
  | IndexError.           (* a tuple or an array indexed out of range *)

Inductive plot_result (A : Type) : Type :=
  | Done (a : A)
  | Fail (e : PlotError).
Global Arguments Done {A} a.
Global Arguments Fail {A} e.

Global Instance plot_result_bind : MBind plot_result := fun A B f m =>
  match m with
  | Done a => f a
  | Fail e => Fail e
  end.

(** The [trace_idx] argument: absent, one index, or several. *)
Inductive TraceIdx : Set :=
  | IdxNone
  | IdxOne (i : Z)
  | IdxMany (l : list Z).

Section Figure.
Context {V : Type}.

Record Trace : Type := mkTrace {
  trace_type : TraceType;
  props : gmap string V
}.

(** [trace.<name> = value] *)
Definition set_prop (name : string) (value : option V) (t : Trace) : Trace :=
  {| trace_type := trace_type t;
     props := match value with
              | Some v => <[name := v]> (props t)
              | None => delete name (props t)
              end |}.

(** The position that the index [i] addresses in a sequence of length
    [n]: Python counts a negative index from the end. *)
Definition py_position (n : nat) (i : Z) : option nat :=
  if bool_decide (0 ≤ i < Z.of_nat n) then Some (Z.to_nat i)
  else if bool_decide (- Z.of_nat n ≤ i < 0) then Some (Z.to_nat (Z.of_nat n + i))
  else None.

(** What the updaters assign to a trace from its column of the data. *)
Definition set_bar (col : V) (t : Trace) : Trace :=
  let t := set_prop "y" (Some col) t in
  if bool_decide (props t !! "marker.colorscale"%string ≠ None)
  then set_prop "marker.color" (Some col) t
  else t.

Definition set_scatter (col : V) (t : Trace) : Trace :=
  set_prop "y" (Some col) t.

Definition set_hist (horizontal : bool) (col : V) (t : Trace) : Trace :=
  if horizontal
  then set_prop "y" (Some col) (set_prop "x" None t)
  else set_prop "y" None (set_prop "x" (Some col) t).

Definition set_box (horizontal : bool) (col : V) (t : Trace) : Trace :=
  if horizontal
  then set_prop "y" None (set_prop "x" (Some col) t)
  else set_prop "y" (Some col) (set_prop "x" None t).

(** [for i, _trace_idx in enumerate(trace_idx)], from [i] on.  The
    2-dim [data] is given by its columns: [data[:, i]] is [data !! i]. *)
Fixpoint update_loop (kind : TraceType) (set : V → Trace → Trace)
    (data : list V) (i : nat) (trace_idx : list Z) (fig_data : list Trace)
  : plot_result (list Trace) :=
  match trace_idx with
  | [] => Done fig_data
  | _trace_idx :: trace_idx' =>
      match py_position (length fig_data) _trace_idx ≫= λ pos,
            fig_data !! pos ≫= λ trace, Some (pos, trace) with
      | None => Fail IndexError
      | Some (pos, trace) =>
          if bool_decide (trace_type trace ≠ kind) then Fail (NotA kind)
          else
            match data !! i with
            | None => Fail IndexError
            | Some col =>
                update_loop kind set data (S i) trace_idx'
                  (<[pos := set col trace]> fig_data)
            end
      end
  end.

(** The body shared, word for word, by [update_bar_data],
    [update_scatter_data], [update_hist_data] and [update_box_data];
    [data] is the array after [reshape_fns.to_2d]. *)
Definition update_traces_data (kind : TraceType) (set : V → Trace → Trace)
    (fig_data : list Trace) (data : list V) (trace_idx : TraceIdx)
  : plot_result (list Trace) :=
  trace_idx ← match trace_idx return plot_result (list Z) with
               | IdxNone =>
                   if bool_decide (length data < length fig_data)%nat
                   then Fail MustPassTraceIdx
                   else Done (Z.of_nat <$> seq 0 (length fig_data))
               | IdxOne i => Done [i]
               | IdxMany l => Done l
               end;
  if bool_decide (length trace_idx < length data)%nat
  then Fail MoreDataThanTraceIdx
  else update_loop kind set data 0 trace_idx fig_data.

Definition update_bar_data := update_traces_data bar set_bar.

Definition update_scatter_data := update_traces_data scatter set_scatter.

Definition update_hist_data (fig_data : list Trace) (data : list V)
    (horizontal : bool) (trace_idx : TraceIdx) :=
  update_traces_data histogram (set_hist horizontal) fig_data data trace_idx.

Definition update_box_data (fig_data : list Trace) (data : list V)
    (horizontal : bool) (trace_idx : TraceIdx) :=
  update_traces_data box (set_box horizontal) fig_data data trace_idx.

(** [update_volume_data], for [trace_idx] absent or one index; [data] is
    the flattened array. *)
Definition update_volume_data (fig_data : list Trace) (data : V)
    (trace_idx : option Z) : plot_result (list Trace) :=
  trace_idx ← match trace_idx return plot_result Z with
               | None =>
                   if bool_decide (1 < length fig_data)%nat
                   then Fail MustPassTraceIdx
                   else Done 0
               | Some i => Done i
               end;
  match py_position (length fig_data) trace_idx ≫= λ pos,
        fig_data !! pos ≫= λ trace, Some (pos, trace) with
  | None => Fail IndexError
  | Some (pos, trace) =>
      if bool_decide (trace_type trace ≠ volume) then Fail (NotA volume)
      else Done (<[pos := set_prop "value" (Some data) trace]> fig_data)
  end.

End Figure.

Global Arguments Trace : clear implicits.

(** *** [update_indicator_data] *)

Section Indicator.
(** Numbers with Python's [<], and colours. *)
Context {A C : Type} (lt : A → A → Prop) `{∀ x y, Decision (lt x y)}.

(** The values of the properties that the function assigns. *)
Inductive IndicatorValue : Type :=
  | Number (a : A)
  | Range (lo hi : A)
  | Colour (c : C).

(** [min(a, b)] and [max(a, b)]: the first argument, unless the second
    is smaller (greater). *)
Definition py_min (a b : A) : A := if decide (lt b a) then b else a.

Definition py_max (a b : A) : A := if decide (lt a b) then b else a.

(** [rgb_from_cmap] computes in floating point with matplotlib; its
    result is used as a colour only and enters as [rgb]. *)
Definition update_indicator_data (rgb : string → A → A * A → C)
    (fig_data : list (Trace IndicatorValue)) (value : A)
    (value_range : option (A * A)) (cmap_name : option string)
    (trace_idx : option Z)
  : plot_result (list (Trace IndicatorValue) * (A * A)) :=
  trace_idx ← match trace_idx return plot_result Z with
               | None =>
                   if bool_decide (1 < length fig_data)%nat
                   then Fail MustPassTraceIdx
                   else Done 0
               | Some i => Done i
               end;
  let value_range :=
    match value_range with
    | None => (value, value)
    | Some (lo, hi) => (py_min lo value, py_max hi value)
    end in
  match py_position (length fig_data) trace_idx ≫= λ pos,
        fig_data !! pos ≫= λ trace, Some (pos, trace) with
  | None => Fail IndexError
  | Some (pos, trace) =>
      if bool_decide (trace_type trace ≠ indicator) then Fail (NotA indicator)
      else
        let t := set_prop "gauge.axis.range"
                   (Some (Range value_range.1 value_range.2)) trace in
        let t := match cmap_name with
                 | Some cmap =>
                     set_prop "gauge.bar.color"
                       (Some (Colour (rgb cmap value value_range))) t
                 | None => t
                 end in
        let t := set_prop "delta.reference" (props t !! "value"%string) t in
        let t := set_prop "value" (Some (Number value)) t in
        Done (<[pos := t]> fig_data, value_range)
  end.

End Indicator.

Global Arguments IndicatorValue : clear implicits.

(** *** [create_volume]: the coordinates of the cells *)

(** [np.repeat(a, m)] and [np.tile(a, m)] of a 1-dim array. *)
Definition np_repeat {A : Type} (a : list A) (m : nat) : list A :=
  a ≫= replicate m.

Definition np_tile {A : Type} (a : list A) (m : nat) : list A :=
  mjoin (replicate m a).

Section Volume.
Context {Num T V : Type}.

(** A 3-dim array: its shape and its elements in C order, which is what
    [flatten] returns; [data[i, j, k]] is [get3 data i j k]. *)
Record Array3 : Type := mkArray3 {
  shape0 : nat;
  shape1 : nat;
  shape2 : nat;
  flat : list V
}.

Definition get3 (data : Array3) (i j k : nat) : option V :=
  flat data !! ((i * shape1 data + j) * shape2 data + k)%nat.

(** An axis label argument: [None], a 1-dim array of numbers, or
    anything whose dtype is not a number (text labels; also the default
    [False] of [z_labels]). *)
Inductive AxisLabels : Type :=
  | LabelsNone
  | LabelsNumeric (l : list Num)
  | LabelsOther (t : T).

(** An entry of a coordinate array: a number the caller gave, or a
    position from [np.arange]. *)
Inductive Coord : Type :=
  | Given (x : Num)
  | Position (i : nat).

(** The labels of an axis of length [n] as the function uses them, and the
    tick text it sets when they replace labels that are not numbers. *)
Definition axis_coords (n : nat) (labels : AxisLabels) : list Coord :=
  match labels with
  | LabelsNumeric l => Given <$> l
  | LabelsNone | LabelsOther _ => Position <$> seq 0 n
  end.

Definition axis_ticktext (labels : AxisLabels) : option T :=
  match labels with
  | LabelsOther t => Some t
  | _ => None
  end.

(** What [create_volume] computes and hands to [go.Volume] and to the
    layout (before [trace_kwargs] and [layout_kwargs] are applied): the
    tick text of each axis, the coordinate arrays and the values. *)
Record VolumeArgs : Type := mkVolumeArgs {
  x_ticktext : option T;
  y_ticktext : option T;
  z_ticktext : option T;
  volume_x : list Coord;
  volume_y : list Coord;
  volume_z : list Coord;
  volume_value : list V
}.

Definition create_volume (data : option Array3) (x_labels y_labels z_labels : AxisLabels)
  : plot_result VolumeArgs :=
  match data with
  | None => Fail DataRequired
  | Some data =>
      let xs := axis_coords (shape0 data) x_labels in
      let ys := axis_coords (shape1 data) y_labels in
      let zs := axis_coords (shape2 data) z_labels in
      Done {| x_ticktext := axis_ticktext x_labels;
              y_ticktext := axis_ticktext y_labels;
              z_ticktext := axis_ticktext z_labels;
              volume_x := np_repeat xs (length ys * length zs);
              volume_y := np_tile (np_repeat ys (length zs)) (length xs);
              volume_z := np_tile zs (length xs * length ys);
              volume_value := flat data |}
  end.

End Volume.

Global Arguments Array3 : clear implicits.
Global Arguments AxisLabels : clear implicits.
Global Arguments Coord : clear implicits.
Global Arguments VolumeArgs : clear implicits.

(** ** Vocabulary of the specification *)

(** Some id recurs after a different id has appeared. *)
Definition recurs (a : list Z) : Prop :=
  ∃ (i j k : nat) (x y : Z),
    (i < j < k)%nat ∧ a !! i = Some x ∧ a !! j = Some y ∧ a !! k = Some x ∧ x ≠ y.

(** Each id occupies one contiguous run. *)
Definition contiguous_runs (a : list Z) : Prop :=
  ∀ (i j k : nat) (x y : Z),
    (i < j < k)%nat → a !! i = Some x → a !! j = Some y → a !! k = Some x → y = x.

Definition non_decreasing (a : list Z) : Prop :=
  ∀ (i j : nat) (x y : Z), (i ≤ j)%nat → a !! i = Some x → a !! j = Some y → x ≤ y.

(** Ids are handed out in order of first appearance: an id is [0] or
    follows an earlier occurrence of its predecessor. *)
Definition first_appearance_order (a : list Z) : Prop :=
  ∀ (i : nat) (c : Z), a !! i = Some c →
    c = 0 ∨ ∃ j : nat, (j < i)%nat ∧ a !! j = Some (c - 1).

(** The values of [a] are exactly the interval [[0, G)]. *)
Definition dense_ids (a : list Z) (G : nat) : Prop :=
  ∀ c : Z, c ∈ a ↔ 0 ≤ c < Z.of_nat G.

(** A coherent label sequence: the columns of each label form one
    uninterrupted run. *)
Definition coherent_labels {L : Type} (vs : list L) : Prop :=
  ∀ (i j k : nat) (v w : L),
    (i < j < k)%nat → vs !! i = Some v → vs !! j = Some w → vs !! k = Some v → w = v.

(** No label of the sequence is missing. *)
Definition no_missing {L : Type} `{!IsNa L} (vs : list L) : Prop :=
  Forall (λ v, isna v = false) vs.

(** Two label sequences induce the same partition of the columns: two
    columns share a label in one exactly when they do in the other. *)
Definition same_partition {L : Type} (vs ws : list L) : Prop :=
  length vs = length ws
  ∧ ∀ (i j : nat) (v v' w w' : L),
      vs !! i = Some v → vs !! j = Some v' →
      ws !! i = Some w → ws !! j = Some w' →
      (v = v' ↔ w = w').

(** The indices that an updater visits for a [trace_idx] argument. *)
Definition trace_targets {V : Type} (fig_data : list (Trace V)) (trace_idx : TraceIdx)
  : list Z :=
  match trace_idx with
  | IdxNone => Z.of_nat <$> seq 0 (length fig_data)
  | IdxOne i => [i]
  | IdxMany l => l
  end.

(** What an updater of traces of one [kind] does when no [trace_idx] is
    passed: it wants exactly one column per trace and every trace of that
    kind, and then gives trace [i] column [i]. *)
Definition default_update {V : Type} (kind : TraceType)
    (set : V → Trace V → Trace V) (fig_data : list (Trace V)) (data : list V)
  : plot_result (list (Trace V)) :=
  if decide (length data < length fig_data)%nat then Fail MustPassTraceIdx
  else if decide (length fig_data < length data)%nat then Fail MoreDataThanTraceIdx
  else if decide (Forall (λ t, trace_type t = kind) fig_data)
       then Done (zip_with set data fig_data)
       else Fail (NotA kind).

(** What holds of the traces [fig_data'] that an updater returns: there
    was one column per visited index; the figure keeps its length and the
    type of every trace; every visited index addresses a trace of the
    wanted kind; a trace that no index addresses is untouched; and when
    the indices address pairwise different traces, the trace addressed by
    the [j]-th index has been given column [j]. *)
Definition updated_by {V : Type} (kind : TraceType) (set : V → Trace V → Trace V)
    (fig_data : list (Trace V)) (data : list V) (trace_idx : TraceIdx)
    (fig_data' : list (Trace V)) : Prop :=
  let targets := trace_targets fig_data trace_idx in
  let n := length fig_data in
  length targets = length data
  ∧ length fig_data' = n
  ∧ (∀ pos : nat, trace_type <$> fig_data' !! pos = trace_type <$> fig_data !! pos)
  ∧ (∀ t, t ∈ targets →
       ∃ pos trace, py_position n t = Some pos ∧ fig_data !! pos = Some trace
                    ∧ trace_type trace = kind)
  ∧ (∀ pos : nat, (∀ t, t ∈ targets → py_position n t ≠ Some pos) →
       fig_data' !! pos = fig_data !! pos)
  ∧ (NoDup (py_position n <$> targets) →
     ∀ (j : nat) t pos trace,
       targets !! j = Some t → py_position n t = Some pos →
       fig_data !! pos = Some trace →
       ∃ col, data !! j = Some col ∧ fig_data' !! pos = Some (set col trace)).

(** The state that [__init__] establishes: a baseline, when there is
    one, has one label per column. *)
Definition well_formed {L : Type} (self : ColumnGrouper L) : Prop :=
  ∀ base, group_by self = Some base → len base = len (columns self).

(** The normalised labels of a specification hold no missing label; a
    specification that is no mapper has no labels. *)
Definition labels_present {L : Type} `{!IsNa L} `{!IndexFns L}
    (index : Index L) (gb : GroupBy L) : Prop :=
  ∀ labels : Index L,
    group_by_to_index index gb = Ok (GMapper (MIndex labels)) →
    no_missing (values labels).

(** A coherent group id array: ids are non-negative and non-decreasing. *)
Definition coherent (a : list Z) : Prop :=
  Forall (λ c, 0 ≤ c) a ∧ is_sorted a = true.

(** Run lengths as the specification words them: track the current id and
    a running count, on a change of id emit the finished run and start a
    new one, emit the final run after the last element. *)
Fixpoint runs_from (prev rc : Z) (a : list Z) : list Z :=
  match a with
  | [] => [rc]
  | g :: a' =>
      if bool_decide (g = prev)
      then runs_from prev (rc + 1) a'
      else rc :: runs_from g 1 a'
  end.

Definition run_lengths (a : list Z) : list Z :=
  match a with
  | [] => []
  | g :: a' => runs_from g 1 a'
  end.

(** The number of columns whose id is [c]. *)
Fixpoint count_id (c : Z) (a : list Z) : Z :=
  match a with
  | [] => 0
  | x :: a' => (if bool_decide (x = c) then 1 else 0) + count_id c a'
  end.

(** The number of columns whose id is below [c]. *)
Fixpoint count_below (c : Z) (a : list Z) : Z :=
  match a with
  | [] => 0
  | x :: a' => (if bool_decide (x < c) then 1 else 0) + count_below c a'
  end.

(** Neighbouring ids are equal or go up by one. *)
Definition unit_steps (a : list Z) : Prop :=
  ∀ (i : nat) (x y : Z), a !! i = Some x → a !! S i = Some y → y = x ∨ y = x + 1.

(** The invariant of the loop of [get_group_counts_nb] before iteration
    [i] (after the last one when [i = n]): the counts written so far and
    the running count add up to the [i] elements seen, and [j] stays
    inside the preallocated array. *)
Definition counts_inv (n i : nat) (st : counts_state) : Prop :=
  length (result_arr st) = n
  ∧ np_sum (take (j st) (result_arr st)) + run_count st = Z.of_nat i
  ∧ (i = 0%nat → j st = 0%nat ∧ prev_group st = -1 ∧ run_count st = 0)
  ∧ ((0 < i < n)%nat → (j st < i)%nat ∧ 1 ≤ run_count st)
  ∧ ((0 < i)%nat → i = n → (1 ≤ j st ≤ n)%nat ∧ run_count st = 0).

(** ** Proofs *)

Section Factorize.
Context {L : Type} `{EqDecision L} `{!IsNa L}.
Implicit Types (u vs : list L) (codes : list Z).

Lemma index_of_Some x u k :
  index_of x u = Some k → u !! k = Some x.
Proof.
  revert k. induction u as [|y u IH]; intros k; simpl; [done|].
  case_decide as Hxy; [by intros [= <-]; rewrite Hxy|].
  destruct (index_of x u) as [k'|]; simpl; [|done].
  intros [= <-]. by apply IH.
Qed.

Lemma index_of_None x u :
  index_of x u = None → x ∉ u.
Proof.
  induction u as [|y u IH]; simpl; [intros _; apply not_elem_of_nil|].
  case_decide; [done|].
  destruct (index_of x u); simpl; [done|].
  intros _. apply not_elem_of_cons. auto.
Qed.

Lemma NoDup_snoc_fresh x u : NoDup u → index_of x u = None → NoDup (u ++ [x]).
Proof.
  intros Hu Hx. apply NoDup_app. split_and!; [done| |apply NoDup_singleton].
  intros y Hy ->%list_elem_of_singleton. by apply index_of_None in Hx.
Qed.

(** The three cases of one step of the pass. *)
Lemma factorize_from_cons u v vs :
  factorize_from u (v :: vs) =
    if isna v
    then (-1 :: (factorize_from u vs).1, (factorize_from u vs).2)
    else match index_of v u with
         | Some k => (Z.of_nat k :: (factorize_from u vs).1, (factorize_from u vs).2)
         | None => (Z.of_nat (length u) :: (factorize_from (u ++ [v]) vs).1,
                    (factorize_from (u ++ [v]) vs).2)
         end.
Proof.
  simpl. destruct (isna v); [by destruct (factorize_from u vs)|].
  destruct (index_of v u); [by destruct (factorize_from u vs)|].
  by destruct (factorize_from (u ++ [v]) vs).
Qed.

Lemma factorize_from_length u vs :
  length (factorize_from u vs).1 = length vs.
Proof.
  revert u. induction vs as [|v vs IH]; intros u; [done|].
  rewrite factorize_from_cons.
  destruct (isna v); [|destruct (index_of v u)]; simpl; by rewrite IH.
Qed.

(** The table only grows, and stays free of duplicates. *)
Lemma factorize_from_uniques u vs :
  NoDup u →
  (∃ new, (factorize_from u vs).2 = u ++ new) ∧ NoDup (factorize_from u vs).2.
Proof.
  revert u. induction vs as [|v vs IH]; intros u Hu.
  { split; [exists []; by rewrite app_nil_r|done]. }
  rewrite factorize_from_cons.
  destruct (isna v); [by apply IH|].
  destruct (index_of v u) eqn:Hv; simpl; [by apply IH|].
  destruct (IH (u ++ [v])) as [[new ->] ?]; [by apply NoDup_snoc_fresh|].
  split; [|done]. exists (v :: new). by rewrite <-app_assoc.
Qed.


(** A missing label is coded by the sentinel. *)
Lemma factorize_from_missing u vs i v :
  vs !! i = Some v → isna v = true → (factorize_from u vs).1 !! i = Some (-1).
Proof.
  revert u i. induction vs as [|w vs IH]; intros u i Hi Hna; [done|].
  rewrite factorize_from_cons. destruct i as [|i]; simpl in Hi.
  - injection Hi as ->. by rewrite Hna.
  - destruct (isna w); [|destruct (index_of w u)]; simpl; by apply IH.
Qed.

(** The code of a label that is not missing points at the label in the
    final table. *)
Lemma factorize_from_lookup u vs i v :
  NoDup u → vs !! i = Some v → isna v = false →
  ∃ k : nat, (factorize_from u vs).1 !! i = Some (Z.of_nat k)
             ∧ (factorize_from u vs).2 !! k = Some v.
Proof.
  revert u i. induction vs as [|w vs IH]; intros u i Hu Hi Hna; [done|].
  rewrite factorize_from_cons. destruct i as [|i]; simpl in Hi.
  - injection Hi as ->. rewrite Hna.
    destruct (index_of v u) as [k|] eqn:Hv; simpl.
    + exists k. split; [done|].
      destruct (factorize_from_uniques u vs Hu) as [[new ->] _].
      apply lookup_app_l_Some. by apply index_of_Some.
    + exists (length u). split; [done|].
      destruct (factorize_from_uniques (u ++ [v]) vs) as [[new ->] _];
        [by apply NoDup_snoc_fresh|].
      rewrite <-app_assoc. by apply list_lookup_middle.
  - destruct (isna w); [by apply IH|].
    destruct (index_of w u) eqn:Hw; simpl; [by apply IH|].
    apply IH; [by apply NoDup_snoc_fresh|done..].
Qed.

(** Every code is the sentinel or a position of the final table, and it
    is the sentinel exactly for a missing label. *)
Lemma factorize_from_code u vs i v c :
  NoDup u → vs !! i = Some v → (factorize_from u vs).1 !! i = Some c →
  if isna v then c = -1
  else 0 ≤ c < Z.of_nat (length (factorize_from u vs).2).
Proof.
  intros Hu Hv Hc. destruct (isna v) eqn:Hna.
  - rewrite (factorize_from_missing u vs i v Hv Hna) in Hc. by injection Hc.
  - destruct (factorize_from_lookup u vs i v Hu Hv Hna) as (k & Hk & Hk').
    apply lookup_lt_Some in Hk'. simplify_eq. lia.
Qed.

Lemma factorize_from_bound u vs i c :
  NoDup u → (factorize_from u vs).1 !! i = Some c →
  -1 ≤ c < Z.of_nat (length (factorize_from u vs).2).
Proof.
  intros Hu Hc.
  assert (is_Some (vs !! i)) as [v Hv].
  { apply lookup_lt_is_Some. rewrite <-(factorize_from_length u).
    by eapply lookup_lt_Some. }
  pose proof (factorize_from_code u vs i v c Hu Hv Hc) as Hcase.
  destruct (isna v); lia.
Qed.

(** Every label appended to the table is the code of some position. *)
Lemma factorize_from_new_codes u vs k :
  (length u ≤ k < length (factorize_from u vs).2)%nat →
  Z.of_nat k ∈ (factorize_from u vs).1.
Proof.
  revert u. induction vs as [|v vs IH]; intros u; [simpl; lia|].
  rewrite factorize_from_cons.
  destruct (isna v); [|destruct (index_of v u)]; simpl; intros Hk;
    apply elem_of_cons.
  - right. by apply IH.
  - right. by apply IH.
  - destruct (decide (k = length u)) as [->|]; [by left|].
    right. apply IH. rewrite length_app. simpl. lia.
Qed.

(** A code is known to the table, or the next free one, or preceded by
    an occurrence of its predecessor. *)
Lemma factorize_from_growth u vs i c :
  (factorize_from u vs).1 !! i = Some c →
  c ≤ Z.of_nat (length u)
  ∨ ∃ j : nat, (j < i)%nat ∧ (factorize_from u vs).1 !! j = Some (c - 1).
Proof.
  revert u i. induction vs as [|v vs IH]; intros u i; [done|].
  rewrite factorize_from_cons.
  assert (∀ k codes, k ≤ Z.of_nat (length u) →
            (∀ i, codes !! i = Some c →
               c ≤ Z.of_nat (length u)
               ∨ ∃ j : nat, (j < i)%nat ∧ codes !! j = Some (c - 1)) →
            (k :: codes) !! i = Some c →
            c ≤ Z.of_nat (length u)
            ∨ ∃ j : nat, (j < i)%nat ∧ (k :: codes) !! j = Some (c - 1)) as Hold.
  { intros k codes Hk Hcodes. destruct i as [|i]; simpl.
    - intros [= <-]. by left.
    - intros Hc. destruct (Hcodes i Hc) as [?|(j & ? & ?)]; [by left|].
      right. exists (S j). split; [lia|done]. }
  destruct (isna v); [|destruct (index_of v u) as [k|] eqn:Hv]; simpl.
  - apply Hold; [lia|]. intros i'. apply IH.
  - apply Hold; [|intros i'; apply IH].
    apply index_of_Some, lookup_lt_Some in Hv. lia.
  - specialize (IH (u ++ [v])). rewrite length_app in IH. simpl in IH.
    destruct i as [|i]; simpl.
    + intros [= <-]. left. lia.
    + intros Hc. destruct (IH i Hc) as [?|(j & ? & ?)].
      * destruct (decide (c ≤ Z.of_nat (length u))); [by left|].
        right. exists 0%nat. split; [lia|]. simpl. f_equal. lia.
      * right. exists (S j). split; [lia|done].
Qed.

(** *** [pd.factorize] proper: the table starts empty *)

Lemma pd_factorize_length vs :
  length (pd_factorize vs).1 = length vs.
Proof. apply factorize_from_length. Qed.

Lemma pd_factorize_NoDup vs : NoDup (pd_factorize vs).2.
Proof. apply factorize_from_uniques, NoDup_nil_2. Qed.


Lemma pd_factorize_missing vs i v :
  vs !! i = Some v → isna v = true → (pd_factorize vs).1 !! i = Some (-1).
Proof. apply factorize_from_missing. Qed.

Lemma pd_factorize_lookup vs i v :
  vs !! i = Some v → isna v = false →
  ∃ k : nat, (pd_factorize vs).1 !! i = Some (Z.of_nat k)
             ∧ (pd_factorize vs).2 !! k = Some v.
Proof. apply factorize_from_lookup, NoDup_nil_2. Qed.

Lemma pd_factorize_code vs i v c :
  vs !! i = Some v → (pd_factorize vs).1 !! i = Some c →
  if isna v then c = -1
  else 0 ≤ c < Z.of_nat (length (pd_factorize vs).2).
Proof. apply factorize_from_code, NoDup_nil_2. Qed.

(** The codes are the sentinel, when a label is missing, and exactly the
    positions of the uniques. *)
Lemma pd_factorize_codes vs c :
  c ∈ (pd_factorize vs).1 ↔
  0 ≤ c < Z.of_nat (length (pd_factorize vs).2)
  ∨ (c = -1 ∧ ∃ v, v ∈ vs ∧ isna v = true).
Proof.
  split.
  - intros (i & Hi)%list_elem_of_lookup.
    assert (is_Some (vs !! i)) as [v Hv].
    { apply lookup_lt_is_Some. rewrite <-pd_factorize_length.
      by eapply lookup_lt_Some. }
    pose proof (pd_factorize_code vs i v c Hv Hi) as Hcase.
    destruct (isna v) eqn:Hna; [right|by left].
    split; [done|]. exists v. split; [|done]. by eapply list_elem_of_lookup_2.
  - intros [Hc|[-> (v & (i & Hi)%list_elem_of_lookup & Hna)]].
    + replace c with (Z.of_nat (Z.to_nat c)) by lia.
      apply factorize_from_new_codes. simpl. unfold pd_factorize in Hc. lia.
    + apply (list_elem_of_lookup_2 _ i). by apply (pd_factorize_missing vs i v).
Qed.

Lemma pd_factorize_nonneg vs :
  no_missing vs → Forall (λ c, 0 ≤ c) (pd_factorize vs).1.
Proof.
  intros Hvs. apply Forall_forall. intros c [?|[_ (v & Hv & Hna)]]%pd_factorize_codes;
    [lia|].
  unfold no_missing in Hvs. rewrite Forall_forall in Hvs.
  rewrite (Hvs v Hv) in Hna. done.
Qed.

Lemma pd_factorize_dense vs :
  no_missing vs → dense_ids (pd_factorize vs).1 (length (pd_factorize vs).2).
Proof.
  intros Hvs c. rewrite pd_factorize_codes. split; [|by left].
  intros [?|[_ (v & Hv & Hna)]]; [done|].
  unfold no_missing in Hvs. rewrite Forall_forall in Hvs.
  rewrite (Hvs v Hv) in Hna. done.
Qed.

(** A code above [0] follows an earlier occurrence of its predecessor. *)
Lemma pd_factorize_predecessor vs i c :
  (pd_factorize vs).1 !! i = Some c →
  c ≤ 0 ∨ ∃ j : nat, (j < i)%nat ∧ (pd_factorize vs).1 !! j = Some (c - 1).
Proof. apply factorize_from_growth. Qed.

Lemma pd_factorize_first_appearance vs :
  no_missing vs → first_appearance_order (pd_factorize vs).1.
Proof.
  intros Hvs i c Hc.
  assert (0 ≤ c).
  { pose proof (pd_factorize_nonneg vs Hvs) as Hnn. rewrite Forall_lookup in Hnn.
    by apply (Hnn i). }
  destruct (pd_factorize_predecessor vs i c Hc) as [?|?]; [|by right].
  left. lia.
Qed.

(** Two positions whose labels are not missing get the same code exactly
    when they carry the same label. *)
Lemma pd_factorize_same_code vs i j v w :
  vs !! i = Some v → vs !! j = Some w → isna v = false → isna w = false →
  (pd_factorize vs).1 !! i = (pd_factorize vs).1 !! j ↔ v = w.
Proof.
  intros Hi Hj Hv Hw.
  destruct (pd_factorize_lookup vs i v Hi Hv) as (k & Hk & Hk').
  destruct (pd_factorize_lookup vs j w Hj Hw) as (k' & Hl & Hl').
  rewrite Hk, Hl. split.
  - intros [= Heq]. apply Nat2Z.inj in Heq. subst k'. congruence.
  - intros ->. do 2 f_equal.
    eapply NoDup_lookup; [apply (pd_factorize_NoDup vs)|done..].
Qed.

(** *** Codes depend on the partition only *)

Lemma index_of_complete x u (k : nat) :
  NoDup u → u !! k = Some x → index_of x u = Some k.
Proof.
  revert k. induction u as [|y u IH]; intros k Hnd Hk; [done|].
  apply NoDup_cons in Hnd as [Hy Hnd]. simpl.
  destruct k as [|k]; simpl in Hk.
  - injection Hk as ->. by rewrite decide_True.
  - rewrite decide_False.
    + by rewrite (IH k).
    + intros ->. apply Hy. by eapply list_elem_of_lookup_2.
Qed.

(** Tables that agree position by position on the labels still to come
    yield the same codes on sequences with the same partition, when no
    label is missing. *)
Lemma factorize_from_same_partition vs : ∀ ws u u',
  length u = length u' → NoDup u → NoDup u' →
  (∀ (i k : nat) v w, vs !! i = Some v → ws !! i = Some w →
     (u !! k = Some v ↔ u' !! k = Some w)) →
  no_missing vs → no_missing ws →
  same_partition vs ws →
  (factorize_from u vs).1 = (factorize_from u' ws).1.
Proof.
  induction vs as [|v vs IH]; intros ws u u' Hlen Hu Hu' Htab Hvs Hws [Hl Hpart];
    destruct ws as [|w ws]; simpl in Hl; try done.
  assert (same_partition vs ws) as Htl.
  { split; [lia|]. intros i j ? ? ? ? ? ? ? ?.
    by apply (Hpart (S i) (S j)). }
  apply Forall_cons in Hvs as [Hv Hvs]. apply Forall_cons in Hws as [Hw Hws].
  rewrite !factorize_from_cons, Hv, Hw.
  destruct (index_of v u) as [k|] eqn:Hiv.
  - assert (index_of w u' = Some k) as ->.
    { apply index_of_complete; [done|].
      apply (Htab 0%nat k v w); [done..|]. by apply index_of_Some. }
    simpl. f_equal. apply IH; [done..| |done|done|done].
    intros i k' ? ? ? ?. by apply (Htab (S i)).
  - assert (index_of w u' = None) as Hiw.
    { destruct (index_of w u') as [k|] eqn:Hiw; [|done].
      apply index_of_Some in Hiw. apply (Htab 0%nat k v w) in Hiw; [|done..].
      apply index_of_None in Hiv. destruct Hiv. by eapply list_elem_of_lookup_2. }
    rewrite Hiw. simpl. rewrite Hlen. f_equal.
    apply IH; [rewrite !length_app; simpl; lia
              |by apply NoDup_snoc_fresh..| |done|done|done].
    intros i k v2 w2 Hv2 Hw2.
    destruct (decide (k < length u)%nat) as [Hk|Hk].
    + rewrite !lookup_app_l by lia. by apply (Htab (S i)).
    + destruct (decide (k = length u)) as [->|].
      * rewrite list_lookup_middle by done.
        rewrite Hlen, list_lookup_middle by done.
        specialize (Hpart 0%nat (S i) v v2 w w2 eq_refl Hv2 eq_refl Hw2).
        split; intros [= <-]; f_equal; by apply Hpart.
      * rewrite !lookup_ge_None_2 by (rewrite length_app; simpl; lia). done.
Qed.

(** Two label sequences without missing labels get the same codes exactly
    when they induce the same partition. *)
Lemma pd_factorize_same_partition vs ws :
  no_missing vs → no_missing ws →
  (pd_factorize vs).1 = (pd_factorize ws).1 ↔ same_partition vs ws.
Proof.
  intros Hvs Hws. split.
  - intros Heq. split.
    { by rewrite <-(pd_factorize_length vs), <-(pd_factorize_length ws), Heq. }
    intros i j v v' w w' Hi Hj Hi' Hj'.
    unfold no_missing in Hvs, Hws. rewrite Forall_lookup in Hvs, Hws.
    rewrite <-(pd_factorize_same_code vs i j v v' Hi Hj) by eauto.
    rewrite <-(pd_factorize_same_code ws i j w w' Hi' Hj') by eauto.
    by rewrite Heq.
  - intros Hpart. apply factorize_from_same_partition;
      [done|apply NoDup_nil_2..| |done|done|done].
    intros i k v w _ _. by rewrite !lookup_nil.
Qed.

(** *** [pd.Index.equals] *)

Lemma label_equal_refl (x : L) : label_equal x x = true.
Proof. unfold label_equal. by rewrite bool_decide_eq_true_2. Qed.

Lemma array_equivalent_refl vs : array_equivalent vs vs = true.
Proof.
  induction vs as [|v vs IH]; [done|]. simpl. by rewrite label_equal_refl, IH.
Qed.

Lemma array_equivalent_length vs ws :
  array_equivalent vs ws = true → length vs = length ws.
Proof.
  revert ws. induction vs as [|v vs IH]; intros [|w ws]; simpl; try done.
  intros [_ ?]%andb_true_iff. f_equal. by apply IH.
Qed.

(** On labels that are not missing it is plain equality. *)
Lemma array_equivalent_present vs ws :
  no_missing vs → array_equivalent vs ws = true ↔ vs = ws.
Proof.
  intros Hvs. split; [|intros <-; apply array_equivalent_refl].
  revert ws. induction Hvs as [|v vs Hv Hvs IH]; intros [|w ws]; simpl; try done.
  unfold label_equal. rewrite Hv, andb_false_l, orb_false_r.
  intros [->%bool_decide_eq_true ?]%andb_true_iff. f_equal. by apply IH.
Qed.

(** Sequences that [equals] identifies are factorised alike. *)
Lemma array_equivalent_factorize vs ws u :
  array_equivalent vs ws = true → factorize_from u vs = factorize_from u ws.
Proof.
  revert ws u. induction vs as [|v vs IH]; intros [|w ws] u; simpl; try done.
  intros [Hvw Htl]%andb_true_iff.
  unfold label_equal in Hvw. apply orb_true_iff in Hvw as [Hvw|Hvw].
  - apply bool_decide_eq_true in Hvw as <-.
    destruct (isna v); [by rewrite (IH ws u Htl)|].
    destruct (index_of v u); by rewrite (IH ws _ Htl).
  - apply andb_true_iff in Hvw as [-> ->]. by rewrite (IH ws u Htl).
Qed.

End Factorize.


(** ** Sorted id arrays *)

Lemma is_sorted_cons x a :
  is_sorted (x :: a) = true ↔ (∀ y, head a = Some y → x ≤ y) ∧ is_sorted a = true.
Proof.
  destruct a as [|y a].
  { simpl. split; [|done]. intros _. split; [by intros ? [=]|done]. }
  change (is_sorted (x :: y :: a)) with (bool_decide (x ≤ y) && is_sorted (y :: a)).
  rewrite andb_true_iff, bool_decide_eq_true. simpl. split.
  - intros [? ?]. split; [by intros ? [= <-]|done].
  - intros [Hhd ?]. split; [by apply Hhd|done].
Qed.

Lemma is_sorted_non_decreasing a :
  is_sorted a = true ↔ non_decreasing a.
Proof.
  induction a as [|x a IH].
  { split; [|done]. by intros _ i j ?? _ ?. }
  rewrite is_sorted_cons, IH. split.
  - intros [Hhd Htl] i j x' y' Hij Hi Hj.
    destruct j as [|j].
    { assert (i = 0%nat) as -> by lia. simplify_eq/=. lia. }
    simpl in Hj. destruct i as [|i]; simpl in Hi.
    + injection Hi as <-.
      destruct a as [|z a]; [done|].
      specialize (Hhd z eq_refl).
      specialize (Htl 0%nat j z y'). simpl in Htl.
      etrans; [exact Hhd|]. apply Htl; [lia|done..].
    + apply (Htl i j); [lia|done..].
  - intros Hnd. split.
    + intros y Hy. rewrite head_lookup in Hy.
      apply (Hnd 0%nat 1%nat x y); [lia|done..].
    + intros i j x' y' ? ? ?. apply (Hnd (S i) (S j)); [lia|done..].
Qed.

Lemma non_decreasing_contiguous a :
  non_decreasing a → contiguous_runs a.
Proof.
  intros Hnd i j k x y [? ?] Hi Hj Hk.
  pose proof (Hnd i j x y ltac:(lia) Hi Hj).
  pose proof (Hnd j k y x ltac:(lia) Hj Hk). lia.
Qed.

Lemma recurs_not_sorted a :
  recurs a → is_sorted a = false.
Proof.
  intros (i & j & k & x & y & ? & Hi & Hj & Hk & Hne).
  apply not_true_is_false. intros Hs%is_sorted_non_decreasing.
  apply Hne. symmetry. by eapply (non_decreasing_contiguous a Hs i j k).
Qed.

(** An array that is not sorted has a descent between two neighbours. *)
Lemma is_sorted_false_descent a :
  is_sorted a = false →
  ∃ (i : nat) (x y : Z), a !! i = Some x ∧ a !! S i = Some y ∧ y < x.
Proof.
  induction a as [|x a IH]; [done|].
  destruct a as [|y a]; [done|].
  change (is_sorted (x :: y :: a)) with (bool_decide (x ≤ y) && is_sorted (y :: a)).
  intros [Hxy|Htl]%andb_false_iff.
  - exists 0%nat, x, y. apply bool_decide_eq_false in Hxy.
    split_and!; [done..|lia].
  - destruct (IH Htl) as (i & x' & y' & ? & ? & ?).
    by exists (S i), x', y'.
Qed.

(** In first-appearance order every smaller id has appeared before. *)
Lemma first_appearance_below a i x c :
  first_appearance_order a → a !! i = Some x → 0 ≤ c ≤ x →
  ∃ j : nat, (j ≤ i)%nat ∧ a !! j = Some c.
Proof.
  intros Hfa. remember (Z.to_nat (x - c)) as d eqn:Hd.
  revert i x Hd. induction d as [|d IH]; intros i x Hd Hi Hc.
  - exists i. split; [done|]. rewrite Hi. f_equal. lia.
  - destruct (Hfa i x Hi) as [->|(j & ? & Hj)]; [lia|].
    destruct (IH j (x - 1)) as (j' & ? & ?); [lia|done|lia|].
    exists j'. split; [lia|done].
Qed.

(** For ids in first-appearance order, being sorted and having no
    recurring id are the same thing. *)
Lemma first_appearance_not_sorted a :
  first_appearance_order a → Forall (λ c, 0 ≤ c) a →
  is_sorted a = false → recurs a.
Proof.
  intros Hfa Hpos (i & x & y & Hi & Hsi & Hlt)%is_sorted_false_descent.
  assert (0 ≤ y) as Hy.
  { rewrite Forall_lookup in Hpos. by apply (Hpos (S i)). }
  destruct (first_appearance_below a i x y Hfa Hi) as (j & Hji & Hj); [lia|].
  assert (j ≠ i) by (intros ->; simplify_eq; lia).
  exists j, i, (S i), y, x. split_and!; [lia|lia|done..|lia].
Qed.

(** ** Run lengths *)

Lemma np_sum_app a b : np_sum (a ++ b) = np_sum a + np_sum b.
Proof. induction a as [|x a IH]; simpl; [done|]. rewrite IH. lia. Qed.

(** Writing a count at [j] extends the written prefix by that count. *)
Lemma np_sum_take_insert (res : list Z) (j : nat) (x : Z) :
  (j < length res)%nat →
  np_sum (take (S j) (<[j:=x]> res)) = np_sum (take j res) + x.
Proof.
  intros Hj. rewrite (take_S_r _ j x) by by apply list_lookup_insert_eq.
  rewrite take_insert_ge by done. rewrite np_sum_app. simpl. lia.
Qed.

(** An iteration that does not raise leaves the current id in
    [prev_group]. *)
Lemma counts_step_prev n i g st :
  ¬ g < prev_group st →
  ∃ st', counts_step n i g st = Ok st' ∧ prev_group st' = g.
Proof.
  intros Hg. unfold counts_step. rewrite bool_decide_eq_false_2 by done.
  eexists. split; [done|].
  repeat case_bool_decide; simpl; lia.
Qed.

Lemma counts_step_raise n i g st :
  g < prev_group st → counts_step n i g st = Raise IncoherentGroups.
Proof. intros Hg. unfold counts_step. by rewrite bool_decide_eq_true_2. Qed.

Lemma counts_step_inv n i g st :
  counts_inv n i st → (i < n)%nat → ¬ g < prev_group st →
  ∃ st', counts_step n i g st = Ok st' ∧ counts_inv n (S i) st'
         ∧ prev_group st' = g.
Proof.
  intros (Hlen & Hsum & H0 & Hmid & _) Hi Hg.
  destruct (counts_step_prev n i g st Hg) as (st' & Hst' & Hprev).
  exists st'. split_and!; [done| |done].
  unfold counts_step in Hst'. rewrite bool_decide_eq_false_2 in Hst' by done.
  injection Hst' as <-. clear Hprev. unfold counts_inv, emit_run.
  destruct st as [res j p rc]; simpl in *.
  destruct (decide (i = 0%nat)) as [->|Hne].
  - destruct H0 as (-> & -> & ->); [done|].
    repeat case_bool_decide; simpl; rewrite ?length_insert,
      ?np_sum_take_insert by lia; simpl; split_and!; intros; lia.
  - destruct Hmid as [? ?]; [lia|].
    repeat case_bool_decide; simpl; rewrite ?length_insert;
      rewrite ?np_sum_take_insert by (rewrite ?length_insert; lia);
      rewrite ?np_sum_take_insert by lia;
      split_and!; intros; lia.
Qed.

(** On sorted ids that start at [-1] or above the loop runs to its end. *)
Lemma counts_loop_ok n (l : list Z) :
  ∀ i st, counts_inv n i st → (i + length l = n)%nat →
    is_sorted (prev_group st :: l) = true →
    ∃ st', counts_loop n i l st = Ok st' ∧ counts_inv n n st'.
Proof.
  induction l as [|g l IH]; intros i st Hinv Hn Hs; simpl in Hn |- *.
  { exists st. split; [done|]. assert (i = n) as -> by lia. done. }
  apply is_sorted_cons in Hs as [Hhd Htl]. specialize (Hhd g eq_refl).
  destruct (counts_step_inv n i g st Hinv) as (st1 & -> & Hinv1 & Hprev);
    [lia..|]. simpl.
  apply IH; [done|lia|by rewrite Hprev].
Qed.

(** A descent anywhere in the remaining ids makes the loop raise. *)
Lemma counts_loop_raise n (l : list Z) :
  ∀ i st, is_sorted (prev_group st :: l) = false →
    counts_loop n i l st = Raise IncoherentGroups.
Proof.
  induction l as [|g l IH]; intros i st Hs; [done|]. simpl.
  destruct (decide (g < prev_group st)) as [Hlt|Hge].
  { by rewrite counts_step_raise. }
  destruct (counts_step_prev n i g st Hge) as (st1 & -> & Hprev). simpl.
  apply IH. rewrite Hprev.
  change (bool_decide (prev_group st ≤ g) && is_sorted (g :: l) = false) in Hs.
  rewrite bool_decide_eq_true_2 in Hs by lia. done.
Qed.

Lemma counts_init_inv n : counts_inv n 0 (counts_init n).
Proof.
  unfold counts_inv, counts_init. simpl.
  rewrite length_replicate. split_and!; intros; (done || lia).
Qed.

Lemma get_group_counts_nb_raise (groups : list Z) :
  is_sorted (-1 :: groups) = false →
  get_group_counts_nb groups = Raise IncoherentGroups.
Proof.
  intros Hs. unfold get_group_counts_nb.
  by rewrite counts_loop_raise.
Qed.

Lemma get_group_counts_nb_ok (groups : list Z) :
  is_sorted (-1 :: groups) = true →
  ∃ counts, get_group_counts_nb groups = Ok counts
            ∧ np_sum counts = Z.of_nat (length groups)
            ∧ (length counts ≤ length groups)%nat
            ∧ (groups ≠ [] → counts ≠ []).
Proof.
  intros Hs. unfold get_group_counts_nb.
  destruct (counts_loop_ok (length groups) groups 0 (counts_init (length groups)))
    as (st & -> & Hlen & Hsum & H0 & _ & Hend);
    [apply counts_init_inv|done|done|].
  simpl. eexists. split; [done|].
  destruct groups as [|g groups].
  - destruct H0 as (-> & _ & ?); [done|]. simpl in *. split_and!; done.
  - destruct Hend as [? Hrc]; [simpl; lia|done|]. rewrite Hrc in Hsum.
    split_and!; [lia|rewrite length_take; lia|].
    intros _ Hnil. apply (f_equal length) in Hnil.
    rewrite length_take in Hnil. simpl in *. lia.
Qed.

(** *** The loop computes the run lengths *)

(** From the second iteration on, the loop appends to the counts written
    so far the runs of the remaining ids. *)
Lemma counts_loop_runs n (l : list Z) :
  ∀ i st, counts_inv n i st → (0 < i)%nat → (i + length l = n)%nat → l ≠ [] →
    0 ≤ prev_group st → is_sorted (prev_group st :: l) = true →
    ∃ st', counts_loop n i l st = Ok st'
           ∧ take (j st') (result_arr st')
             = take (j st) (result_arr st) ++ runs_from (prev_group st) (run_count st) l.
Proof.
  induction l as [|g l IH]; intros i st Hinv Hi Hn Hne Hprev Hs; [done|].
  simpl in Hn. apply is_sorted_cons in Hs as [Hhd Htl]. specialize (Hhd g eq_refl).
  destruct (counts_step_inv n i g st Hinv) as (st1 & Hstep & Hinv1 & Hprev1);
    [lia..|].
  simpl. rewrite Hstep. simpl.
  destruct Hinv as (Hlen & _ & _ & Hmid & _). destruct Hmid as [Hj _]; [lia|].
  unfold counts_step in Hstep. rewrite bool_decide_eq_false_2 in Hstep by lia.
  destruct l as [|g' l].
  - (* the last iteration *)
    simpl in *. exists st1. split; [reflexivity|].
    rewrite (bool_decide_eq_true_2 (Z.of_nat i = Z.of_nat n - 1)) in Hstep by lia.
    injection Hstep as <-. unfold emit_run.
    destruct st as [res j p rc]; simpl in *.
    destruct (decide (g = p)) as [->|Hgp].
    + rewrite (bool_decide_eq_false_2 (p ≠ p)) by (by intros []).
      rewrite (bool_decide_eq_true_2 (p = p)) by done. simpl.
      rewrite (take_S_r _ j (rc + 1)) by (apply list_lookup_insert_eq; lia).
      by rewrite take_insert_ge by done.
    + rewrite bool_decide_eq_true_2 by done.
      rewrite bool_decide_eq_true_2 by lia.
      rewrite (bool_decide_eq_false_2 (g = p)) by done. simpl.
      rewrite (take_S_r _ (S j) (0 + 1))
        by (apply list_lookup_insert_eq; rewrite length_insert; lia).
      rewrite take_insert_ge by lia.
      rewrite (take_S_r _ j rc) by (apply list_lookup_insert_eq; lia).
      rewrite take_insert_ge by done. by rewrite <-app_assoc.
  - (* an inner iteration *)
    destruct (IH (S i) st1) as (st' & Hloop & Htake);
      [done|lia|simpl in *; lia|done|lia|by rewrite Hprev1|].
    exists st'. split; [done|]. rewrite Htake. clear Htake Hloop IH.
    rewrite (bool_decide_eq_false_2 (Z.of_nat i = Z.of_nat n - 1)) in Hstep
      by (simpl in *; lia).
    injection Hstep as <-. unfold emit_run.
    destruct st as [res j p rc]; simpl in *.
    destruct (decide (g = p)) as [->|Hgp].
    + rewrite (bool_decide_eq_false_2 (p ≠ p)) by (by intros []).
      by rewrite (bool_decide_eq_true_2 (p = p)) by done.
    + rewrite bool_decide_eq_true_2 by done.
      rewrite bool_decide_eq_true_2 by lia.
      rewrite (bool_decide_eq_false_2 (g = p)) by done. simpl.
      rewrite (take_S_r _ j rc) by (apply list_lookup_insert_eq; lia).
      rewrite take_insert_ge by done. by rewrite <-app_assoc.
Qed.

(** On a coherent id array the loop returns the run lengths. *)
Lemma get_group_counts_nb_run_lengths (groups : list Z) :
  coherent groups → get_group_counts_nb groups = Ok (run_lengths groups).
Proof.
  intros [Hpos Hs]. unfold get_group_counts_nb.
  destruct groups as [|g l]; [done|].
  apply Forall_cons in Hpos as [Hg _].
  remember (length (g :: l)) as n eqn:Hn. simpl in Hn.
  destruct (counts_step_inv n 0 g (counts_init n)) as (st1 & Hstep & Hinv1 & Hprev1);
    [apply counts_init_inv|lia|unfold counts_init; simpl; lia|].

  cbn [counts_loop]. rewrite Hstep. simpl.
  unfold counts_step, counts_init in Hstep. simpl in Hstep.
  rewrite (bool_decide_eq_false_2 (g < -1)) in Hstep by lia.
  rewrite (bool_decide_eq_true_2 (g ≠ -1)) in Hstep by lia. simpl in Hstep.
  destruct l as [|g' l].
  - simpl in *. subst n. injection Hstep as <-. done.
  - rewrite (bool_decide_eq_false_2 (0 = Z.of_nat n - 1)) in Hstep
      by (simpl in *; lia).
    destruct (counts_loop_runs n (g' :: l) 1 st1) as (st' & -> & Htake);
      [done|lia|simpl in *; lia|done|lia|by rewrite Hprev1|].
    simpl. rewrite Htake. by injection Hstep as <-.
Qed.

(** *** Run lengths count the columns of each id *)

Lemma unit_steps_cons_inv x a : unit_steps (x :: a) → unit_steps a.
Proof. intros Hst i y z Hi Hsi. by apply (Hst (S i)). Qed.

Lemma unit_steps_lower x a y : unit_steps (x :: a) → y ∈ a → x ≤ y.
Proof.
  revert x. induction a as [|z a IH]; intros x Hst Hy.
  { by apply elem_of_nil in Hy. }
  assert (x ≤ z) by (destruct (Hst 0%nat x z eq_refl eq_refl); lia).
  apply elem_of_cons in Hy as [->|Hy]; [done|].
  etrans; [done|]. apply IH; [|done]. by eapply unit_steps_cons_inv.
Qed.

Lemma count_id_absent c a : c ∉ a → count_id c a = 0.
Proof.
  induction a as [|x a IH]; intros Hc; simpl; [done|].
  apply not_elem_of_cons in Hc as [? ?].
  rewrite bool_decide_eq_false_2 by done. rewrite IH by done. done.
Qed.

Lemma count_id_present c a : c ∈ a → 1 ≤ count_id c a.
Proof.
  assert (∀ b, 0 ≤ count_id c b) as Hnn.
  { intros b. induction b as [|x b IH]; simpl; [done|]. case_bool_decide; lia. }
  induction a as [|x a IH]; intros Hc; simpl.
  { by apply elem_of_nil in Hc. }
  case_bool_decide; [specialize (Hnn a); lia|].
  apply elem_of_cons in Hc as [->|Hc]; [done|]. specialize (IH Hc). lia.
Qed.

(** Entry [k] of the runs is the number of remaining columns with id
    [prev + k], plus the running count for [k = 0]; there is an entry for
    every id that occurs and for no other. *)
Lemma runs_from_lookup (a : list Z) :
  ∀ (prev rc : Z) (k : nat), unit_steps (prev :: a) →
    runs_from prev rc a !! k =
      if decide (prev + Z.of_nat k ∈ prev :: a)
      then Some (count_id (prev + Z.of_nat k) a + (if k is O then rc else 0))
      else None.
Proof.
  induction a as [|g a IH]; intros prev rc k Hst.
  - simpl. destruct k as [|k]; simpl.
    + rewrite decide_True by (apply elem_of_cons; left; lia). done.
    + rewrite decide_False; [done|].
      intros [?|[]%elem_of_nil]%elem_of_cons. lia.
  - pose proof (unit_steps_cons_inv _ _ Hst) as Hst'.
    simpl. destruct (Hst 0%nat prev g eq_refl eq_refl) as [->| ->].
    + rewrite !(bool_decide_eq_true_2 (prev = prev)) by done.
      rewrite (IH prev (rc + 1) k Hst').
      destruct (decide (prev + Z.of_nat k ∈ prev :: a)) as [Hin|Hin].
      * rewrite decide_True by (by apply elem_of_cons; right).
        f_equal. destruct k as [|k].
        -- rewrite bool_decide_eq_true_2 by lia. lia.
        -- rewrite bool_decide_eq_false_2 by lia. lia.
      * rewrite decide_False; [done|].
        by intros [?|?]%elem_of_cons; apply Hin; [apply elem_of_cons; left|].
    + rewrite (bool_decide_eq_false_2 (prev + 1 = prev)) by lia.
      destruct k as [|k]; simpl.
      * rewrite decide_True by (apply elem_of_cons; left; lia).
        rewrite bool_decide_eq_false_2 by lia.
        rewrite count_id_absent; [f_equal; lia|].
        intros Hin. pose proof (unit_steps_lower _ _ _ Hst' Hin). lia.
      * rewrite (IH (prev + 1) 1 k Hst').
        replace (prev + 1 + Z.of_nat k) with (prev + Z.of_nat (S k)) by lia.
        destruct (decide (prev + Z.of_nat (S k) ∈ prev + 1 :: a)) as [Hin|Hin].
        -- rewrite decide_True by (by apply elem_of_cons; right).
           f_equal. destruct k as [|k].
           ++ rewrite bool_decide_eq_true_2 by lia. lia.
           ++ rewrite bool_decide_eq_false_2 by lia. lia.
        -- rewrite decide_False; [done|].
           intros [?|?]%elem_of_cons; [lia|done].
Qed.

(** ** Prefix sums *)

Lemma cumsum_from_length acc a : length (cumsum_from acc a) = length a.
Proof.
  revert acc. induction a as [|x a IH]; intros acc; simpl; [done|].
  by rewrite IH.
Qed.

Lemma cumsum_from_lookup acc a (k : nat) :
  (k < length a)%nat →
  cumsum_from acc a !! k = Some (acc + np_sum (take (S k) a)).
Proof.
  revert acc k. induction a as [|x a IH]; intros acc k Hk; simpl in *; [lia|].
  destruct k as [|k]; simpl.
  - rewrite ?take_0. simpl. f_equal. lia.
  - rewrite IH by lia. f_equal. simpl. lia.
Qed.

(** [ends[k]] is the inclusive prefix sum of the counts. *)
Lemma end_idxs_lookup a (k : nat) :
  (k < length a)%nat → end_idxs a !! k = Some (np_sum (take (S k) a)).
Proof. intros Hk. unfold end_idxs, np_cumsum. by rewrite cumsum_from_lookup. Qed.

(** [starts[k]] is the exclusive prefix sum of the counts. *)
Lemma start_idxs_lookup a (k : nat) :
  (k < length a)%nat → start_idxs a !! k = Some (np_sum (take k a)).
Proof.
  intros Hk. unfold start_idxs, np_cumsum.
  destruct (lookup_lt_is_Some_2 a k Hk) as [c Hc].
  rewrite lookup_zip_with, cumsum_from_lookup, Hc by done. simpl.
  rewrite (take_S_r _ _ _ Hc), np_sum_app. simpl. f_equal. lia.
Qed.

Lemma start_idxs_length a : length (start_idxs a) = length a.
Proof.
  unfold start_idxs, np_cumsum.
  rewrite length_zip_with, cumsum_from_length. lia.
Qed.

Lemma end_idxs_length a : length (end_idxs a) = length a.
Proof. apply cumsum_from_length. Qed.

Lemma cumsum_from_ones (n s : nat) :
  cumsum_from (Z.of_nat s) (replicate n 1) = Z.of_nat <$> seq (S s) n.
Proof.
  revert s. induction n as [|n IH]; intros s; simpl; [done|].
  replace (Z.of_nat s + 1) with (Z.of_nat (S s)) by lia.
  by rewrite IH.
Qed.

Lemma end_idxs_ones (n : nat) :
  end_idxs (replicate n 1) = Z.of_nat <$> seq 1 n.
Proof. apply (cumsum_from_ones n 0). Qed.

Lemma start_idxs_ones (n : nat) :
  start_idxs (replicate n 1) = np_arange n.
Proof.
  unfold start_idxs, np_arange. fold (end_idxs (replicate n 1)).
  rewrite end_idxs_ones.
  assert (∀ s : nat, zip_with Z.sub (Z.of_nat <$> seq (S s) n) (replicate n 1)
                     = Z.of_nat <$> seq s n) as Hgen; [|apply Hgen].
  induction n as [|n IH]; intros s; simpl; [done|].
  rewrite IH. f_equal. lia.
Qed.

(** ** [np.arange] *)

Lemma np_arange_lookup (n i : nat) :
  (i < n)%nat → np_arange n !! i = Some (Z.of_nat i).
Proof.
  intros Hi. unfold np_arange.
  by rewrite list_lookup_fmap, lookup_seq_lt.
Qed.

Lemma np_arange_lookup_Some (n i : nat) c :
  np_arange n !! i = Some c → c = Z.of_nat i ∧ (i < n)%nat.
Proof.
  unfold np_arange. rewrite list_lookup_fmap.
  intros (k & [-> ?]%lookup_seq & ->)%fmap_Some. done.
Qed.

Lemma np_arange_length n : length (np_arange n) = n.
Proof. unfold np_arange. by rewrite length_fmap, length_seq. Qed.

Lemma np_arange_dense n : dense_ids (np_arange n) n.
Proof.
  intros c. rewrite list_elem_of_lookup. split.
  - intros [i [-> ?]%np_arange_lookup_Some]. lia.
  - intros Hc. exists (Z.to_nat c). rewrite np_arange_lookup by lia.
    f_equal. lia.
Qed.

Lemma np_arange_first_appearance n : first_appearance_order (np_arange n).
Proof.
  intros i c [-> Hi]%np_arange_lookup_Some.
  destruct i as [|i]; [by left|]. right. exists i. split; [lia|].
  rewrite np_arange_lookup by lia. f_equal. lia.
Qed.

Lemma np_arange_non_decreasing n : non_decreasing (np_arange n).
Proof.
  intros i k x y Hik [-> ?]%np_arange_lookup_Some [-> ?]%np_arange_lookup_Some.
  lia.
Qed.

(** ** Coherent labels and their codes *)

Section Coherence.
Context {L : Type} `{EqDecision L} `{!IsNa L}.
Implicit Types (vs : list L).

(** A recurring code is a recurring label. *)
Lemma recurs_codes_labels vs :
  no_missing vs → recurs (pd_factorize vs).1 → ¬ coherent_labels vs.
Proof.
  intros Hvs (i & j & k & x & y & Hlt & Hi & Hj & Hk & Hne) Hco.
  unfold no_missing in Hvs. rewrite Forall_lookup in Hvs.
  assert (∀ p c, (pd_factorize vs).1 !! p = Some c → is_Some (vs !! p)) as Hdom.
  { intros p c Hp. apply lookup_lt_is_Some. rewrite <-pd_factorize_length.
    by eapply lookup_lt_Some. }
  destruct (Hdom i x Hi) as [vi Hvi].
  destruct (Hdom j y Hj) as [vj Hvj].
  destruct (Hdom k x Hk) as [vk Hvk].
  assert (vi = vk) as <-.
  { apply (pd_factorize_same_code vs i k); [done|done|eauto|eauto|congruence]. }
  assert (vj = vi) as -> by by eapply (Hco i j k).
  apply Hne. assert (Some x = Some y) as [= ->]; [|done].
  rewrite <-Hi, <-Hj. apply (pd_factorize_same_code vs i j vi vi); eauto.
Qed.

(** The codes of a label sequence without missing labels are sorted
    exactly when the labels are coherent. *)
Lemma is_sorted_coherent_labels vs :
  no_missing vs →
  is_sorted (pd_factorize vs).1 = true ↔ coherent_labels vs.
Proof.
  intros Hvs. split.
  - intros Hs%is_sorted_non_decreasing%non_decreasing_contiguous.
    unfold no_missing in Hvs. rewrite Forall_lookup in Hvs.
    intros i j k v w Hlt Hi Hj Hk.
    destruct (pd_factorize_lookup vs i v Hi) as (ci & Hci & _); [eauto|].
    destruct (pd_factorize_lookup vs j w Hj) as (cj & Hcj & _); [eauto|].
    destruct (pd_factorize_lookup vs k v Hk) as (ck & Hck & _); [eauto|].
    assert (ck = ci) as ->.
    { apply Nat2Z.inj. assert (Some (Z.of_nat ck) = Some (Z.of_nat ci)) as [=]; [|done].
      rewrite <-Hck, <-Hci. apply (pd_factorize_same_code vs k i v v); eauto. }
    apply (pd_factorize_same_code vs j i); [done|done|eauto|eauto|].
    rewrite Hcj, Hci. f_equal. by eapply (Hs i j k).
  - intros Hco. destruct (is_sorted (pd_factorize vs).1) eqn:Hs; [done|].
    exfalso. eapply recurs_codes_labels; [done| |done].
    apply first_appearance_not_sorted;
      [by apply pd_factorize_first_appearance|by apply pd_factorize_nonneg|done].
Qed.

(** Sorted codes have their sentinels in front: the missing labels of a
    sequence that factorises to sorted codes form a leading run. *)
Lemma is_sorted_missing_first vs (i j : nat) v w :
  is_sorted (pd_factorize vs).1 = true →
  (i ≤ j)%nat → vs !! i = Some v → vs !! j = Some w →
  isna w = true → isna v = true.
Proof.
  intros Hs%is_sorted_non_decreasing Hij Hi Hj Hw.
  pose proof (pd_factorize_missing vs j w Hj Hw) as Hcj.
  destruct (lookup_lt_is_Some_2 (pd_factorize vs).1 i) as [c Hc].
  { rewrite pd_factorize_length. by eapply lookup_lt_Some. }
  pose proof (Hs i j c (-1) Hij Hc Hcj) as Hle.
  pose proof (pd_factorize_code vs i v c Hi Hc) as Hcase.
  destruct (isna v); [done|lia].
Qed.

End Coherence.

(** ** Normalisation and factorisation *)

Section Grouping.
Context {L : Type} `{EqDecision L} `{!IsNa L} `{!IndexFns L}.
Implicit Types (index labels : Index L) (m : Mapper L) (gb : GroupBy L).
Implicit Types (self : ColumnGrouper L) (kw : Kwargs).

Lemma mapper_to_index_Ok index m labels :
  mapper_to_index index m = Ok labels ↔
  coerce_mapper index m = Ok labels ∧ len labels = len index.
Proof.
  unfold mapper_to_index.
  destruct (coerce_mapper index m) as [i|e]; simpl.
  - case_bool_decide as Hlen; split.
    + done.
    + intros [[= <-] ?]. by destruct Hlen.
    + intros [= <-]. split; [done|]. unfold len in *. lia.
    + by intros [[= <-] _].
  - split; [done|]. by intros [? _].
Qed.

Lemma mapper_to_index_Raise index m e :
  mapper_to_index index m = Raise e → e = LengthMismatch ∨ e = LevelError.
Proof.
  unfold mapper_to_index.
  destruct (coerce_mapper index m) as [i|e'] eqn:Hc; simpl.
  - case_bool_decide; [|done]. intros [= <-]. by left.
  - intros [= <-]. right.
    destruct m as [sel|i|vs]; simpl in Hc; [|done..].
    destruct (select_levels index sel); congruence.
Qed.

Lemma mapper_to_index_MIndex index labels :
  len labels = len index → mapper_to_index index (MIndex labels) = Ok labels.
Proof. intros Hlen. by apply mapper_to_index_Ok. Qed.

(** A normalised spec is a fixed point of normalisation. *)
Lemma mapper_to_index_idemp index m labels :
  mapper_to_index index m = Ok labels →
  mapper_to_index index (MIndex labels) = Ok labels.
Proof. intros [_ ?]%mapper_to_index_Ok. by apply mapper_to_index_MIndex. Qed.

Lemma group_by_to_index_mapper index gb labels :
  group_by_to_index index gb = Ok (GMapper (MIndex labels)) ↔
  ∃ m, gb = GMapper m ∧ mapper_to_index index m = Ok labels.
Proof.
  destruct gb as [|b|m]; simpl.
  - split; [done|]. by intros (m & ? & _).
  - split; [done|]. by intros (m & ? & _).
  - split.
    + destruct (mapper_to_index index m) as [i|e] eqn:Hm; simpl; [|done].
      intros Heq. exists m. split; [done|]. by simplify_eq/=.
    + intros (m' & [= <-] & ->). done.
Qed.

Lemma group_by_to_index_Raise index gb e :
  group_by_to_index index gb = Raise e → e = LengthMismatch ∨ e = LevelError.
Proof.
  destruct gb as [|b|m]; simpl; [done..|].
  destruct (mapper_to_index index m) eqn:Hm; simpl; [done|].
  intros [= <-]. by eapply mapper_to_index_Raise.
Qed.

(** [get_groups_and_index] on a mapper, once the mapper is normalised. *)
Lemma get_groups_and_index_mapper index m labels :
  mapper_to_index index m = Ok labels →
  get_groups_and_index index (GMapper m) =
    if is_sorted (pd_factorize (values labels)).1
    then Ok ((pd_factorize (values labels)).1,
             {| values := (pd_factorize (values labels)).2; names := names labels |})
    else Raise IncoherentGroups.
Proof.
  intros Hm. simpl. rewrite Hm. simpl.
  destruct (pd_factorize (values labels)) as [groups uniques]. simpl.
  by destruct (is_sorted groups).
Qed.

Lemma get_groups_and_index_Raise index gb e :
  get_groups_and_index index gb = Raise e →
  e = LengthMismatch ∨ e = LevelError ∨ e = IncoherentGroups.
Proof.
  destruct gb as [|b|m]; [done..|].
  destruct (mapper_to_index index m) as [labels|e'] eqn:Hm.
  - rewrite (get_groups_and_index_mapper _ _ _ Hm).
    destruct (is_sorted _); [done|]. intros [= <-]. auto.
  - simpl. rewrite Hm. simpl. intros [= <-].
    apply mapper_to_index_Raise in Hm as [->| ->]; auto.
Qed.

(** On labels none of which is missing, factorisation returns exactly
    when they are coherent. *)
Lemma get_groups_and_index_coherent index m labels :
  mapper_to_index index m = Ok labels → no_missing (values labels) →
  (∃ r, get_groups_and_index index (GMapper m) = Ok r) ↔ coherent_labels (values labels).
Proof.
  intros Hm Hna. rewrite (get_groups_and_index_mapper _ _ _ Hm).
  rewrite <-(is_sorted_coherent_labels _ Hna).
  destruct (is_sorted _); split; try done.
  - intros _. by eexists.
  - by intros [r ?].
Qed.

End Grouping.

(** ** The grouping policy *)

Section Policy.
Context {L : Type} `{EqDecision L} `{!IsNa L} `{!IndexFns L}.
Implicit Types (index labels : Index L) (m : Mapper L) (gb : GroupBy L).
Implicit Types (self : ColumnGrouper L) (kw : Kwargs).
Local Arguments get_groups_and_index : simpl never.

Lemma is_grouped_mapper self m : is_grouped self (GMapper m) = true.
Proof. done. Qed.

Lemma is_grouped_absent self :
  is_grouped self GNone = bool_decide (group_by self ≠ None).
Proof. unfold is_grouped, self_group_by. by destruct (group_by self). Qed.

Lemma is_grouping_enabled_true self gb :
  is_grouping_enabled self gb = true ↔
  group_by self = None ∧ ∃ m, gb = GMapper m.
Proof.
  unfold is_grouping_enabled, is_grouped, self_group_by.
  destruct (group_by self) as [base|]; simpl.
  - split; [done|]. by intros [? _].
  - destruct gb as [|[|]|m]; simpl; split; try done.
    + by intros [_ [m ?]].
    + by intros [_ [m ?]].
    + by intros [_ [m ?]].
    + intros _. split; [done|]. by exists m.
Qed.

Lemma is_grouping_disabled_true self gb :
  is_grouping_disabled self gb = true ↔
  group_by self ≠ None ∧ gb = GBool false.
Proof.
  unfold is_grouping_disabled, is_grouped, self_group_by.
  destruct (group_by self) as [base|]; simpl.
  - destruct gb as [|[|]|m]; simpl; split; try done; by intros [_ ?].
  - split; [done|]. by intros [? _].
Qed.

(** The modification check answers [True] exactly when baseline and
    candidate are both index-valued, their labels differ, both factorise,
    and the group ids differ. *)
Lemma is_grouping_modified_true self gb :
  is_grouping_modified self gb = Ok true ↔
  ∃ cand base g1 i1 g2 i2,
    group_by_to_index (columns self) gb = Ok (GMapper (MIndex cand))
    ∧ group_by self = Some base
    ∧ Index_equals cand base = false
    ∧ get_groups_and_index (columns self) (GMapper (MIndex cand)) = Ok (g1, i1)
    ∧ get_groups_and_index (columns self) (GMapper (MIndex base)) = Ok (g2, i2)
    ∧ g1 ≠ g2.
Proof.
  split.
  - unfold is_grouping_modified. intros Hm.
    destruct (group_by_to_index (columns self) gb) as [[| |[|cand|]]|] eqn:Hgb;
      simpl in Hm; try done.
    destruct (group_by self) as [base|] eqn:Hbase; [|done].
    destruct (Index_equals cand base) eqn:Heq; simpl in Hm; [done|].
    destruct (get_groups_and_index _ (GMapper (MIndex cand))) as [[g1 i1]|] eqn:H1;
      simpl in Hm; [|done].
    destruct (get_groups_and_index _ (GMapper (MIndex base))) as [[g2 i2]|] eqn:H2;
      simpl in Hm; [|done].
    case_bool_decide; simpl in Hm; [done|].
    by exists cand, base, g1, i1, g2, i2.
  - intros (cand & base & g1 & i1 & g2 & i2 & Hgb & Hbase & Hne & H1 & H2 & Hg).
    unfold is_grouping_modified. rewrite Hgb. simpl. rewrite Hbase, Hne. simpl.
    rewrite H1. simpl. rewrite H2. simpl.
    by rewrite bool_decide_eq_false_2.
Qed.

Lemma is_grouping_modified_Raise self gb e :
  is_grouping_modified self gb = Raise e →
  e = LengthMismatch ∨ e = LevelError ∨ e = IncoherentGroups.
Proof.
  unfold is_grouping_modified.
  destruct (group_by_to_index (columns self) gb) as [[| |[|cand|]]|e'] eqn:Hgb;
    simpl; try done.
  - destruct (group_by self) as [base|]; [|done].
    destruct (negb _); [|done].
    destruct (get_groups_and_index _ (GMapper (MIndex cand))) as [[g1 i1]|e1] eqn:H1;
      simpl.
    + destruct (get_groups_and_index _ (GMapper (MIndex base))) as [[g2 i2]|e2] eqn:H2;
        simpl.
      * by destruct (negb _).
      * intros [= <-]. by eapply get_groups_and_index_Raise.
    + intros [= <-]. by eapply get_groups_and_index_Raise.
  - intros [= <-]. apply group_by_to_index_Raise in Hgb. tauto.
Qed.

(** A modification presupposes a baseline and an explicit candidate, so it
    excludes both enabling and disabling. *)
Lemma is_grouping_modified_exclusive self gb :
  is_grouping_modified self gb = Ok true →
  is_grouping_enabled self gb = false ∧ is_grouping_disabled self gb = false.
Proof.
  intros (cand & base & ? & ? & ? & ? & Hgb & Hbase & _)%is_grouping_modified_true.
  apply group_by_to_index_mapper in Hgb as (m & -> & _).
  unfold is_grouping_enabled, is_grouping_disabled. rewrite Hbase. simpl.
  by split.
Qed.

(** Without baseline, or without an explicit candidate, nothing is
    modified. *)
Lemma is_grouping_modified_no_baseline self gb :
  group_by self = None →
  is_grouping_modified self gb = Ok false
  ∨ ∃ e, is_grouping_modified self gb = Raise e.
Proof.
  intros Hbase. unfold is_grouping_modified. rewrite Hbase.
  destruct (group_by_to_index (columns self) gb) as [[| |[|cand|]]|e]; simpl; eauto.
Qed.

Lemma is_grouping_modified_not_mapper self gb :
  (∀ m, gb ≠ GMapper m) → is_grouping_modified self gb = Ok false.
Proof.
  intros Hgb. destruct gb as [|b|m]; [done..|]. by destruct (Hgb m).
Qed.


Lemma same_partition_refl (vs : list L) : same_partition vs vs.
Proof.
  split; [done|]. intros i j v v' w w' Hi Hj Hi' Hj'.
  rewrite Hi in Hi'. rewrite Hj in Hj'. by simplify_eq.
Qed.


(** When candidate and baseline are both coherent and without missing
    labels, the answer is exactly whether their partitions differ. *)
Lemma is_grouping_modified_coherent self gb cand base :
  group_by_to_index (columns self) gb = Ok (GMapper (MIndex cand)) →
  group_by self = Some base → len base = len (columns self) →
  no_missing (values cand) → no_missing (values base) →
  coherent_labels (values cand) → coherent_labels (values base) →
  (same_partition (values cand) (values base) →
     is_grouping_modified self gb = Ok false)
  ∧ (¬ same_partition (values cand) (values base) →
     is_grouping_modified self gb = Ok true).
Proof.
  intros Hgb Hbase Hlen Hnc Hnb Hc Hb.
  pose proof Hgb as (m & _ & Hm%mapper_to_index_idemp)%group_by_to_index_mapper.
  pose proof (mapper_to_index_MIndex _ _ Hlen) as Hm'.
  unfold is_grouping_modified. rewrite Hgb. simpl. rewrite Hbase.
  destruct (Index_equals cand base) eqn:Heq; simpl.
  { split; [done|]. intros []. unfold Index_equals in Heq.
    apply array_equivalent_present in Heq as ->; [|done].
    apply same_partition_refl. }
  rewrite (get_groups_and_index_mapper _ _ _ Hm).
  rewrite (get_groups_and_index_mapper _ _ _ Hm').
  apply is_sorted_coherent_labels in Hc as ->; [|done].
  apply is_sorted_coherent_labels in Hb as ->; [|done]. simpl.
  case_bool_decide as Hg; simpl.
  - split; [done|]. intros []. by apply pd_factorize_same_partition.
  - split; [|done]. intros ?%pd_factorize_same_partition; done.
Qed.

End Policy.

(** ** Permission check and resolution *)

Section Resolution.
Context {L : Type} `{EqDecision L} `{!IsNa L} `{!IndexFns L}.
Implicit Types (index labels : Index L) (m : Mapper L) (gb : GroupBy L).
Implicit Types (self : ColumnGrouper L) (kw : Kwargs).
Local Arguments is_grouping_modified : simpl never.
Local Arguments is_grouping_enabled : simpl never.
Local Arguments is_grouping_disabled : simpl never.

(** The part of [check_group_by] behind the first two tests. *)
Lemma check_group_by_modify_branch self gb (e : ValueError) :
  (modified ← is_grouping_modified self gb;
   if modified : bool then Raise ModifyNotAllowed else Ok ()) = Raise e →
  (e = ModifyNotAllowed ∧ is_grouping_modified self gb = Ok true)
  ∨ (e ≠ ModifyNotAllowed ∧ e ≠ EnableNotAllowed ∧ e ≠ DisableNotAllowed
     ∧ is_grouping_modified self gb = Raise e).
Proof.
  destruct (is_grouping_modified self gb) as [[|]|e'] eqn:Hm; simpl; [|done|].
  - intros [= <-]. by left.
  - intros [= <-]. right.
    apply is_grouping_modified_Raise in Hm as [->|[->| ->]]; by split_and!.
Qed.

Lemma check_group_by_enable self gb kw :
  check_group_by self gb kw = Raise EnableNotAllowed ↔
  default (allow_enable self) (kw_allow_enable kw) = false
  ∧ is_grouping_enabled self gb = true.
Proof.
  unfold check_group_by.
  assert ((if negb (default (allow_disable self) (kw_allow_disable kw))
              && is_grouping_disabled self gb
           then Raise DisableNotAllowed
           else if negb (default (allow_modify self) (kw_allow_modify kw))
           then modified ← is_grouping_modified self gb;
                if modified : bool then Raise ModifyNotAllowed else Ok ()
           else Ok ()) ≠ Raise EnableNotAllowed) as Hrest.
  { destruct (_ && is_grouping_disabled self gb); [done|].
    destruct (negb _); [|done].
    intros [[? _]|(? & ? & _)]%check_group_by_modify_branch; done. }
  destruct (default (allow_enable self) (kw_allow_enable kw)); simpl.
  - split; [done|]. by intros [? _].
  - destruct (is_grouping_enabled self gb); [done|].
    split; [done|]. by intros [_ ?].
Qed.

Lemma check_group_by_disable self gb kw :
  check_group_by self gb kw = Raise DisableNotAllowed ↔
  default (allow_disable self) (kw_allow_disable kw) = false
  ∧ is_grouping_disabled self gb = true.
Proof.
  unfold check_group_by.
  assert ((if negb (default (allow_modify self) (kw_allow_modify kw))
           then modified ← is_grouping_modified self gb;
                if modified : bool then Raise ModifyNotAllowed else Ok ()
           else Ok ()) ≠ Raise DisableNotAllowed) as Hrest.
  { destruct (negb _); [|done].
    intros [[? _]|(? & ? & ? & _)]%check_group_by_modify_branch; done. }
  destruct (_ && is_grouping_enabled self gb) eqn:Hen.
  - split; [done|]. intros [_ (Hbase & _)%is_grouping_disabled_true].
    apply andb_true_iff in Hen as [_ (Hnone & _)%is_grouping_enabled_true].
    done.
  - destruct (default (allow_disable self) (kw_allow_disable kw)); simpl.
    + split; [done|]. by intros [? _].
    + destruct (is_grouping_disabled self gb); [done|].
      split; [done|]. by intros [_ ?].
Qed.

Lemma check_group_by_modify self gb kw :
  check_group_by self gb kw = Raise ModifyNotAllowed ↔
  default (allow_modify self) (kw_allow_modify kw) = false
  ∧ is_grouping_modified self gb = Ok true.
Proof.
  unfold check_group_by. split.
  - destruct (_ && is_grouping_enabled self gb); [done|].
    destruct (_ && is_grouping_disabled self gb); [done|].
    destruct (default (allow_modify self) (kw_allow_modify kw)); simpl; [done|].
    intros [[_ ?]|(? & _)]%check_group_by_modify_branch; done.
  - intros [-> Hm].
    destruct (is_grouping_modified_exclusive self gb Hm) as [-> ->].
    rewrite !andb_false_r. simpl. by rewrite Hm.
Qed.

(** The check passes exactly when none of the three tests fires and the
    modification test, where it is run, returns. *)
Lemma check_group_by_Ok self gb kw :
  check_group_by self gb kw = Ok () ↔
  (default (allow_enable self) (kw_allow_enable kw) = true
   ∨ is_grouping_enabled self gb = false)
  ∧ (default (allow_disable self) (kw_allow_disable kw) = true
     ∨ is_grouping_disabled self gb = false)
  ∧ (default (allow_modify self) (kw_allow_modify kw) = true
     ∨ is_grouping_modified self gb = Ok false).
Proof.
  unfold check_group_by.
  destruct (default (allow_enable self) (kw_allow_enable kw)),
    (is_grouping_enabled self gb),
    (default (allow_disable self) (kw_allow_disable kw)),
    (is_grouping_disabled self gb),
    (default (allow_modify self) (kw_allow_modify kw)); simpl;
    try destruct (is_grouping_modified self gb) as [[|]|]; simpl;
    (split; [try done; intros _; split_and!; by eauto
            |intros ([?|?] & [?|?] & [?|?]); done]).
Qed.

(** The absent candidate enables, disables and modifies nothing. *)
Lemma is_grouping_enabled_absent self : is_grouping_enabled self GNone = false.
Proof.
  apply not_true_is_false. by intros (_ & m & ?)%is_grouping_enabled_true.
Qed.

Lemma is_grouping_disabled_absent self : is_grouping_disabled self GNone = false.
Proof.
  apply not_true_is_false. by intros (_ & ?)%is_grouping_disabled_true.
Qed.

Lemma check_group_by_absent self kw : check_group_by self GNone kw = Ok ().
Proof.
  apply check_group_by_Ok.
  rewrite is_grouping_enabled_absent, is_grouping_disabled_absent.
  split_and!; by right.
Qed.

(** The candidate that [resolve_group_by] checks and normalises. *)
Lemma resolve_group_by_unfold self gb kw :
  resolve_group_by self gb kw =
    let cand := match gb, group_by self with
                | (GNone | GBool true), Some base => GMapper (MIndex base)
                | (GNone | GBool _), None => GNone
                | _, _ => gb
                end in
    match check_group_by self cand kw with
    | Ok _ => group_by_to_index (columns self) cand
    | Raise e => Raise e
    end.
Proof.
  unfold resolve_group_by, self_group_by.
  destruct gb as [|[|]|m], (group_by self) as [base|]; done.
Qed.

End Resolution.

(** ** The claims of the specification *)

Lemma is_sorted_false a : is_sorted a = false ↔ ¬ non_decreasing a.
Proof.
  rewrite <-is_sorted_non_decreasing. by destruct (is_sorted a).
Qed.

Lemma is_sorted_false_cons x a : is_sorted a = false → is_sorted (x :: a) = false.
Proof.
  intros Ha. apply not_true_is_false. intros [_ ?]%is_sorted_cons. congruence.
Qed.

(** C1: whenever the factorised ids of a normalised label sequence are not
    coherent (an id recurs after a different id appeared, or the ids are
    not non-decreasing), factorisation raises "Groups must be coherent and
    sorted" and returns nothing.  Ids in which an id recurs are never
    non-decreasing, and for the factorised ids of labels none of which is
    missing the two conditions are the same.  The labels ["a","b","a"] are
    such a sequence.  The run-length computation raises the same error on
    every id array in which an id recurs or decreases. *)
Theorem C1_incoherent_groups_fail :
  (∀ (L : Type) `{EqDecision L} `{!IsNa L} `{!IndexFns L} (index labels : Index L) (m : Mapper L),
      mapper_to_index index m = Ok labels →
      recurs (pd_factorize (values labels)).1
      ∨ ¬ non_decreasing (pd_factorize (values labels)).1 →
      get_groups_and_index index (GMapper m) = Raise IncoherentGroups)
  ∧ (∀ (L : Type) `{EqDecision L} `{!IsNa L} (vs : list L),
      (recurs (pd_factorize vs).1 → ¬ non_decreasing (pd_factorize vs).1)
      ∧ (no_missing vs →
         (recurs (pd_factorize vs).1 ↔ ¬ non_decreasing (pd_factorize vs).1)))
  ∧ get_groups_and_index cols3 (GMapper (MArray labels_aba)) = Raise IncoherentGroups
  ∧ (∀ groups : list Z,
      recurs groups ∨ ¬ non_decreasing groups →
      get_group_counts_nb groups = Raise IncoherentGroups).
Proof.
  split_and!.
  - intros L ? ? ? index labels m Hm Hbad.
    rewrite (get_groups_and_index_mapper _ _ _ Hm).
    assert (is_sorted (pd_factorize (values labels)).1 = false) as ->; [|done].
    destruct Hbad as [?|?]; [by apply recurs_not_sorted|by apply is_sorted_false].
  - intros L ? ? vs. rewrite <-is_sorted_false. split; [apply recurs_not_sorted|].
    intros Hvs. split.
    + apply recurs_not_sorted.
    + apply first_appearance_not_sorted;
        [by apply pd_factorize_first_appearance|by apply pd_factorize_nonneg].
  - reflexivity.
  - intros groups Hbad.
    apply get_group_counts_nb_raise, is_sorted_false_cons.
    destruct Hbad as [?|?]; [by apply recurs_not_sorted|by apply is_sorted_false].
Qed.

(** ** What factorisation returns *)

Section Returned.
Context {L : Type} `{EqDecision L} `{!IsNa L} `{!IndexFns L}.
Implicit Types (index labels : Index L) (m : Mapper L) (gb : GroupBy L).

Lemma labels_present_mapper index m labels :
  mapper_to_index index m = Ok labels →
  labels_present index (GMapper m) ↔ no_missing (values labels).
Proof.
  intros Hm. unfold labels_present. simpl. rewrite Hm. simpl. split.
  - intros Hp. by apply Hp.
  - by intros Hp labels' [= <-].
Qed.

Lemma labels_present_no_mapper index gb :
  (∀ m, gb ≠ GMapper m) → labels_present index gb.
Proof.
  intros Hgb labels Hl. destruct gb as [|b|m]; [done..|]. by destruct (Hgb m).
Qed.

(** What factorisation guarantees about the ids it returns: they are
    non-decreasing, the sentinel [-1] or a position of the group index,
    every position of the group index occurs, and an id above [0] follows
    an occurrence of its predecessor.  Without missing labels they are
    exactly the positions of the group index, in order of first
    appearance. *)
Lemma get_groups_and_index_ids index gb groups group_index :
  get_groups_and_index index gb = Ok (groups, group_index) →
  length groups = len index
  ∧ non_decreasing groups
  ∧ (∀ c, c ∈ groups → -1 ≤ c < Z.of_nat (len group_index))
  ∧ (∀ c, 0 ≤ c < Z.of_nat (len group_index) → c ∈ groups)
  ∧ (∀ (i : nat) c, groups !! i = Some c →
       c ≤ 0 ∨ ∃ j : nat, (j < i)%nat ∧ groups !! j = Some (c - 1))
  ∧ (labels_present index gb →
     dense_ids groups (len group_index) ∧ first_appearance_order groups).
Proof.
  intros Hget.
  assert (∀ n, (∀ c, c ∈ np_arange n → -1 ≤ c < Z.of_nat n)
               ∧ (∀ c, 0 ≤ c < Z.of_nat n → c ∈ np_arange n)
               ∧ (∀ (i : nat) c, np_arange n !! i = Some c →
                    c ≤ 0 ∨ ∃ j : nat, (j < i)%nat ∧ np_arange n !! j = Some (c - 1)))
    as Harange.
  { intros n. split_and!.
    - intros c Hc%np_arange_dense. lia.
    - intros c Hc. by apply np_arange_dense.
    - intros i c Hc. destruct (np_arange_first_appearance n i c Hc) as [->|?];
        [by left|by right]. }
  destruct gb as [|b|m].
  - injection Hget as <- <-. destruct (Harange (len index)) as (? & ? & ?).
    split_and!; [apply np_arange_length|apply np_arange_non_decreasing|done..|].
    intros _. split; [apply np_arange_dense|apply np_arange_first_appearance].
  - injection Hget as <- <-. destruct (Harange (len index)) as (? & ? & ?).
    split_and!; [apply np_arange_length|apply np_arange_non_decreasing|done..|].
    intros _. split; [apply np_arange_dense|apply np_arange_first_appearance].
  - destruct (mapper_to_index index m) as [labels|e] eqn:Hm;
      [|simpl in Hget; rewrite Hm in Hget; done].
    rewrite (get_groups_and_index_mapper _ _ _ Hm) in Hget.
    destruct (is_sorted _) eqn:Hs; [|done]. injection Hget as <- <-.
    pose proof Hm as [_ Hlen]%mapper_to_index_Ok.
    split_and!.
    + by rewrite pd_factorize_length.
    + by apply is_sorted_non_decreasing.
    + intros c (i & Hi)%list_elem_of_lookup.
      eapply factorize_from_bound; [apply NoDup_nil_2|done].
    + intros c Hc. apply pd_factorize_codes. by left.
    + apply pd_factorize_predecessor.
    + intros Hp. pose proof (proj1 (labels_present_mapper _ _ _ Hm) Hp) as Hna.
      split; [by apply pd_factorize_dense|by apply pd_factorize_first_appearance].
Qed.

End Returned.







(** C9: once a mapper is expanded and coerced into a label sequence,
    normalisation raises "group_by and index must have the same length"
    exactly when that sequence's length differs from the number of
    columns, and otherwise returns the sequence unchanged. *)
Theorem C9_length_mismatch {L : Type} `{EqDecision L} `{!IndexFns L}
    (index labels : Index L) (m : Mapper L) :
  coerce_mapper index m = Ok labels →
  (group_by_to_index index (GMapper m) = Raise LengthMismatch ↔ len labels ≠ len index)
  ∧ (len labels = len index →
     group_by_to_index index (GMapper m) = Ok (GMapper (MIndex labels))).
Proof.
  intros Hc. simpl. unfold mapper_to_index. rewrite Hc. simpl.
  case_bool_decide as Hlen; simpl.
  - split; [done|]. intros Heq. by destruct Hlen.
  - split; [|done]. split; [done|]. intros Hne. by destruct Hlen.
Qed.

Lemma C9_length_mismatch_witness :
  coerce_mapper multi_cols4 (MLevels (OneLevel (LevelName "asset")))
    = Ok {| values := [["btc"]; ["btc"]; ["eth"]; ["eth"]]%string;
            names := [Some "asset"]%string |}
  ∧ (group_by_to_index multi_cols4 (GMapper (MLevels (OneLevel (LevelName "asset"))))
       = Raise LengthMismatch
     ↔ len {| values := [["btc"]; ["btc"]; ["eth"]; ["eth"]]%string;
              names := [Some "asset"]%string |} ≠ len multi_cols4)
  ∧ (len {| values := [["btc"]; ["btc"]; ["eth"]; ["eth"]]%string;
            names := [Some "asset"]%string |} = len multi_cols4 →
     group_by_to_index multi_cols4 (GMapper (MLevels (OneLevel (LevelName "asset"))))
       = Ok (GMapper (MIndex {| values := [["btc"]; ["btc"]; ["eth"]; ["eth"]]%string;
                                names := [Some "asset"]%string |}))).
Proof.
  split; [reflexivity|].
  apply (C9_length_mismatch multi_cols4).
  reflexivity.
Defined.



(** Without grouping every derived array is the trivial one. *)
Lemma no_grouping_results {L : Type} `{EqDecision L} `{!IsNa L} `{!IndexFns L}
    (self : ColumnGrouper L) (gb : GroupBy L) (kw : Kwargs) :
  resolve_group_by self gb kw = Ok GNone
  ∨ resolve_group_by self gb kw = Ok (GBool false) →
  get_groups_and_columns self gb kw
    = Ok (np_arange (len (columns self)), columns self)
  ∧ get_group_counts self gb kw = Ok (replicate (len (columns self)) 1)
  ∧ get_group_start_idxs self gb kw = Ok (np_arange (len (columns self)))
  ∧ get_group_end_idxs self gb kw = Ok (Z.of_nat <$> seq 1 (len (columns self))).
Proof.
  intros Hres.
  assert (get_group_counts self gb kw = Ok (replicate (len (columns self)) 1)) as Hc.
  { unfold get_group_counts. by destruct Hres as [-> | ->]. }
  unfold get_group_start_idxs, get_group_end_idxs, get_groups_and_columns.
  rewrite Hc. simpl. rewrite start_idxs_ones, end_idxs_ones.
  split_and!; try done. by destruct Hres as [-> | ->].
Qed.

Lemma resolve_group_by_no_grouping {L : Type} `{EqDecision L} `{!IsNa L} `{!IndexFns L}
    (self : ColumnGrouper L) (gb : GroupBy L) (kw : Kwargs) :
  group_by self = None → (∀ m, gb ≠ GMapper m) →
  resolve_group_by self gb kw = Ok GNone.
Proof.
  intros Hbase Hgb. rewrite resolve_group_by_unfold, Hbase.
  destruct gb as [|[|]|m]; [| | |by destruct (Hgb m)]; cbv beta iota zeta;
    by rewrite check_group_by_absent.
Qed.

(** C2: with no grouping (no baseline and a candidate that is absent or a
    boolean, or any request that resolves to no grouping) the group ids
    are the identity [0, 1, ..., C-1], the group index is the column set
    itself, the counts are C ones, the starts are [0..C-1] and the ends
    [1..C]. *)
Theorem C2_no_grouping {L : Type} `{EqDecision L} `{!IsNa L} `{!IndexFns L}
    (self : ColumnGrouper L) (kw : Kwargs) :
  get_groups_and_index (columns self) GNone
    = Ok (np_arange (len (columns self)), columns self)
  ∧ length (np_arange (len (columns self))) = len (columns self)
  ∧ (∀ i : nat, (i < len (columns self))%nat →
       np_arange (len (columns self)) !! i = Some (Z.of_nat i))
  ∧ (∀ gb : GroupBy L,
       (group_by self = None ∧ ∀ m, gb ≠ GMapper m)
       ∨ resolve_group_by self gb kw = Ok GNone
       ∨ resolve_group_by self gb kw = Ok (GBool false) →
       get_groups_and_columns self gb kw
         = Ok (np_arange (len (columns self)), columns self)
       ∧ get_group_counts self gb kw = Ok (replicate (len (columns self)) 1)
       ∧ get_group_start_idxs self gb kw = Ok (np_arange (len (columns self)))
       ∧ get_group_end_idxs self gb kw
           = Ok (Z.of_nat <$> seq 1 (len (columns self)))).
Proof.
  split_and!; [done|apply np_arange_length|apply np_arange_lookup|].
  intros gb [[Hbase Hgb]|Hres]; apply no_grouping_results; [|done].
  left. by apply resolve_group_by_no_grouping.
Qed.



(** C5: the permission check raises "Enabling ...", "Disabling ..." or
    "Changing groups is not allowed" exactly when the corresponding flag
    (the keyword argument, else the grouper's own) is false and the
    corresponding predicate holds of the candidate.  A grouper built
    without baseline and with [allow_enable=False] raises the first on
    every mapper, in the check and in every accessor; built with
    [allow_enable=True] and asked for ["a","a","b"] it returns counts
    [2,1], starts [0,2] and ends [2,3]. *)
Theorem C5_permission_check :
  (∀ (L : Type) `{EqDecision L} `{!IsNa L} `{!IndexFns L}
     (self : ColumnGrouper L) (gb : GroupBy L) (kw : Kwargs),
     (check_group_by self gb kw = Raise EnableNotAllowed ↔
        default (allow_enable self) (kw_allow_enable kw) = false
        ∧ is_grouping_enabled self gb = true)
     ∧ (check_group_by self gb kw = Raise DisableNotAllowed ↔
        default (allow_disable self) (kw_allow_disable kw) = false
        ∧ is_grouping_disabled self gb = true)
     ∧ (check_group_by self gb kw = Raise ModifyNotAllowed ↔
        default (allow_modify self) (kw_allow_modify kw) = false
        ∧ is_grouping_modified self gb = Ok true))
  ∧ (∀ (L : Type) `{EqDecision L} `{!IsNa L} `{!IndexFns L}
       (columns : Index L) (allow_disable allow_modify : bool)
       (self : ColumnGrouper L) (m : Mapper L),
       ColumnGrouper_init columns GNone false allow_disable allow_modify = Ok self →
       check_group_by self (GMapper m) no_kwargs = Raise EnableNotAllowed
       ∧ resolve_group_by self (GMapper m) no_kwargs = Raise EnableNotAllowed
       ∧ get_groups_and_columns self (GMapper m) no_kwargs = Raise EnableNotAllowed
       ∧ get_group_counts self (GMapper m) no_kwargs = Raise EnableNotAllowed
       ∧ get_group_start_idxs self (GMapper m) no_kwargs = Raise EnableNotAllowed
       ∧ get_group_end_idxs self (GMapper m) no_kwargs = Raise EnableNotAllowed)
  ∧ (∀ allow_enable : bool,
       ColumnGrouper_init cols3 GNone allow_enable true true = Ok (grouper3 allow_enable))
  ∧ get_group_counts (grouper3 false) (GMapper (MArray labels_aab)) no_kwargs
      = Raise EnableNotAllowed
  ∧ get_group_counts (grouper3 true) (GMapper (MArray labels_aab)) no_kwargs
      = Ok [2; 1]
  ∧ get_group_start_idxs (grouper3 true) (GMapper (MArray labels_aab)) no_kwargs
      = Ok [0; 2]
  ∧ get_group_end_idxs (grouper3 true) (GMapper (MArray labels_aab)) no_kwargs
      = Ok [2; 3].
Proof.
  split_and!; try reflexivity.
  - intros L ? ? ? self gb kw. split_and!;
      [apply check_group_by_enable|apply check_group_by_disable
      |apply check_group_by_modify].
  - intros L ? ? ? columns ad am self m [= <-].
    assert (check_group_by (mkGrouper columns None false ad am) (GMapper m) no_kwargs
            = Raise EnableNotAllowed) as Hcheck.
    { apply check_group_by_enable. split; [done|].
      apply is_grouping_enabled_true. split; [done|]. by exists m. }
    assert (resolve_group_by (mkGrouper columns None false ad am) (GMapper m) no_kwargs
            = Raise EnableNotAllowed) as Hres.
    { rewrite resolve_group_by_unfold. cbv beta iota zeta. by rewrite Hcheck. }
    unfold get_group_start_idxs, get_group_end_idxs, get_group_counts,
      get_groups_and_columns.
    rewrite Hres. done.
Qed.

(** C6: [resolve_group_by] treats [True] and the absent candidate as the
    stored baseline, turns [False] into no grouping when there is no
    baseline, runs the permission check on the substituted candidate
    first (an error of the check is the result), and only then normalises
    that candidate with [group_by_to_index]. *)
Theorem C6_resolve {L : Type} `{EqDecision L} `{!IsNa L} `{!IndexFns L}
    (self : ColumnGrouper L) (kw : Kwargs) :
  resolve_group_by self (GBool true) kw = resolve_group_by self (self_group_by self) kw
  ∧ resolve_group_by self GNone kw = resolve_group_by self (self_group_by self) kw
  ∧ (group_by self = None → resolve_group_by self (GBool false) kw = Ok GNone)
  ∧ (∀ gb cand : GroupBy L,
       cand = match gb, group_by self with
              | (GNone | GBool true), Some base => GMapper (MIndex base)
              | (GNone | GBool _), None => GNone
              | _, _ => gb
              end →
       (∀ e, check_group_by self cand kw = Raise e →
             resolve_group_by self gb kw = Raise e)
       ∧ (check_group_by self cand kw = Ok () →
          resolve_group_by self gb kw = group_by_to_index (columns self) cand)).
Proof.
  split_and!.
  - rewrite !resolve_group_by_unfold. unfold self_group_by.
    by destruct (group_by self).
  - rewrite !resolve_group_by_unfold. unfold self_group_by.
    by destruct (group_by self).
  - intros Hbase. by apply resolve_group_by_no_grouping.
  - intros gb cand ->. rewrite resolve_group_by_unfold. cbv zeta.
    split; [intros e ->|intros ->]; done.
Qed.

(** C10: for every grouper and whatever its flags or the keyword
    arguments, the absent candidate is not an enabling, not a disabling
    and not a modification, hence not a change, and the permission check
    passes for it. *)
Theorem C10_absent_candidate_unchanged {L : Type} `{EqDecision L} `{!IsNa L} `{!IndexFns L}
    (self : ColumnGrouper L) (kw : Kwargs) :
  is_grouping_enabled self GNone = false
  ∧ is_grouping_disabled self GNone = false
  ∧ is_grouping_modified self GNone = Ok false
  ∧ is_grouping_changed self GNone = Ok false
  ∧ check_group_by self GNone kw = Ok ().
Proof.
  split_and!.
  - apply is_grouping_enabled_absent.
  - apply is_grouping_disabled_absent.
  - done.
  - unfold is_grouping_changed.
    by rewrite is_grouping_enabled_absent, is_grouping_disabled_absent.
  - apply check_group_by_absent.
Qed.

(** ** Further properties *)

Lemma first_appearance_nonneg a (i : nat) x :
  first_appearance_order a → a !! i = Some x → 0 ≤ x.
Proof.
  intros Hfa. revert x. induction i as [i IH] using lt_wf_ind. intros x Hi.
  destruct (Hfa i x Hi) as [->|(j & Hj & Hpred)]; [done|].
  specialize (IH j Hj (x - 1) Hpred). lia.
Qed.

Lemma first_appearance_unit_steps a :
  first_appearance_order a → non_decreasing a → unit_steps a.
Proof.
  intros Hfa Hnd i x y Hi Hsi.
  pose proof (Hnd i (S i) x y ltac:(lia) Hi Hsi).
  pose proof (first_appearance_nonneg a i x Hfa Hi).
  destruct (Hfa (S i) y Hsi) as [->|(j & Hj & Hpred)]; [lia|].
  pose proof (Hnd j i (y - 1) x ltac:(lia) Hpred Hi). lia.
Qed.

Lemma first_appearance_head g a : first_appearance_order (g :: a) → g = 0.
Proof.
  intros Hfa. destruct (Hfa 0%nat g eq_refl) as [?|(j & ? & _)]; [done|lia].
Qed.

(** The run lengths of ids in first-appearance order, read at [k], are
    the number of columns with id [k]. *)
Lemma run_lengths_lookup a (k : nat) :
  first_appearance_order a → non_decreasing a →
  run_lengths a !! k =
    if decide (Z.of_nat k ∈ a) then Some (count_id (Z.of_nat k) a) else None.
Proof.
  intros Hfa Hnd. destruct a as [|g a].
  { by destruct (decide (Z.of_nat k ∈ [])) as [?%elem_of_nil|]. }
  unfold run_lengths.
  pose proof (first_appearance_head g a Hfa) as ->.
  rewrite runs_from_lookup by by apply first_appearance_unit_steps.
  rewrite Z.add_0_l. destruct (decide (Z.of_nat k ∈ 0 :: a)); [|done].
  f_equal. cbn [count_id]. destruct k as [|k].
  - rewrite bool_decide_eq_true_2 by done. lia.
  - rewrite bool_decide_eq_false_2 by lia. lia.
Qed.

Lemma length_lookup_iff {A : Type} (l : list A) (n : nat) :
  (∀ k : nat, is_Some (l !! k) ↔ (k < n)%nat) → length l = n.
Proof.
  intros Hl. destruct (Nat.lt_trichotomy (length l) n) as [Hlt|[?|Hgt]]; [|done|].
  - apply Hl, lookup_lt_is_Some in Hlt. lia.
  - apply lookup_lt_is_Some_2, Hl in Hgt. lia.
Qed.

(** X1: on the ids that factorisation returns for labels none of which
    is missing, the run-length loop returns the run lengths, one count per
    entry of the group index, and the count of group [k] is the
    (positive) number of columns with id [k]. *)
Theorem group_counts_of_groups {L : Type} `{EqDecision L} `{!IsNa L} `{!IndexFns L}
    (index : Index L) (gb : GroupBy L) (groups : list Z) (group_index : Index L) :
  get_groups_and_index index gb = Ok (groups, group_index) →
  labels_present index gb →
  get_group_counts_nb groups = Ok (run_lengths groups)
  ∧ length (run_lengths groups) = len group_index
  ∧ ∀ k : nat, (k < len group_index)%nat →
      run_lengths groups !! k = Some (count_id (Z.of_nat k) groups)
      ∧ 1 ≤ count_id (Z.of_nat k) groups.
Proof.
  intros Hget Hp.
  pose proof (get_groups_and_index_ids _ _ _ _ Hget) as (_ & Hnd & _ & _ & _ & Hd).
  destruct (Hd Hp) as [Hdense Hfa].
  assert (∀ k : nat, Z.of_nat k ∈ groups ↔ (k < len group_index)%nat) as Hin.
  { intros k. rewrite (Hdense (Z.of_nat k)). lia. }
  split_and!.
  - apply get_group_counts_nb_run_lengths. split.
    + apply Forall_forall. intros c Hc. by apply Hdense in Hc as [? _].
    + by apply is_sorted_non_decreasing.
  - apply length_lookup_iff. intros k.
    rewrite run_lengths_lookup, <-Hin by done.
    by destruct (decide (Z.of_nat k ∈ groups)); split.
  - intros k Hk%Hin. rewrite run_lengths_lookup by done.
    rewrite decide_True by done. split; [done|]. by apply count_id_present.
Qed.

Lemma group_counts_of_groups_witness :
  get_groups_and_index cols3 (GMapper (MArray labels_aab))
    = Ok ([0; 0; 1], pd_Index ["a"; "b"]%string)
  ∧ labels_present cols3 (GMapper (MArray labels_aab))
  ∧ get_group_counts_nb [0; 0; 1] = Ok (run_lengths [0; 0; 1])
  ∧ length (run_lengths [0; 0; 1]) = len (pd_Index ["a"; "b"]%string)
  ∧ ∀ k : nat, (k < len (pd_Index ["a"; "b"]%string))%nat →
      run_lengths [0; 0; 1] !! k = Some (count_id (Z.of_nat k) [0; 0; 1])
      ∧ 1 ≤ count_id (Z.of_nat k) [0; 0; 1].
Proof.
  assert (labels_present cols3 (GMapper (MArray labels_aab))) as Hp.
  { intros labels Hl. injection Hl as <-. repeat constructor. }
  split; [reflexivity|]. split; [exact Hp|].
  apply (group_counts_of_groups cols3 (GMapper (MArray labels_aab)) [0; 0; 1]
           (pd_Index ["a"; "b"]%string)); [reflexivity|exact Hp].
Defined.

(** X2: when the normalised candidate and a baseline of the right length
    are both coherent and hold no missing label, the modification check
    returns, and it answers [True] exactly when the two label sequences
    induce different partitions of the columns. *)
Theorem modification_is_partition_change {L : Type} `{EqDecision L} `{!IsNa L} `{!IndexFns L}
    (self : ColumnGrouper L) (gb : GroupBy L) (cand base : Index L) :
  group_by_to_index (columns self) gb = Ok (GMapper (MIndex cand)) →
  group_by self = Some base → len base = len (columns self) →
  no_missing (values cand) → no_missing (values base) →
  coherent_labels (values cand) → coherent_labels (values base) →
  (is_grouping_modified self gb = Ok true
   ∨ is_grouping_modified self gb = Ok false)
  ∧ (is_grouping_modified self gb = Ok true ↔
     ¬ same_partition (values cand) (values base))
  ∧ (is_grouping_modified self gb = Ok false ↔
     same_partition (values cand) (values base)).
Proof.
  intros Hgb Hbase Hlen Hnc Hnb Hc Hb.
  destruct (is_grouping_modified_coherent self gb cand base Hgb Hbase Hlen
              Hnc Hnb Hc Hb) as [Hsame Hdiff].
  assert (same_partition (values cand) (values base)
          ∨ ¬ same_partition (values cand) (values base)) as Hdec.
  { rewrite <-(pd_factorize_same_partition _ _ Hnc Hnb).
    destruct (decide ((pd_factorize (values cand)).1 = (pd_factorize (values base)).1));
      [by left|by right]. }
  split_and!.
  - destruct Hdec as [?|?]; [right|left]; auto.
  - split; [|done]. intros Hm Hp. rewrite (Hsame Hp) in Hm. done.
  - split; [|done]. intros Hm. destruct Hdec as [?|Hp]; [done|].
    rewrite (Hdiff Hp) in Hm. done.
Qed.

Lemma modification_is_partition_change_witness :
  group_by_to_index (columns (grouper_aab true)) (GMapper (MArray labels_abb))
    = Ok (GMapper (MIndex (pd_Index labels_abb)))
  ∧ (is_grouping_modified (grouper_aab true) (GMapper (MArray labels_abb)) = Ok true
     ∨ is_grouping_modified (grouper_aab true) (GMapper (MArray labels_abb)) = Ok false)
  ∧ (is_grouping_modified (grouper_aab true) (GMapper (MArray labels_abb)) = Ok true ↔
     ¬ same_partition (values (pd_Index labels_abb)) (values (pd_Index labels_aab)))
  ∧ (is_grouping_modified (grouper_aab true) (GMapper (MArray labels_abb)) = Ok false ↔
     same_partition (values (pd_Index labels_abb)) (values (pd_Index labels_aab))).
Proof.
  split; [reflexivity|].
  apply (modification_is_partition_change (grouper_aab true)
           (GMapper (MArray labels_abb)) (pd_Index labels_abb) (pd_Index labels_aab)).
  - reflexivity.
  - reflexivity.
  - reflexivity.
  - repeat constructor.
  - repeat constructor.
  - apply is_sorted_coherent_labels; [repeat constructor|reflexivity].
  - apply is_sorted_coherent_labels; [repeat constructor|reflexivity].
Defined.

(** X3: the run-length loop returns exactly when the ids, preceded by the
    initial [prev_group = -1], are non-decreasing; otherwise it raises
    "Groups must be coherent and sorted", and it raises nothing else. *)
Theorem get_group_counts_nb_returns (groups : list Z) :
  ((∃ counts, get_group_counts_nb groups = Ok counts) ↔
     non_decreasing (-1 :: groups))
  ∧ (get_group_counts_nb groups = Raise IncoherentGroups ↔
     ¬ non_decreasing (-1 :: groups))
  ∧ ∀ e, get_group_counts_nb groups = Raise e → e = IncoherentGroups.
Proof.
  rewrite <-is_sorted_non_decreasing.
  destruct (is_sorted (-1 :: groups)) eqn:Hs.
  - destruct (get_group_counts_nb_ok groups Hs) as (counts & Hc & _).
    rewrite Hc. split_and!; [split; eauto|split; [done|by intros []]|done].
  - rewrite (get_group_counts_nb_raise groups Hs).
    split_and!; [split; [by intros [? ?]|done]|split; [by intros _ ?|done]|].
    by intros e [= <-].
Qed.

(** ** Boundaries as slices of the id array *)

Lemma count_below_nonneg c a : 0 ≤ count_below c a.
Proof. induction a as [|x a IH]; simpl; [done|]. case_bool_decide; lia. Qed.

Lemma count_id_nonneg c a : 0 ≤ count_id c a.
Proof. induction a as [|x a IH]; simpl; [done|]. case_bool_decide; lia. Qed.

Lemma count_below_length c a : count_below c a ≤ Z.of_nat (length a).
Proof. induction a as [|x a IH]; simpl; [done|]. case_bool_decide; lia. Qed.

Lemma count_below_succ c a :
  count_below (c + 1) a = count_below c a + count_id c a.
Proof.
  induction a as [|x a IH]; simpl; [done|]. rewrite IH.
  repeat case_bool_decide; lia.
Qed.

Lemma count_below_none c a :
  (∀ x, x ∈ a → c ≤ x) → count_below c a = 0.
Proof.
  induction a as [|x a IH]; intros Hc; simpl; [done|].
  rewrite bool_decide_eq_false_2.
  - rewrite IH; [done|]. intros y Hy. apply Hc. by apply elem_of_cons; right.
  - specialize (Hc x ltac:(by apply elem_of_cons; left)). lia.
Qed.

Lemma is_sorted_head_lower x a y :
  is_sorted (x :: a) = true → y ∈ a → x ≤ y.
Proof.
  intros Hs%is_sorted_non_decreasing (i & Hi)%list_elem_of_lookup.
  apply (Hs 0%nat (S i) x y); [lia|done..].
Qed.

(** In a sorted array the ids below [c] are exactly those at the first
    [count_below c] positions. *)
Lemma is_sorted_below c a (i : nat) x :
  is_sorted a = true → a !! i = Some x →
  x < c ↔ Z.of_nat i < count_below c a.
Proof.
  revert i. induction a as [|y a IH]; intros i Hs Hi; [done|].
  pose proof Hs as [_ Htl]%is_sorted_cons. simpl.
  case_bool_decide as Hy.
  - destruct i as [|i]; simpl in Hi.
    + injection Hi as <-. pose proof (count_below_nonneg c a). lia.
    + rewrite (IH i Htl Hi). lia.
  - rewrite count_below_none.
    + assert (y ≤ x); [|lia].
      destruct i as [|i]; simpl in Hi; [injection Hi as <-; lia|].
      eapply is_sorted_head_lower; [done|]. by eapply list_elem_of_lookup_2.
    + intros z Hz. pose proof (is_sorted_head_lower y a z Hs Hz). lia.
Qed.

(** In a sorted array the id [c] occupies exactly the positions from
    [count_below c] up to [count_below c + count_id c]. *)
Lemma is_sorted_slice c a (i : nat) :
  is_sorted a = true →
  a !! i = Some c ↔
  count_below c a ≤ Z.of_nat i < count_below c a + count_id c a.
Proof.
  intros Hs. rewrite <-count_below_succ. split.
  - intros Hi.
    pose proof (is_sorted_below c a i c Hs Hi).
    pose proof (is_sorted_below (c + 1) a i c Hs Hi). lia.
  - intros [Hlo Hhi].
    destruct (a !! i) as [x|] eqn:Hi.
    + pose proof (is_sorted_below c a i x Hs Hi).
      pose proof (is_sorted_below (c + 1) a i x Hs Hi).
      f_equal. lia.
    + apply lookup_ge_None in Hi.
      pose proof (count_below_length (c + 1) a). lia.
Qed.

(** The prefix sums of the run lengths count the columns with a smaller
    id. *)
Lemma run_lengths_prefix_sum a (k : nat) :
  first_appearance_order a → non_decreasing a →
  (k ≤ length (run_lengths a))%nat →
  np_sum (take k (run_lengths a)) = count_below (Z.of_nat k) a.
Proof.
  intros Hfa Hnd. induction k as [|k IH]; intros Hk.
  - rewrite take_0. simpl. symmetry. apply count_below_none.
    intros x (i & Hi)%list_elem_of_lookup.
    by eapply first_appearance_nonneg.
  - destruct (lookup_lt_is_Some_2 (run_lengths a) k) as [c Hc]; [lia|].
    rewrite (take_S_r _ _ _ Hc), np_sum_app, IH by lia. simpl.
    rewrite run_lengths_lookup in Hc by done.
    destruct (decide (Z.of_nat k ∈ a)); [|done]. injection Hc as <-.
    replace (Z.of_nat (S k)) with (Z.of_nat k + 1) by lia.
    rewrite count_below_succ. lia.
Qed.

Lemma get_groups_and_index_coherent_ids {L : Type} `{EqDecision L} `{!IsNa L} `{!IndexFns L}
    (index : Index L) (gb : GroupBy L) (groups : list Z) (group_index : Index L) :
  get_groups_and_index index gb = Ok (groups, group_index) →
  labels_present index gb → coherent groups.
Proof.
  intros (_ & Hnd & _ & _ & _ & Hd)%get_groups_and_index_ids Hp.
  destruct (Hd Hp) as [Hdense _]. split.
  - apply Forall_forall. intros c Hc. by apply Hdense in Hc as [? _].
  - by apply is_sorted_non_decreasing.
Qed.

Lemma run_lengths_length_groups {L : Type} `{EqDecision L} `{!IsNa L} `{!IndexFns L}
    (index : Index L) (gb : GroupBy L) (groups : list Z) (group_index : Index L) :
  get_groups_and_index index gb = Ok (groups, group_index) →
  labels_present index gb →
  length (run_lengths groups) = len group_index.
Proof.
  intros (_ & Hnd & _ & _ & _ & Hd)%get_groups_and_index_ids Hp.
  destruct (Hd Hp) as [Hdense Hfa].
  apply length_lookup_iff. intros k.
  rewrite run_lengths_lookup by done.
  assert (Z.of_nat k ∈ groups ↔ (k < len group_index)%nat) as <-.
  { rewrite (Hdense (Z.of_nat k)). lia. }
  by destruct (decide (Z.of_nat k ∈ groups)); split.
Qed.

(** The offsets of group [k] delimit the columns whose id is [k]. *)
Lemma boundaries_slice {L : Type} `{EqDecision L} `{!IsNa L} `{!IndexFns L}
    (index : Index L) (gb : GroupBy L) (groups : list Z) (group_index : Index L)
    (k : nat) :
  get_groups_and_index index gb = Ok (groups, group_index) →
  labels_present index gb →
  (k < len group_index)%nat →
  start_idxs (run_lengths groups) !! k = Some (count_below (Z.of_nat k) groups)
  ∧ end_idxs (run_lengths groups) !! k
    = Some (count_below (Z.of_nat k) groups + count_id (Z.of_nat k) groups)
  ∧ 1 ≤ count_id (Z.of_nat k) groups
  ∧ ∀ i : nat,
      groups !! i = Some (Z.of_nat k) ↔
      count_below (Z.of_nat k) groups ≤ Z.of_nat i
        < count_below (Z.of_nat k) groups + count_id (Z.of_nat k) groups.
Proof.
  intros Hget Hp Hk.
  pose proof (run_lengths_length_groups _ _ _ _ Hget Hp) as Hlen.
  pose proof Hget as (_ & Hnd & _ & _ & _ & Hd)%get_groups_and_index_ids.
  destruct (Hd Hp) as [Hdense Hfa].
  assert (Z.of_nat k ∈ groups) as Hin by (apply Hdense; lia).
  split_and!.
  - rewrite start_idxs_lookup by lia. f_equal.
    apply run_lengths_prefix_sum; [done..|lia].
  - rewrite end_idxs_lookup by lia. f_equal.
    rewrite run_lengths_prefix_sum by (done || lia).
    replace (Z.of_nat (S k)) with (Z.of_nat k + 1) by lia.
    apply count_below_succ.
  - by apply count_id_present.
  - intros i. apply is_sorted_slice. by apply is_sorted_non_decreasing.
Qed.

(** X4: on the ids that factorisation returns for labels none of which
    is missing, the start and end offsets computed from the run lengths
    delimit the groups: group [k] is
    non-empty, column [i] has id [k] exactly when
    [starts[k] <= i < ends[k]], and the end of a group is the start of the
    next one. *)
Theorem group_boundaries_slice_columns {L : Type} `{EqDecision L} `{!IsNa L} `{!IndexFns L}
    (index : Index L) (gb : GroupBy L) (groups : list Z) (group_index : Index L) :
  get_groups_and_index index gb = Ok (groups, group_index) →
  labels_present index gb →
  ∃ counts : list Z,
    get_group_counts_nb groups = Ok counts
    ∧ length (start_idxs counts) = len group_index
    ∧ length (end_idxs counts) = len group_index
    ∧ ∀ k : nat, (k < len group_index)%nat →
        ∃ s e : Z,
          start_idxs counts !! k = Some s
          ∧ end_idxs counts !! k = Some e
          ∧ s < e
          ∧ (∀ i : nat, groups !! i = Some (Z.of_nat k) ↔ s ≤ Z.of_nat i < e)
          ∧ ((S k < len group_index)%nat → start_idxs counts !! S k = Some e).
Proof.
  intros Hget Hp. exists (run_lengths groups).
  pose proof (run_lengths_length_groups _ _ _ _ Hget Hp) as Hlen.
  split_and!.
  - by eapply get_group_counts_nb_run_lengths, get_groups_and_index_coherent_ids.
  - by rewrite start_idxs_length.
  - by rewrite end_idxs_length.
  - intros k Hk.
    destruct (boundaries_slice _ _ _ _ k Hget Hp Hk) as (Hs & He & Hpos & Hsl).
    eexists _, _. split_and!; [done|done|lia|done|].
    intros Hk'. destruct (boundaries_slice _ _ _ _ (S k) Hget Hp Hk') as (-> & _).
    f_equal. replace (Z.of_nat (S k)) with (Z.of_nat k + 1) by lia.
    apply count_below_succ.
Qed.

Lemma group_boundaries_slice_columns_witness :
  get_groups_and_index cols3 (GMapper (MArray labels_aab))
    = Ok ([0; 0; 1], pd_Index ["a"; "b"]%string)
  ∧ labels_present cols3 (GMapper (MArray labels_aab))
  ∧ ∃ counts : list Z,
      get_group_counts_nb [0; 0; 1] = Ok counts
      ∧ length (start_idxs counts) = len (pd_Index ["a"; "b"]%string)
      ∧ length (end_idxs counts) = len (pd_Index ["a"; "b"]%string)
      ∧ ∀ k : nat, (k < len (pd_Index ["a"; "b"]%string))%nat →
          ∃ s e : Z,
            start_idxs counts !! k = Some s
            ∧ end_idxs counts !! k = Some e
            ∧ s < e
            ∧ (∀ i : nat, [0; 0; 1] !! i = Some (Z.of_nat k) ↔ s ≤ Z.of_nat i < e)
            ∧ ((S k < len (pd_Index ["a"; "b"]%string))%nat →
               start_idxs counts !! S k = Some e).
Proof.
  assert (labels_present cols3 (GMapper (MArray labels_aab))) as Hp.
  { intros labels Hl. injection Hl as <-. repeat constructor. }
  split; [reflexivity|]. split; [exact Hp|].
  apply (group_boundaries_slice_columns cols3 (GMapper (MArray labels_aab))
           [0; 0; 1] (pd_Index ["a"; "b"]%string)); [reflexivity|exact Hp].
Defined.

(** X5: for a mapper none of whose normalised labels is missing, the
    label of group [k] in the returned group index is the normalised
    label of the first column of the group, the column at [starts[k]]. *)
Theorem group_label_at_start {L : Type} `{EqDecision L} `{!IsNa L} `{!IndexFns L}
    (index labels : Index L) (m : Mapper L) (groups : list Z) (group_index : Index L) :
  mapper_to_index index m = Ok labels →
  no_missing (values labels) →
  get_groups_and_index index (GMapper m) = Ok (groups, group_index) →
  ∃ counts : list Z,
    get_group_counts_nb groups = Ok counts
    ∧ ∀ k : nat, (k < len group_index)%nat →
        ∃ (s : nat) (label : L),
          start_idxs counts !! k = Some (Z.of_nat s)
          ∧ groups !! s = Some (Z.of_nat k)
          ∧ values labels !! s = Some label
          ∧ values group_index !! k = Some label.
Proof.
  intros Hm Hna Hget. exists (run_lengths groups).
  pose proof (proj2 (labels_present_mapper _ _ _ Hm) Hna) as Hp. split.
  { by eapply get_group_counts_nb_run_lengths, get_groups_and_index_coherent_ids. }
  intros k Hk.
  destruct (boundaries_slice _ _ _ _ k Hget Hp Hk) as (Hs & _ & Hpos & Hsl).
  pose proof (count_below_nonneg (Z.of_nat k) groups) as Hnn.
  set (s := Z.to_nat (count_below (Z.of_nat k) groups)).
  assert (groups !! s = Some (Z.of_nat k)) as Hgs by (apply Hsl; lia).
  rewrite (get_groups_and_index_mapper _ _ _ Hm) in Hget.
  destruct (is_sorted _); [|done]. injection Hget as <- <-. simpl.
  destruct (lookup_lt_is_Some_2 (values labels) s) as [label Hlabel].
  { rewrite <-pd_factorize_length. by eapply lookup_lt_Some. }
  unfold no_missing in Hna. rewrite Forall_lookup in Hna.
  destruct (pd_factorize_lookup _ _ _ Hlabel) as (k' & Hk' & Hu); [eauto|].
  rewrite Hgs in Hk'. injection Hk' as Hkk%Nat2Z.inj. subst k'.
  exists s, label. split_and!; [|done..].
  rewrite Hs. f_equal. lia.
Qed.

Lemma group_label_at_start_witness :
  mapper_to_index cols3 (MArray labels_aab) = Ok (pd_Index labels_aab)
  ∧ no_missing (values (pd_Index labels_aab))
  ∧ get_groups_and_index cols3 (GMapper (MArray labels_aab))
    = Ok ([0; 0; 1], pd_Index ["a"; "b"]%string)
  ∧ ∃ counts : list Z,
      get_group_counts_nb [0; 0; 1] = Ok counts
      ∧ ∀ k : nat, (k < len (pd_Index ["a"; "b"]%string))%nat →
          ∃ (s : nat) (label : string),
            start_idxs counts !! k = Some (Z.of_nat s)
            ∧ [0; 0; 1] !! s = Some (Z.of_nat k)
            ∧ values (pd_Index labels_aab) !! s = Some label
            ∧ values (pd_Index ["a"; "b"]%string) !! k = Some label.
Proof.
  split; [reflexivity|]. split; [repeat constructor|]. split; [reflexivity|].
  apply (group_label_at_start cols3 (pd_Index labels_aab) (MArray labels_aab)
           [0; 0; 1] (pd_Index ["a"; "b"]%string));
    [reflexivity|repeat constructor|reflexivity].
Defined.

(** ** Construction and the default request *)

Section Defaults.
Context {L : Type} `{EqDecision L} `{!IsNa L} `{!IndexFns L}.
Implicit Types (index labels : Index L) (m : Mapper L) (gb : GroupBy L).
Implicit Types (self : ColumnGrouper L) (kw : Kwargs).
Local Arguments is_grouping_modified : simpl never.
Local Arguments is_grouping_enabled : simpl never.
Local Arguments is_grouping_disabled : simpl never.
Local Arguments get_groups_and_index : simpl never.
Local Arguments check_group_by : simpl never.

Lemma is_grouping_modified_baseline self base :
  group_by self = Some base → len base = len (columns self) →
  is_grouping_modified self (GMapper (MIndex base)) = Ok false.
Proof.
  intros Hbase Hlen. unfold is_grouping_modified. simpl.
  rewrite (mapper_to_index_MIndex _ _ Hlen). simpl. rewrite Hbase.
  unfold Index_equals. by rewrite array_equivalent_refl.
Qed.

Lemma check_group_by_baseline self kw :
  well_formed self → check_group_by self (self_group_by self) kw = Ok ().
Proof.
  intros Hwf. unfold self_group_by.
  destruct (group_by self) as [base|] eqn:Hbase; [|apply check_group_by_absent].
  apply check_group_by_Ok. split_and!; right.
  - apply not_true_is_false. intros [? _]%is_grouping_enabled_true. congruence.
  - apply not_true_is_false. by intros [_ ?]%is_grouping_disabled_true.
  - apply is_grouping_modified_baseline; auto.
Qed.

Lemma resolve_group_by_default self gb kw :
  well_formed self → gb = GNone ∨ gb = GBool true →
  resolve_group_by self gb kw = Ok (self_group_by self).
Proof.
  intros Hwf Hgb. pose proof (check_group_by_baseline self kw Hwf) as Hcheck.
  rewrite resolve_group_by_unfold. unfold self_group_by in *.
  destruct (group_by self) as [base|] eqn:Hbase.
  - destruct Hgb as [-> | ->]; cbv beta iota zeta; rewrite Hcheck; simpl;
      by rewrite (mapper_to_index_MIndex _ _ (Hwf base Hbase)).
  - destruct Hgb as [-> | ->]; cbv beta iota zeta; by rewrite Hcheck.
Qed.

Lemma ColumnGrouper_init_well_formed index gb ae ad am self :
  ColumnGrouper_init index gb ae ad am = Ok self → well_formed self.
Proof.
  destruct gb as [|b|m]; simpl.
  - by intros [= <-] base.
  - by intros [= <-] base.
  - destruct (mapper_to_index index m) as [labels|] eqn:Hm; simpl; [|done].
    intros [= <-] base [= <-]. simpl. by apply mapper_to_index_Ok in Hm as [_ ?].
Qed.

Lemma get_groups_and_index_normalised index m labels :
  mapper_to_index index m = Ok labels →
  get_groups_and_index index (GMapper (MIndex labels))
  = get_groups_and_index index (GMapper m).
Proof.
  intros Hm.
  rewrite (get_groups_and_index_mapper _ _ _ Hm).
  by rewrite (get_groups_and_index_mapper _ _ _ (mapper_to_index_idemp _ _ _ Hm)).
Qed.

End Defaults.

(** X6: a grouper that [__init__] returned keeps the columns and flags it
    was given; its baseline is [None] for [None] and booleans and the
    normalised mapper otherwise (coherence is not checked here).  Whatever
    the flags and keyword arguments, the default request ([None] or
    [True]) resolves to that baseline without a permission error, and the
    default groups are those of the [group_by] it was built with. *)
Theorem ColumnGrouper_default_request {L : Type} `{EqDecision L} `{!IsNa L} `{!IndexFns L}
    (columns0 : Index L) (gb : GroupBy L) (ae ad am : bool) (self : ColumnGrouper L) :
  ColumnGrouper_init columns0 gb ae ad am = Ok self →
  columns self = columns0
  ∧ (allow_enable self, allow_disable self, allow_modify self) = (ae, ad, am)
  ∧ match gb with
    | GMapper m => ∃ labels, mapper_to_index columns0 m = Ok labels
                             ∧ group_by self = Some labels
    | _ => group_by self = None
    end
  ∧ ∀ kw : Kwargs,
      resolve_group_by self GNone kw = Ok (self_group_by self)
      ∧ resolve_group_by self (GBool true) kw = Ok (self_group_by self)
      ∧ get_groups_and_columns self GNone kw = get_groups_and_index columns0 gb.
Proof.
  intros Hinit.
  pose proof (ColumnGrouper_init_well_formed _ _ _ _ _ _ Hinit) as Hwf.
  assert (columns self = columns0
          ∧ (allow_enable self, allow_disable self, allow_modify self) = (ae, ad, am)
          ∧ match gb with
            | GMapper m => ∃ labels, mapper_to_index columns0 m = Ok labels
                                     ∧ group_by self = Some labels
            | _ => group_by self = None
            end) as (Hcols & Hflags & Hbase).
  { destruct gb as [|b|m]; simpl in Hinit.
    - by injection Hinit as <-.
    - by injection Hinit as <-.
    - destruct (mapper_to_index columns0 m) as [labels|] eqn:Hm; [|done].
      simpl in Hinit. injection Hinit as <-. split_and!; [done..|]. by exists labels. }
  split_and!; [done..|]. intros kw.
  split_and!; [by apply resolve_group_by_default; auto..|].
  unfold get_groups_and_columns.
  rewrite resolve_group_by_default by auto. simpl.
  unfold self_group_by. rewrite Hcols.
  destruct gb as [|b|m].
  - by rewrite Hbase.
  - by rewrite Hbase.
  - destruct Hbase as (labels & Hm & ->).
    by apply get_groups_and_index_normalised.
Qed.

Lemma ColumnGrouper_default_request_witness :
  ColumnGrouper_init cols3 (GMapper (MArray labels_aba)) false false false
    = Ok (mkGrouper cols3 (Some (pd_Index labels_aba)) false false false)
  ∧ ∀ kw : Kwargs,
      resolve_group_by (mkGrouper cols3 (Some (pd_Index labels_aba)) false false false)
        GNone kw = Ok (GMapper (MIndex (pd_Index labels_aba)))
      ∧ get_groups_and_columns
          (mkGrouper cols3 (Some (pd_Index labels_aba)) false false false) GNone kw
        = Raise IncoherentGroups.
Proof.
  split; [reflexivity|]. intros kw.
  destruct (ColumnGrouper_default_request cols3 (GMapper (MArray labels_aba))
              false false false
              (mkGrouper cols3 (Some (pd_Index labels_aba)) false false false)
              eq_refl) as (_ & _ & _ & Hreq).
  destruct (Hreq kw) as (Hres & _ & Hget). split; [exact Hres|exact Hget].
Defined.

(** ** Kinds of change and of failure *)

Section Kinds.
Context {L : Type} `{EqDecision L} `{!IsNa L} `{!IndexFns L}.
Implicit Types (self : ColumnGrouper L) (gb : GroupBy L) (kw : Kwargs).
Local Arguments is_grouping_modified : simpl never.
Local Arguments is_grouping_enabled : simpl never.
Local Arguments is_grouping_disabled : simpl never.

(** X7: with all three permissions granted (by keyword argument, else by
    the grouper) the check accepts every candidate.  With modification
    granted it can only raise the enable or the disable error.  Any other
    failure of the check is the modification test failing to factorise,
    with modification prohibited: the length, level or coherence error of
    the candidate or the baseline. *)
Theorem check_group_by_error_kinds self gb kw :
  (default (allow_enable self) (kw_allow_enable kw) = true →
   default (allow_disable self) (kw_allow_disable kw) = true →
   default (allow_modify self) (kw_allow_modify kw) = true →
   check_group_by self gb kw = Ok ())
  ∧ (default (allow_modify self) (kw_allow_modify kw) = true →
     ∀ e, check_group_by self gb kw = Raise e →
          e = EnableNotAllowed ∨ e = DisableNotAllowed)
  ∧ (∀ e, check_group_by self gb kw = Raise e →
          e ≠ EnableNotAllowed → e ≠ DisableNotAllowed → e ≠ ModifyNotAllowed →
          default (allow_modify self) (kw_allow_modify kw) = false
          ∧ is_grouping_modified self gb = Raise e
          ∧ (e = LengthMismatch ∨ e = LevelError ∨ e = IncoherentGroups)).
Proof.
  split_and!.
  - intros Hae Had Ham. apply check_group_by_Ok. auto.
  - intros Ham e. unfold check_group_by. rewrite Ham. simpl.
    destruct (_ && is_grouping_enabled self gb); [intros [= <-]; by left|].
    destruct (_ && is_grouping_disabled self gb); [intros [= <-]; by right|].
    done.
  - intros e. unfold check_group_by.
    destruct (_ && is_grouping_enabled self gb); [by intros [= <-]|].
    destruct (_ && is_grouping_disabled self gb); [by intros [= <-]|].
    destruct (default (allow_modify self) (kw_allow_modify kw)); simpl; [done|].
    intros [[-> _]|(_ & _ & _ & Hm)]%check_group_by_modify_branch; [done|].
    intros _ _ _. split_and!; [done..|]. by eapply is_grouping_modified_Raise.
Qed.

(** X8: enabling, disabling and modifying exclude one another, and
    [is_grouping_changed] answers [True] exactly when one of the three
    holds, [False] exactly when none does. *)
Theorem grouping_change_kinds self gb :
  ¬ (is_grouping_enabled self gb = true ∧ is_grouping_disabled self gb = true)
  ∧ (is_grouping_modified self gb = Ok true →
     is_grouping_enabled self gb = false ∧ is_grouping_disabled self gb = false)
  ∧ (is_grouping_changed self gb = Ok true ↔
     is_grouping_enabled self gb = true
     ∨ is_grouping_disabled self gb = true
     ∨ is_grouping_modified self gb = Ok true)
  ∧ (is_grouping_changed self gb = Ok false ↔
     is_grouping_enabled self gb = false
     ∧ is_grouping_disabled self gb = false
     ∧ is_grouping_modified self gb = Ok false).
Proof.
  split_and!.
  - intros [[? _]%is_grouping_enabled_true [? _]%is_grouping_disabled_true]. done.
  - apply is_grouping_modified_exclusive.
  - unfold is_grouping_changed. split.
    + destruct (is_grouping_enabled self gb); [by left|].
      destruct (is_grouping_disabled self gb); [by right; left|]. by right; right.
    + intros [->|[Hd|Hm]]; [done| |].
      * rewrite Hd. by destruct (is_grouping_enabled self gb).
      * by destruct (is_grouping_modified_exclusive self gb Hm) as [-> ->].
  - unfold is_grouping_changed. split.
    + destruct (is_grouping_enabled self gb); [done|].
      by destruct (is_grouping_disabled self gb).
    + by intros (-> & -> & ->).
Qed.

End Kinds.

(** ** What the accessors agree on *)

Lemma count_id_seq (k s n : nat) :
  count_id (Z.of_nat k) (Z.of_nat <$> seq s n)
  = if decide (s ≤ k < s + n)%nat then 1 else 0.
Proof.
  revert s. induction n as [|n IH]; intros s; simpl.
  { by rewrite decide_False by lia. }
  rewrite IH. repeat case_bool_decide; repeat case_decide; lia.
Qed.

Lemma np_sum_ones (n : nat) : np_sum (replicate n 1) = Z.of_nat n.
Proof. induction n as [|n IH]; simpl; [done|]. rewrite IH. lia. Qed.

Section Accessors.
Context {L : Type} `{EqDecision L} `{!IsNa L} `{!IndexFns L}.
Implicit Types (self : ColumnGrouper L) (gb : GroupBy L) (kw : Kwargs).
Local Arguments get_groups_and_index : simpl never.
Local Arguments check_group_by : simpl never.
Local Arguments get_group_counts_nb : simpl never.

Lemma resolve_group_by_shape self gb kw r :
  resolve_group_by self gb kw = Ok r →
  (r = GNone ∧ group_by self = None ∧ ∀ m, gb ≠ GMapper m)
  ∨ (r = GBool false ∧ gb = GBool false ∧ group_by self ≠ None
     ∧ default (allow_disable self) (kw_allow_disable kw) = true)
  ∨ (∃ labels, r = GMapper (MIndex labels) ∧ len labels = len (columns self)
     ∧ (default (allow_enable self) (kw_allow_enable kw) = true
        ∨ group_by self ≠ None)).
Proof.
  rewrite resolve_group_by_unfold. cbv zeta.
  set (cand := match gb, group_by self with
               | (GNone | GBool true), Some base => GMapper (MIndex base)
               | (GNone | GBool _), None => GNone
               | _, _ => gb
               end).
  destruct (check_group_by self cand kw) as [[]|e] eqn:Hcheck; [|done].
  apply check_group_by_Ok in Hcheck as (Hen & Hdis & _).
  intros Hr. destruct cand as [|b|m] eqn:Hcand; simpl in Hr.
  - injection Hr as <-. left. split; [done|].
    subst cand. destruct gb as [|[|]|m'], (group_by self); simplify_eq; by split.
  - injection Hr as <-. right; left.
    subst cand. destruct gb as [|[|]|m'], (group_by self) eqn:Hbase; simplify_eq.
    split_and!; [done..|].
    destruct Hdis as [?|Hdis]; [done|].
    apply not_true_iff_false in Hdis. destruct Hdis.
    apply is_grouping_disabled_true. by rewrite Hbase.
  - destruct (mapper_to_index (columns self) m) as [labels|] eqn:Hm; [|done].
    simpl in Hr. injection Hr as <-. right; right. exists labels.
    apply mapper_to_index_Ok in Hm as [_ Hlen]. split_and!; [done..|].
    destruct (group_by self) as [base|] eqn:Hbase; [by right|]. left.
    destruct Hen as [?|Hen]; [done|].
    apply not_true_iff_false in Hen. destruct Hen.
    apply is_grouping_enabled_true. split; [done|]. by exists m.
Qed.

Lemma check_group_by_normalised self m labels kw :
  mapper_to_index (columns self) m = Ok labels →
  check_group_by self (GMapper (MIndex labels)) kw = check_group_by self (GMapper m) kw.
Proof.
  intros Hm. unfold check_group_by.
  assert (is_grouping_modified self (GMapper (MIndex labels))
          = is_grouping_modified self (GMapper m)) as ->; [|done].
  unfold is_grouping_modified. simpl.
  by rewrite Hm, (mapper_to_index_idemp _ _ _ Hm).
Qed.

(** X9: what [resolve_group_by] returns is never [True] and never a raw
    mapper: it is [None] (no baseline, no mapper requested), [False] (a
    baseline disabled by request, which must be permitted), or an index
    with one label per column (which needs a baseline or the permission
    to enable).  Resolving the returned value again returns it
    unchanged. *)
Theorem resolve_group_by_result self gb kw r :
  resolve_group_by self gb kw = Ok r →
  ((r = GNone ∧ group_by self = None ∧ ∀ m, gb ≠ GMapper m)
   ∨ (r = GBool false ∧ gb = GBool false ∧ group_by self ≠ None
      ∧ default (allow_disable self) (kw_allow_disable kw) = true)
   ∨ (∃ labels, r = GMapper (MIndex labels) ∧ len labels = len (columns self)
      ∧ (default (allow_enable self) (kw_allow_enable kw) = true
         ∨ group_by self ≠ None)))
  ∧ resolve_group_by self r kw = Ok r.
Proof.
  intros Hres. split; [by apply resolve_group_by_shape|].
  pose proof Hres as Hshape%resolve_group_by_shape.
  destruct Hshape as [(-> & Hbase & _)|[(-> & -> & _)|(labels & -> & Hlen & _)]].
  - by apply resolve_group_by_no_grouping.
  - done.
  - assert (check_group_by self (GMapper (MIndex labels)) kw = Ok () →
            resolve_group_by self (GMapper (MIndex labels)) kw
            = Ok (GMapper (MIndex labels))) as Hgoal.
    { intros Hc. rewrite resolve_group_by_unfold.
      destruct (group_by self); cbv beta iota zeta; rewrite Hc; simpl;
        by rewrite (mapper_to_index_MIndex _ _ Hlen). }
    apply Hgoal. clear Hgoal.
    rewrite resolve_group_by_unfold in Hres.
    destruct gb as [|[|]|m], (group_by self) as [base|] eqn:Hbase;
      cbv beta iota zeta in Hres.
    + destruct (check_group_by self (GMapper (MIndex base)) kw) as [[]|] eqn:Hcheck;
        [|done].
      simpl in Hres. destruct (mapper_to_index _ _) eqn:Hm; [|done].
      simpl in Hres. apply mapper_to_index_Ok in Hm as [[= <-] _].
      by simplify_eq/=.
    + destruct (check_group_by self GNone kw) as [[]|]; done.
    + destruct (check_group_by self (GMapper (MIndex base)) kw) as [[]|] eqn:Hcheck;
        [|done].
      simpl in Hres. destruct (mapper_to_index _ _) eqn:Hm; [|done].
      simpl in Hres. apply mapper_to_index_Ok in Hm as [[= <-] _].
      by simplify_eq/=.
    + destruct (check_group_by self GNone kw) as [[]|]; done.
    + destruct (check_group_by self (GBool false) kw) as [[]|]; done.
    + destruct (check_group_by self GNone kw) as [[]|]; done.
    + destruct (check_group_by self (GMapper m) kw) as [[]|] eqn:Hcheck; [|done].
      simpl in Hres. destruct (mapper_to_index _ _) eqn:Hm; [|done].
      simpl in Hres. injection Hres as <-.
      by rewrite (check_group_by_normalised _ _ _ _ Hm).
    + destruct (check_group_by self (GMapper m) kw) as [[]|] eqn:Hcheck; [|done].
      simpl in Hres. destruct (mapper_to_index _ _) eqn:Hm; [|done].
      simpl in Hres. injection Hres as <-.
      by rewrite (check_group_by_normalised _ _ _ _ Hm).
Qed.

(** X10: [get_group_counts] fails exactly when [get_groups_and_columns]
    fails, with the same error (the re-check inside the loop never fires
    here).  When they return, the counts add up to the number of columns
    and the start and end accessors return the prefix sums of these
    counts; when moreover no label of the resolved specification is
    missing, there is one count per entry of the grouped columns and
    count [k] is the number of columns with id [k]. *)
Theorem group_counts_consistent self gb kw :
  (∀ e, get_groups_and_columns self gb kw = Raise e →
        get_group_counts self gb kw = Raise e)
  ∧ (∀ groups group_index,
       get_groups_and_columns self gb kw = Ok (groups, group_index) →
       ∃ counts,
         get_group_counts self gb kw = Ok counts
         ∧ get_group_start_idxs self gb kw = Ok (start_idxs counts)
         ∧ get_group_end_idxs self gb kw = Ok (end_idxs counts)
         ∧ np_sum counts = Z.of_nat (len (columns self))
         ∧ ((∀ r, resolve_group_by self gb kw = Ok r →
                  labels_present (columns self) r) →
            length counts = len group_index
            ∧ ∀ k : nat, (k < len group_index)%nat →
                counts !! k = Some (count_id (Z.of_nat k) groups))).
Proof.
  unfold get_group_start_idxs, get_group_end_idxs, get_group_counts, get_groups,
    get_groups_and_columns.
  destruct (resolve_group_by self gb kw) as [r|e0] eqn:Hres; simpl;
    [|split; [by intros e [= <-]|intros ? ? [=]]].
  assert (∀ b, r ≠ GBool true ∧ r ≠ GMapper (MArray b)
               ∧ ∀ sel, r ≠ GMapper (MLevels sel)) as Hr.
  { intros b. apply resolve_group_by_shape in Hres
      as [(-> & _)|[(-> & _)|(labels & -> & _)]]; by split_and!. }
  assert (∀ groups group_index,
    get_groups_and_index (columns self) r = Ok (groups, group_index) →
    (r = GNone ∨ r = GBool false) →
    ∃ counts, Ok (replicate (len (columns self)) 1) = Ok counts
      ∧ (Ok (replicate (len (columns self)) 1) ≫= λ c, Ok (start_idxs c))
        = Ok (start_idxs counts)
      ∧ (Ok (replicate (len (columns self)) 1) ≫= λ c, Ok (end_idxs c))
        = Ok (end_idxs counts)
      ∧ np_sum counts = Z.of_nat (len (columns self))
      ∧ ((∀ r0, Ok r = Ok r0 → labels_present (columns self) r0) →
         length counts = len group_index
         ∧ ∀ k : nat, (k < len group_index)%nat →
             counts !! k = Some (count_id (Z.of_nat k) groups))) as Hnone.
  { intros groups group_index Hget Hcase.
    assert (groups = np_arange (len (columns self)) ∧ group_index = columns self)
      as [-> ->] by (destruct Hcase as [-> | ->]; by injection Hget as <- <-).
    eexists. split_and!; [done|done|done|apply np_sum_ones|].
    intros _. split; [apply length_replicate|].
    intros k Hk. rewrite lookup_replicate_2 by done. f_equal.
    unfold np_arange. rewrite count_id_seq. by rewrite decide_True by lia. }
  destruct r as [|[|]|[sel|labels|vs]].
  - split; [done|]. intros groups group_index Hget. apply Hnone; auto.
  - by destruct (Hr []) as (? & _).
  - split; [done|]. intros groups group_index Hget. apply Hnone; auto.
  - by destruct (Hr []) as (_ & _ & Hsel); destruct (Hsel sel).
  - simpl. split.
    + intros e ->. done.
    + intros groups group_index Hget. rewrite Hget. simpl.
      pose proof Hget as (Hlen & Hnd & Hup & _ & _ & Hd)%get_groups_and_index_ids.
      destruct (get_group_counts_nb_ok groups) as (c & Hc & Hsum & _).
      { apply is_sorted_cons. split; [|by apply is_sorted_non_decreasing].
        intros y Hy. destruct groups as [|g groups]; [done|].
        injection Hy as ->.
        assert (-1 ≤ y < Z.of_nat (len group_index)); [|lia].
        apply Hup. by apply elem_of_cons; left. }
      rewrite Hc. simpl. exists c.
      split_and!; [done|done|done|by rewrite Hsum, Hlen|].
      intros Hp. specialize (Hp _ eq_refl).
      pose proof (get_groups_and_index_coherent_ids _ _ _ _ Hget Hp) as Hco.
      rewrite (get_group_counts_nb_run_lengths _ Hco) in Hc. injection Hc as <-.
      destruct (Hd Hp) as [Hdense Hfa].
      split; [by eapply run_lengths_length_groups|].
      intros k Hk. rewrite run_lengths_lookup by done.
      rewrite decide_True; [done|]. apply Hdense. lia.
  - by destruct (Hr vs) as (_ & Hvs & _).
Qed.

End Accessors.

(** ** Ids depend on the partition only *)

Section Partition.
Context {L : Type} `{EqDecision L} `{!IsNa L} `{!IndexFns L}.
Implicit Types (index labels : Index L) (m : Mapper L) (vs u : list L).

Lemma index_of_not_in (x : L) u : x ∉ u → index_of x u = None.
Proof.
  intros Hx. destruct (index_of x u) as [k|] eqn:Hk; [|done].
  destruct Hx. apply index_of_Some in Hk. by eapply list_elem_of_lookup_2.
Qed.

(** Pairwise distinct labels none of which is missing are coded by their
    positions. *)
Lemma factorize_from_NoDup vs : ∀ u,
  NoDup (u ++ vs) → no_missing vs →
  factorize_from u vs = (Z.of_nat <$> seq (length u) (length vs), u ++ vs).
Proof.
  induction vs as [|v vs IH]; intros u Hnd Hna.
  { simpl. by rewrite app_nil_r. }
  apply Forall_cons in Hna as [Hv Hna].
  rewrite factorize_from_cons, Hv, index_of_not_in.
  - rewrite IH by (by rewrite <-?app_assoc).
    rewrite length_app, Nat.add_1_r, <-app_assoc. done.
  - apply NoDup_app in Hnd as (_ & Hdisj & _).
    intros Hin. apply (Hdisj v Hin). by apply elem_of_cons; left.
Qed.

Lemma pd_factorize_arange_NoDup vs :
  (pd_factorize vs).1 = np_arange (length vs) → NoDup vs ∧ no_missing vs.
Proof.
  intros Hcodes.
  assert (no_missing vs) as Hna.
  { apply Forall_lookup. intros i v Hi.
    assert ((pd_factorize vs).1 !! i = Some (Z.of_nat i)) as Hc.
    { rewrite Hcodes. apply np_arange_lookup. by eapply lookup_lt_Some. }
    pose proof (pd_factorize_code vs i v _ Hi Hc) as Hcase.
    destruct (isna v); [lia|done]. }
  split; [|done]. apply NoDup_alt. intros i j v Hi Hj.
  unfold no_missing in Hna. rewrite Forall_lookup in Hna.
  pose proof (proj2 (pd_factorize_same_code vs i j v v Hi Hj
                       (Hna _ _ Hi) (Hna _ _ Hj)) eq_refl) as Heq.
  rewrite Hcodes in Heq.
  rewrite !np_arange_lookup in Heq by by eapply lookup_lt_Some.
  injection Heq as Heq. lia.
Qed.

(** X11: the group ids of a mapper none of whose labels is missing depend
    only on the partition its labels induce: two such mappers whose
    normalised labels induce the same partition of the columns get the
    same ids or fail alike, and two that get the same ids induce the same
    partition. *)
Theorem group_ids_depend_on_partition index m1 m2 labels1 labels2 :
  mapper_to_index index m1 = Ok labels1 →
  mapper_to_index index m2 = Ok labels2 →
  no_missing (values labels1) → no_missing (values labels2) →
  (same_partition (values labels1) (values labels2) →
   fst <$> get_groups_and_index index (GMapper m1)
   = fst <$> get_groups_and_index index (GMapper m2))
  ∧ (∀ groups i1 i2,
       get_groups_and_index index (GMapper m1) = Ok (groups, i1) →
       get_groups_and_index index (GMapper m2) = Ok (groups, i2) →
       same_partition (values labels1) (values labels2)).
Proof.
  intros Hm1 Hm2 Hn1 Hn2.
  rewrite (get_groups_and_index_mapper _ _ _ Hm1).
  rewrite (get_groups_and_index_mapper _ _ _ Hm2). split.
  - intros Hp%(pd_factorize_same_partition _ _ Hn1 Hn2). rewrite Hp.
    by destruct (is_sorted _).
  - intros groups i1 i2 H1 H2. apply (pd_factorize_same_partition _ _ Hn1 Hn2).
    destruct (is_sorted (pd_factorize (values labels1)).1); [|done].
    destruct (is_sorted (pd_factorize (values labels2)).1); [|done].
    injection H1 as <- _. by injection H2 as <- _.
Qed.

(** X12: a mapper gets the identity ids [0, 1, ..., C-1] exactly when its
    normalised labels are pairwise distinct and none of them is missing,
    and the group index is then the label sequence itself; in particular
    grouping such columns by themselves gives what no grouping gives. *)
Theorem distinct_labels_identity_ids index m labels :
  mapper_to_index index m = Ok labels →
  (NoDup (values labels) ∧ no_missing (values labels) ↔
   fst <$> get_groups_and_index index (GMapper m) = Ok (np_arange (len index)))
  ∧ (NoDup (values labels) → no_missing (values labels) →
     get_groups_and_index index (GMapper m)
     = Ok (np_arange (len index),
           {| values := values labels; names := names labels |}))
  ∧ (m = MIndex index → NoDup (values index) → no_missing (values index) →
     get_groups_and_index index (GMapper m) = get_groups_and_index index GNone).
Proof.
  intros Hm.
  assert (NoDup (values labels) → no_missing (values labels) →
          get_groups_and_index index (GMapper m)
          = Ok (np_arange (len index),
                {| values := values labels; names := names labels |})) as Hid.
  { intros Hnd Hna. rewrite (get_groups_and_index_mapper _ _ _ Hm).
    apply mapper_to_index_Ok in Hm as [_ Hlen].
    unfold pd_factorize. rewrite factorize_from_NoDup by done. simpl.
    fold (np_arange (length (values labels))). fold (len labels). rewrite Hlen.
    pose proof (np_arange_non_decreasing (len index)) as ->%is_sorted_non_decreasing.
    done. }
  split_and!; [|done|].
  - split; [intros [Hnd Hna]; by rewrite (Hid Hnd Hna)|].
    rewrite (get_groups_and_index_mapper _ _ _ Hm).
    apply mapper_to_index_Ok in Hm as [_ Hlen].
    destruct (is_sorted _); [|done]. simpl. intros [= Hcodes].
    apply pd_factorize_arange_NoDup. by rewrite Hcodes, <-Hlen.
  - intros -> Hnd Hna.
    assert (labels = index) as ->.
    { apply mapper_to_index_Ok in Hm as [[= ->] _]. done. }
    rewrite (Hid Hnd Hna). by destruct index.
Qed.

End Partition.

Lemma group_ids_depend_on_partition_witness :
  mapper_to_index cols3 (MArray labels_aab) = Ok (pd_Index labels_aab)
  ∧ mapper_to_index cols3 (MArray labels_xxy) = Ok (pd_Index labels_xxy)
  ∧ no_missing (values (pd_Index labels_aab))
  ∧ no_missing (values (pd_Index labels_xxy))
  ∧ (same_partition (values (pd_Index labels_aab)) (values (pd_Index labels_xxy)) →
     fst <$> get_groups_and_index cols3 (GMapper (MArray labels_aab))
     = fst <$> get_groups_and_index cols3 (GMapper (MArray labels_xxy)))
  ∧ (∀ groups i1 i2,
       get_groups_and_index cols3 (GMapper (MArray labels_aab)) = Ok (groups, i1) →
       get_groups_and_index cols3 (GMapper (MArray labels_xxy)) = Ok (groups, i2) →
       same_partition (values (pd_Index labels_aab)) (values (pd_Index labels_xxy))).
Proof.
  split; [reflexivity|]. split; [reflexivity|].
  split; [repeat constructor|]. split; [repeat constructor|].
  apply (group_ids_depend_on_partition cols3 (MArray labels_aab) (MArray labels_xxy));
    [reflexivity|reflexivity|repeat constructor|repeat constructor].
Defined.

Lemma distinct_labels_identity_ids_witness :
  mapper_to_index cols3 (MIndex cols3) = Ok cols3
  ∧ (NoDup (values cols3) ∧ no_missing (values cols3) ↔
     fst <$> get_groups_and_index cols3 (GMapper (MIndex cols3))
     = Ok (np_arange (len cols3)))
  ∧ (NoDup (values cols3) → no_missing (values cols3) →
     get_groups_and_index cols3 (GMapper (MIndex cols3))
     = Ok (np_arange (len cols3),
           {| values := values cols3; names := names cols3 |}))
  ∧ (MIndex cols3 = MIndex cols3 → NoDup (values cols3) → no_missing (values cols3) →
     get_groups_and_index cols3 (GMapper (MIndex cols3))
     = get_groups_and_index cols3 GNone).
Proof.
  split; [reflexivity|].
  apply (distinct_labels_identity_ids cols3 (MIndex cols3) cols3).
  reflexivity.
Defined.

Lemma resolve_group_by_result_witness :
  resolve_group_by (grouper_aab true) (GMapper (MArray labels_xxy)) no_kwargs
    = Ok (GMapper (MIndex (pd_Index labels_xxy)))
  ∧ resolve_group_by (grouper_aab true) (GMapper (MIndex (pd_Index labels_xxy)))
      no_kwargs
    = Ok (GMapper (MIndex (pd_Index labels_xxy))).
Proof.
  split; [reflexivity|].
  apply (resolve_group_by_result (grouper_aab true) (GMapper (MArray labels_xxy))
           no_kwargs (GMapper (MIndex (pd_Index labels_xxy)))).
  reflexivity.
Defined.

(** ** [create_volume]: the coordinate arrays form the grid of the cells *)

Lemma np_repeat_length {A : Type} (a : list A) (m : nat) :
  length (np_repeat a m) = (length a * m)%nat.
Proof.
  unfold np_repeat. induction a as [|x a IH]; [done|].
  rewrite bind_cons, length_app, length_replicate, IH. simpl. lia.
Qed.

Lemma np_tile_length {A : Type} (a : list A) (m : nat) :
  length (np_tile a m) = (m * length a)%nat.
Proof.
  unfold np_tile. induction m as [|m IH]; simpl; [done|].
  by rewrite length_app, IH.
Qed.

(** Entry [i * m + r] of [np.repeat(a, m)] is [a[i]]. *)
Lemma np_repeat_lookup {A : Type} (a : list A) (m i r : nat) :
  (r < m)%nat → np_repeat a m !! (i * m + r)%nat = a !! i.
Proof.
  intros Hr. unfold np_repeat. revert i.
  induction a as [|x a IH]; intros i.
  { by rewrite !lookup_nil. }
  rewrite bind_cons.
  destruct i as [|i]; simpl.
  - rewrite lookup_app_l by (rewrite length_replicate; lia).
    by rewrite lookup_replicate_2.
  - rewrite lookup_app_r by (rewrite length_replicate; lia).
    rewrite length_replicate.
    replace (m + i * m + r - m)%nat with (i * m + r)%nat by lia. apply IH.
Qed.

(** Entry [q * len(a) + r] of [np.tile(a, m)] is [a[r]]. *)
Lemma np_tile_lookup {A : Type} (a : list A) (m q r : nat) :
  (q < m)%nat → (r < length a)%nat →
  np_tile a m !! (q * length a + r)%nat = a !! r.
Proof.
  intros Hq Hr. unfold np_tile. revert q Hq.
  induction m as [|m IH]; intros q Hq; [lia|]. simpl.
  destruct q as [|q]; simpl.
  - by rewrite lookup_app_l by lia.
  - rewrite lookup_app_r by lia.
    replace (length a + q * length a + r - length a)%nat
      with (q * length a + r)%nat by lia.
    apply IH. lia.
Qed.

(** X13: the three coordinate arrays that [create_volume] hands to
    [go.Volume] always have one common length, the product of the three
    label counts, and they enumerate the grid in C order: at position
    [(i * ny + j) * nz + k] they hold the labels [i], [j] and [k] of the
    three axes.  When no axis has numeric labels of its own, that length
    is the number of cells of a well-shaped array and the position is the
    one at which [flatten] puts [data[i, j, k]]. *)
Theorem create_volume_grid {Num T V : Type}
    (data : Array3 V) (x_labels y_labels z_labels : AxisLabels Num T)
    (args : VolumeArgs Num T V) :
  create_volume (Some data) x_labels y_labels z_labels = Done args →
  let xs := axis_coords (shape0 data) x_labels in
  let ys := axis_coords (shape1 data) y_labels in
  let zs := axis_coords (shape2 data) z_labels in
  length (volume_x args) = (length xs * length ys * length zs)%nat
  ∧ length (volume_y args) = (length xs * length ys * length zs)%nat
  ∧ length (volume_z args) = (length xs * length ys * length zs)%nat
  ∧ (∀ i j k : nat,
       (i < length xs)%nat → (j < length ys)%nat → (k < length zs)%nat →
       volume_x args !! ((i * length ys + j) * length zs + k)%nat = xs !! i
       ∧ volume_y args !! ((i * length ys + j) * length zs + k)%nat = ys !! j
       ∧ volume_z args !! ((i * length ys + j) * length zs + k)%nat = zs !! k)
  ∧ ((∀ l, x_labels ≠ LabelsNumeric l) → (∀ l, y_labels ≠ LabelsNumeric l) →
     (∀ l, z_labels ≠ LabelsNumeric l) →
     length (flat data) = (shape0 data * shape1 data * shape2 data)%nat →
     length (volume_x args) = length (volume_value args)
     ∧ ∀ i j k : nat,
         (i < shape0 data)%nat → (j < shape1 data)%nat → (k < shape2 data)%nat →
         volume_x args !! ((i * shape1 data + j) * shape2 data + k)%nat
           = Some (Position i)
         ∧ volume_y args !! ((i * shape1 data + j) * shape2 data + k)%nat
           = Some (Position j)
         ∧ volume_z args !! ((i * shape1 data + j) * shape2 data + k)%nat
           = Some (Position k)
         ∧ volume_value args !! ((i * shape1 data + j) * shape2 data + k)%nat
           = get3 data i j k).
Proof.
  intros [= <-] xs ys zs. simpl. fold xs ys zs.
  assert (∀ i j k : nat,
       (i < length xs)%nat → (j < length ys)%nat → (k < length zs)%nat →
       np_repeat xs (length ys * length zs)
         !! ((i * length ys + j) * length zs + k)%nat = xs !! i
       ∧ np_tile (np_repeat ys (length zs)) (length xs)
           !! ((i * length ys + j) * length zs + k)%nat = ys !! j
       ∧ np_tile zs (length xs * length ys)
           !! ((i * length ys + j) * length zs + k)%nat = zs !! k) as Hgrid.
  { intros i j k Hi Hj Hk. split_and!.
    - replace ((i * length ys + j) * length zs + k)%nat
        with (i * (length ys * length zs) + (j * length zs + k))%nat by lia.
      apply np_repeat_lookup. nia.
    - replace ((i * length ys + j) * length zs + k)%nat
        with (i * length (np_repeat ys (length zs)) + (j * length zs + k))%nat
        by (rewrite np_repeat_length; lia).
      rewrite np_tile_lookup by (rewrite ?np_repeat_length; nia).
      by apply np_repeat_lookup.
    - apply np_tile_lookup; nia. }
  split_and!.
  - rewrite np_repeat_length. lia.
  - rewrite np_tile_length, np_repeat_length. lia.
  - rewrite np_tile_length. lia.
  - done.
  - intros Hx Hy Hz Hflat.
    assert (∀ n (labels : AxisLabels Num T),
              (∀ l, labels ≠ LabelsNumeric l) →
              axis_coords n labels = Position <$> seq 0 n) as Hpos.
    { intros n [|l|t] Hl; [done| |done]. by destruct (Hl l). }
    assert (length xs = shape0 data ∧ length ys = shape1 data
            ∧ length zs = shape2 data) as (Hlx & Hly & Hlz).
    { unfold xs, ys, zs. rewrite !Hpos by done.
      by rewrite !length_fmap, !length_seq. }
    split.
    + rewrite np_repeat_length, Hflat. lia.
    + intros i j k Hi Hj Hk.
      destruct (Hgrid i j k) as (Hvx & Hvy & Hvz); [lia..|].
      rewrite Hlx, Hly, Hlz in *. rewrite Hvx, Hvy, Hvz.
      unfold xs, ys, zs. rewrite !Hpos by done.
      rewrite !list_lookup_fmap, !lookup_seq_lt by done. done.
Qed.

Lemma create_volume_grid_witness :
  create_volume (Some (mkArray3 1 2 2 ["a"; "b"; "c"; "d"]%string))
    (LabelsNumeric [7]) (LabelsOther "rows"%string) (LabelsNone : AxisLabels Z string)
  = Done (mkVolumeArgs None (Some "rows"%string) None
            [Given 7; Given 7; Given 7; Given 7]
            [Position 0; Position 0; Position 1; Position 1]
            [Position 0; Position 1; Position 0; Position 1]
            ["a"; "b"; "c"; "d"]%string)
  ∧ length [Given 7; Given 7; Given 7; Given 7 : Coord Z] = 4%nat.
Proof.
  split; [reflexivity|].
  destruct (create_volume_grid (mkArray3 1 2 2 ["a"; "b"; "c"; "d"]%string)
           (LabelsNumeric [7]) (LabelsOther "rows"%string)
           (LabelsNone : AxisLabels Z string)
           (mkVolumeArgs None (Some "rows"%string) None
              [Given 7; Given 7; Given 7; Given 7]
              [Position 0; Position 0; Position 1; Position 1]
              [Position 0; Position 1; Position 0; Position 1]
              ["a"; "b"; "c"; "d"]%string) eq_refl) as [Hlen _].
  exact Hlen.
Defined.

(** ** The data updaters *)

Section Updaters.
Context {V : Type}.
Implicit Types (fig : list (Trace V)) (data : list V) (kind : TraceType).
Implicit Types (set : V → Trace V → Trace V).

Lemma py_position_lt (n : nat) (i : Z) (pos : nat) :
  py_position n i = Some pos → (pos < n)%nat.
Proof.
  unfold py_position. repeat case_bool_decide; intros [= <-]; lia.
Qed.

Lemma py_position_of_nat (n i : nat) :
  (i < n)%nat → py_position n (Z.of_nat i) = Some i.
Proof.
  intros Hi. unfold py_position. rewrite bool_decide_eq_true_2 by lia.
  f_equal. lia.
Qed.

(** Reading [fig.data[i]]. *)
Lemma getitem_Some fig (i : Z) (pos : nat) (trace : Trace V) :
  (py_position (length fig) i ≫= λ pos, fig !! pos ≫= λ trace, Some (pos, trace))
    = Some (pos, trace)
  ↔ py_position (length fig) i = Some pos ∧ fig !! pos = Some trace.
Proof.
  destruct (py_position (length fig) i) as [p|]; simpl; [|by split; [|intros []]].
  destruct (fig !! p) as [t|] eqn:Hp; simpl.
  - split; [by intros [= <- <-]|]. intros [[= <-] Ht]. by simplify_eq.
  - split; [done|]. intros [[= <-] Ht]. by simplify_eq.
Qed.

Lemma getitem_None fig (i : Z) :
  (py_position (length fig) i ≫= λ pos, fig !! pos ≫= λ trace, Some (pos, trace))
    = None
  ↔ py_position (length fig) i = None.
Proof.
  destruct (py_position (length fig) i) as [p|] eqn:Hi; simpl; [|done].
  apply py_position_lt, (lookup_lt_is_Some_2 fig) in Hi as [t ->]. done.
Qed.

(** One successful iteration of the loop. *)
Lemma update_loop_cons_Done kind set data (i : nat) (t : Z) (l : list Z) fig fig' :
  update_loop kind set data i (t :: l) fig = Done fig' →
  ∃ pos trace col,
    py_position (length fig) t = Some pos ∧ fig !! pos = Some trace
    ∧ trace_type trace = kind ∧ data !! i = Some col
    ∧ update_loop kind set data (S i) l (<[pos := set col trace]> fig) = Done fig'.
Proof.
  cbn [update_loop].
  destruct (py_position (length fig) t ≫= _) as [[pos trace]|] eqn:Hget; [|done].
  apply getitem_Some in Hget as [Hpos Htrace].
  case_bool_decide as Hkind; [done|].
  destruct (data !! i) as [col|] eqn:Hcol; [|done].
  intros Hrec. exists pos, trace, col.
  by split_and!.
Qed.

Section Loop.
Context kind set (Hset : ∀ col t, trace_type (set col t) = trace_type t).

Lemma update_loop_basics data : ∀ (l : list Z) (i : nat) fig fig',
  update_loop kind set data i l fig = Done fig' →
  (l = [] ∨ (i + length l ≤ length data)%nat)
  ∧ length fig' = length fig
  ∧ (∀ pos : nat, trace_type <$> fig' !! pos = trace_type <$> fig !! pos)
  ∧ (∀ pos : nat, (∀ t, t ∈ l → py_position (length fig) t ≠ Some pos) →
       fig' !! pos = fig !! pos).
Proof.
  induction l as [|t l IH]; intros i fig fig' Hloop.
  { injection Hloop as <-. split_and!; auto. }
  apply update_loop_cons_Done in Hloop
    as (pos & trace & col & Hpos & Htrace & Hkind & Hcol & Hrec).
  apply IH in Hrec as (Hbound & Hlen & Htypes & Hframe).
  rewrite length_insert in Hlen, Hframe.
  split_and!.
  - right. apply lookup_lt_Some in Hcol. simpl.
    destruct Hbound as [-> | ?]; simpl; lia.
  - done.
  - intros p. rewrite Htypes.
    destruct (decide (p = pos)) as [->|].
    + rewrite list_lookup_insert_eq by by eapply lookup_lt_Some.
      rewrite Htrace. simpl. by rewrite Hset.
    + by rewrite list_lookup_insert_ne.
  - intros p Hp. rewrite Hframe.
    + rewrite list_lookup_insert_ne; [done|]. intros ->.
      apply (Hp t); [by apply elem_of_cons; left|done].
    + intros t' Ht'. apply Hp. by apply elem_of_cons; right.
Qed.

Lemma update_loop_targets data : ∀ (l : list Z) (i : nat) fig fig',
  update_loop kind set data i l fig = Done fig' →
  ∀ t, t ∈ l →
    ∃ pos trace, py_position (length fig) t = Some pos ∧ fig !! pos = Some trace
                 ∧ trace_type trace = kind.
Proof.
  induction l as [|t l IH]; intros i fig fig' Hloop t' Ht'.
  { by apply elem_of_nil in Ht'. }
  apply update_loop_cons_Done in Hloop
    as (pos & trace & col & Hpos & Htrace & Hkind & Hcol & Hrec).
  apply elem_of_cons in Ht' as [->|Ht']; [by exists pos, trace|].
  destruct (IH _ _ _ Hrec t' Ht') as (pos' & trace' & Hpos' & Htrace' & Hkind').
  rewrite length_insert in Hpos'. exists pos'.
  destruct (decide (pos' = pos)) as [->|Hne].
  - exists trace. done.
  - exists trace'. by rewrite list_lookup_insert_ne in Htrace'.
Qed.

Lemma update_loop_assigns data : ∀ (l : list Z) (i : nat) fig fig',
  update_loop kind set data i l fig = Done fig' →
  NoDup (py_position (length fig) <$> l) →
  ∀ (j : nat) t pos trace,
    l !! j = Some t → py_position (length fig) t = Some pos →
    fig !! pos = Some trace →
    ∃ col, data !! (i + j)%nat = Some col ∧ fig' !! pos = Some (set col trace).
Proof.
  induction l as [|t l IH]; intros i fig fig' Hloop Hnd j t' pos' trace' Hj Hpos' Htrace';
    [done|].
  apply update_loop_cons_Done in Hloop
    as (pos & trace & col & Hpos & Htrace & Hkind & Hcol & Hrec).
  rewrite fmap_cons in Hnd. apply NoDup_cons in Hnd as [Hfresh Hnd].
  destruct j as [|j]; simpl in Hj.
  - injection Hj as <-. rewrite Hpos in Hpos'. injection Hpos' as <-.
    rewrite Htrace in Htrace'. injection Htrace' as <-. exists col.
    rewrite Nat.add_0_r. split; [done|].
    apply update_loop_basics in Hrec as (_ & _ & _ & Hframe).
    rewrite Hframe.
    + apply list_lookup_insert_eq. by eapply lookup_lt_Some.
    + intros t' Ht' Hpt'. rewrite length_insert in Hpt'.
      apply Hfresh. rewrite Hpos, <-Hpt'. apply list_elem_of_fmap. by exists t'.
  - assert (pos' ≠ pos) as Hne.
    { intros ->. apply Hfresh. rewrite Hpos, <-Hpos'.
      apply list_elem_of_fmap. exists t'. split; [done|].
      by eapply list_elem_of_lookup_2. }
    destruct (IH (S i) _ _ Hrec) with (j := j) (t := t') (pos := pos') (trace := trace')
      as (col' & Hcol' & Hfig'); rewrite ?length_insert; try done.
    { by rewrite list_lookup_insert_ne. }
    exists col'. split; [|done]. by replace (i + S j)%nat with (S i + j)%nat by lia.
Qed.

(** The loop over [np.arange(len(fig.data))]. *)
Lemma update_loop_seq data : ∀ (n i : nat) fig,
  (i + n = length fig)%nat → length data = length fig →
  update_loop kind set data i (Z.of_nat <$> seq i n) fig
  = if decide (Forall (λ t, trace_type t = kind) (drop i fig))
    then Done (take i fig ++ zip_with set (drop i data) (drop i fig))
    else Fail (NotA kind).
Proof.
  induction n as [|n IH]; intros i fig Hn Hdata.
  { simpl. rewrite !drop_ge, take_ge by lia.
    rewrite decide_True by done. by rewrite app_nil_r. }
  destruct (lookup_lt_is_Some_2 fig i) as [trace Htrace]; [lia|].
  destruct (lookup_lt_is_Some_2 data i) as [col Hcol]; [lia|].
  rewrite (drop_S _ _ _ Htrace), (drop_S _ _ _ Hcol).
  cbn [seq fmap list_fmap update_loop].
  rewrite (py_position_of_nat _ _ (lookup_lt_Some _ _ _ Htrace)). simpl.
  rewrite Htrace. simpl.
  case_bool_decide as Hkind.
  - rewrite decide_False; [done|]. by intros [? _]%Forall_cons.
  - rewrite Hcol.
    rewrite IH by (rewrite ?length_insert; lia).
    rewrite drop_insert_lt by lia.
    rewrite (take_S_r _ _ (set col trace))
      by (apply list_lookup_insert_eq; by eapply lookup_lt_Some).
    rewrite take_insert_ge by done. simpl.
    destruct (decide (Forall _ (drop (S i) fig))) as [Hall|Hall].
    + rewrite decide_True by by apply Forall_cons.
      by rewrite <-app_assoc.
    + rewrite decide_False; [done|]. by intros [_ ?]%Forall_cons.
Qed.

Local Arguments update_loop : simpl never.

Lemma update_traces_data_default fig data :
  update_traces_data kind set fig data IdxNone = default_update kind set fig data.
Proof.
  unfold update_traces_data, default_update.
  case_bool_decide as Hlt; [by rewrite decide_True|].
  rewrite decide_False by done. simpl.
  rewrite length_fmap, length_seq.
  case_bool_decide as Hgt; [by rewrite decide_True|].
  rewrite decide_False by done.
  rewrite update_loop_seq by lia. by rewrite !drop_0, take_0.
Qed.

Lemma update_traces_data_Done fig data trace_idx fig' :
  update_traces_data kind set fig data trace_idx = Done fig' →
  updated_by kind set fig data trace_idx fig'.
Proof.
  unfold update_traces_data, updated_by. cbv zeta.
  assert (∀ l, l = trace_targets fig trace_idx →
    (if bool_decide (length l < length data)%nat
     then Fail MoreDataThanTraceIdx
     else update_loop kind set data 0 l fig) = Done fig' →
    length l = length data
    ∧ length fig' = length fig
    ∧ (∀ pos : nat, trace_type <$> fig' !! pos = trace_type <$> fig !! pos)
    ∧ (∀ t, t ∈ l →
         ∃ pos trace, py_position (length fig) t = Some pos
                      ∧ fig !! pos = Some trace ∧ trace_type trace = kind)
    ∧ (∀ pos : nat, (∀ t, t ∈ l → py_position (length fig) t ≠ Some pos) →
         fig' !! pos = fig !! pos)
    ∧ (NoDup (py_position (length fig) <$> l) →
       ∀ (j : nat) t pos trace,
         l !! j = Some t → py_position (length fig) t = Some pos →
         fig !! pos = Some trace →
         ∃ col, data !! j = Some col ∧ fig' !! pos = Some (set col trace)))
    as Hmain.
  { intros l _. case_bool_decide as Hlen; [done|]. intros Hloop.
    pose proof (update_loop_basics _ _ _ _ _ Hloop) as (Hbound & ? & ? & ?).
    split_and!; try done.
    - destruct Hbound as [-> | ?]; simpl in *; lia.
    - by eapply update_loop_targets.
    - intros Hnd j t pos trace.
      by apply (update_loop_assigns _ _ _ _ _ Hloop Hnd). }
  destruct trace_idx as [|i|l]; cbn [mbind plot_result_bind].
  - case_bool_decide; [done|]. cbn [mbind plot_result_bind]. by apply Hmain.
  - by apply Hmain.
  - by apply Hmain.
Qed.

End Loop.

Lemma set_prop_type name value (t : Trace V) :
  trace_type (set_prop name value t) = trace_type t.
Proof. done. Qed.

Lemma set_bar_type col (t : Trace V) : trace_type (set_bar col t) = trace_type t.
Proof. unfold set_bar. by case_bool_decide. Qed.

Lemma set_hist_type h col (t : Trace V) : trace_type (set_hist h col t) = trace_type t.
Proof. by destruct h. Qed.

Lemma set_box_type h col (t : Trace V) : trace_type (set_box h col t) = trace_type t.
Proof. by destruct h. Qed.

End Updaters.

(** X14: called without [trace_idx], [update_bar_data],
    [update_scatter_data], [update_hist_data] and [update_box_data] raise
    "Figure contains more traces than data" when there are fewer columns
    than traces, "Data contains more traces than trace_idx" when there
    are more, the type error when the counts agree but some trace is of
    another type, and otherwise return the figure in which trace [i] has
    been given column [i]. *)
Theorem update_data_default_trace_idx {V : Type}
    (fig_data : list (Trace V)) (data : list V) :
  update_bar_data fig_data data IdxNone = default_update bar set_bar fig_data data
  ∧ update_scatter_data fig_data data IdxNone
    = default_update scatter set_scatter fig_data data
  ∧ (∀ horizontal,
       update_hist_data fig_data data horizontal IdxNone
       = default_update histogram (set_hist horizontal) fig_data data)
  ∧ (∀ horizontal,
       update_box_data fig_data data horizontal IdxNone
       = default_update box (set_box horizontal) fig_data data).
Proof.
  split_and!; intros; apply update_traces_data_default.
Qed.

(** X15: whenever one of the four updaters returns, for any [trace_idx],
    there was exactly one column per visited index, the figure has kept
    its length and the type of every trace, every visited index addresses
    a trace of the updater's kind, traces that no index addresses are
    untouched, and if the indices address pairwise different traces then
    the trace addressed by the [j]-th index has been given column [j]. *)
Theorem update_data_returns {V : Type}
    (fig_data : list (Trace V)) (data : list V) (trace_idx : TraceIdx)
    (fig_data' : list (Trace V)) :
  (update_bar_data fig_data data trace_idx = Done fig_data' →
   updated_by bar set_bar fig_data data trace_idx fig_data')
  ∧ (update_scatter_data fig_data data trace_idx = Done fig_data' →
     updated_by scatter set_scatter fig_data data trace_idx fig_data')
  ∧ (∀ horizontal,
       update_hist_data fig_data data horizontal trace_idx = Done fig_data' →
       updated_by histogram (set_hist horizontal) fig_data data trace_idx fig_data')
  ∧ (∀ horizontal,
       update_box_data fig_data data horizontal trace_idx = Done fig_data' →
       updated_by box (set_box horizontal) fig_data data trace_idx fig_data').
Proof.
  split_and!; intros; eapply update_traces_data_Done; try done.
  - apply set_bar_type.
  - intros. apply set_hist_type.
  - intros. apply set_box_type.
Qed.

(** X16: called without [trace_idx], [update_volume_data] raises
    [IndexError] on a figure without traces, "Figure contains more traces
    than data" on a figure with more than one, the type error when the
    only trace is not a volume, and otherwise assigns the data to the
    [value] of that trace.  Called with an index it changes only the
    addressed trace, which must be a volume, and only its [value]. *)
Theorem update_volume_data_cases {V : Type} (fig_data : list (Trace V)) (data : V) :
  update_volume_data fig_data data None
  = match fig_data with
    | [] => Fail IndexError
    | [trace] =>
        if decide (trace_type trace = volume)
        then Done [set_prop "value" (Some data) trace]
        else Fail (NotA volume)
    | _ => Fail MustPassTraceIdx
    end
  ∧ ∀ (i : Z) fig_data',
      update_volume_data fig_data data (Some i) = Done fig_data' →
      ∃ pos trace,
        py_position (length fig_data) i = Some pos
        ∧ fig_data !! pos = Some trace
        ∧ trace_type trace = volume
        ∧ fig_data' = <[pos := set_prop "value" (Some data) trace]> fig_data
        ∧ ∀ name, name ≠ "value"%string →
            (fig_data' !! pos ≫= λ t, props t !! name) = props trace !! name.
Proof.
  split.
  - destruct fig_data as [|trace [|trace' fig_data]]; [done| |done].
    unfold update_volume_data. simpl.
    case_bool_decide; [by rewrite decide_False|by rewrite decide_True].
  - intros i fig_data'. unfold update_volume_data. simpl.
    destruct (py_position (length fig_data) i ≫= _) as [[pos trace]|] eqn:Hget;
      [|done].
    apply getitem_Some in Hget as [Hpos Htrace].
    case_bool_decide as Hkind; [done|]. intros [= <-].
    exists pos, trace. split_and!; [done..|].
    intros name Hname.
    rewrite list_lookup_insert_eq by by eapply lookup_lt_Some.
    simpl. by rewrite lookup_insert_ne.
Qed.

(** ** Relabelling under a modification ban *)

Section Relabelling.
Context {L : Type} `{EqDecision L} `{!IsNa L} `{!IndexFns L}.
Implicit Types (self : ColumnGrouper L) (m : Mapper L) (kw : Kwargs).
Local Arguments is_grouping_modified : simpl never.
Local Arguments is_grouping_enabled : simpl never.
Local Arguments is_grouping_disabled : simpl never.
Local Arguments get_groups_and_index : simpl never.
Local Arguments check_group_by : simpl never.

Lemma resolve_group_by_mapper self m kw :
  resolve_group_by self (GMapper m) kw
  = match check_group_by self (GMapper m) kw with
    | Ok _ => group_by_to_index (columns self) (GMapper m)
    | Raise e => Raise e
    end.
Proof. rewrite resolve_group_by_unfold. by destruct (group_by self). Qed.

(** X17: with modification prohibited, a coherent baseline and a coherent
    candidate mapper, neither with a missing label, the candidate is
    accepted exactly when it induces the baseline's partition: then it
    resolves to its own labels and the group ids are those of the default
    request; otherwise resolution and every accessor built on it raise
    "Changing groups is not allowed". *)
Theorem relabelling_is_permitted self m kw (cand base : Index L) :
  group_by self = Some base → len base = len (columns self) →
  mapper_to_index (columns self) m = Ok cand →
  no_missing (values cand) → no_missing (values base) →
  coherent_labels (values cand) → coherent_labels (values base) →
  default (allow_modify self) (kw_allow_modify kw) = false →
  (same_partition (values cand) (values base) →
   resolve_group_by self (GMapper m) kw = Ok (GMapper (MIndex cand))
   ∧ (∃ groups group_index,
        get_groups_and_columns self (GMapper m) kw = Ok (groups, group_index)
        ∧ fst <$> get_groups_and_columns self GNone kw = Ok groups))
  ∧ (¬ same_partition (values cand) (values base) →
     resolve_group_by self (GMapper m) kw = Raise ModifyNotAllowed
     ∧ get_groups_and_columns self (GMapper m) kw = Raise ModifyNotAllowed
     ∧ get_group_counts self (GMapper m) kw = Raise ModifyNotAllowed).
Proof.
  intros Hbase Hlen Hm Hnc Hnb Hc Hb Ham.
  assert (group_by_to_index (columns self) (GMapper m) = Ok (GMapper (MIndex cand)))
    as Hgb by (simpl; by rewrite Hm).
  destruct (is_grouping_modified_coherent self (GMapper m) cand base
              Hgb Hbase Hlen Hnc Hnb Hc Hb) as [Hsame Hdiff].
  split.
  - intros Hp. specialize (Hsame Hp).
    assert (check_group_by self (GMapper m) kw = Ok ()) as Hcheck.
    { apply check_group_by_Ok. split_and!; right; [| |done].
      - apply not_true_is_false. intros [? _]%is_grouping_enabled_true. congruence.
      - apply not_true_is_false. by intros [_ ?]%is_grouping_disabled_true. }
    assert (resolve_group_by self (GMapper m) kw = Ok (GMapper (MIndex cand))) as Hres.
    { by rewrite resolve_group_by_mapper, Hcheck. }
    split; [done|].
    unfold get_groups_and_columns. rewrite Hres. simpl.
    rewrite resolve_group_by_default;
      [|intros b0 Hb0; rewrite Hbase in Hb0; by injection Hb0 as <-|by left]. simpl.
    unfold self_group_by. rewrite Hbase.
    rewrite (get_groups_and_index_mapper _ _ _ (mapper_to_index_idemp _ _ _ Hm)).
    rewrite (get_groups_and_index_mapper _ _ _ (mapper_to_index_MIndex _ _ Hlen)).
    apply (pd_factorize_same_partition _ _ Hnc Hnb) in Hp. rewrite Hp.
    apply (is_sorted_coherent_labels _ Hnb) in Hb as ->. simpl. eauto.
  - intros Hp. specialize (Hdiff Hp).
    assert (resolve_group_by self (GMapper m) kw = Raise ModifyNotAllowed) as Hres.
    { rewrite resolve_group_by_mapper.
      by rewrite (proj2 (check_group_by_modify self (GMapper m) kw) (conj Ham Hdiff)). }
    unfold get_group_counts, get_groups_and_columns. by rewrite Hres.
Qed.

End Relabelling.

Lemma relabelling_is_permitted_witness :
  resolve_group_by (grouper_aab false) (GMapper (MArray labels_xxy)) no_kwargs
    = Ok (GMapper (MIndex (pd_Index labels_xxy)))
  ∧ resolve_group_by (grouper_aab false) (GMapper (MArray labels_abb)) no_kwargs
    = Raise ModifyNotAllowed
  ∧ (same_partition (values (pd_Index labels_xxy)) (values (pd_Index labels_aab)) →
     resolve_group_by (grouper_aab false) (GMapper (MArray labels_xxy)) no_kwargs
       = Ok (GMapper (MIndex (pd_Index labels_xxy)))
     ∧ (∃ groups group_index,
          get_groups_and_columns (grouper_aab false) (GMapper (MArray labels_xxy))
            no_kwargs = Ok (groups, group_index)
          ∧ fst <$> get_groups_and_columns (grouper_aab false) GNone no_kwargs
            = Ok groups)).
Proof.
  split; [reflexivity|]. split; [reflexivity|].
  apply (relabelling_is_permitted (grouper_aab false) (MArray labels_xxy) no_kwargs
           (pd_Index labels_xxy) (pd_Index labels_aab)).
  - reflexivity.
  - reflexivity.
  - reflexivity.
  - repeat constructor.
  - repeat constructor.
  - apply is_sorted_coherent_labels; [repeat constructor|reflexivity].
  - apply is_sorted_coherent_labels; [repeat constructor|reflexivity].
  - reflexivity.
Defined.

(** ** The range of the indicator *)

(** X18: when [update_indicator_data] returns, the returned range is
    [(value, value)] if none was passed and otherwise the passed range
    widened to the value: the value is not below its lower nor above its
    upper end, the passed range lies within it, and a passed range that
    already holds the value is returned unchanged.  The addressed trace,
    which must be an indicator, gets this range and the value, its
    [delta.reference] becomes its previous [value], and every other trace
    is untouched.  This holds for any numbers whose [<] is irreflexive
    and transitive. *)
Theorem update_indicator_data_range {A C : Type} (lt : A → A → Prop)
    `{∀ x y, Decision (lt x y)} `{!StrictOrder lt}
    (rgb : string → A → A * A → C)
    (fig_data : list (Trace (IndicatorValue A C))) (value : A)
    (value_range : option (A * A)) (cmap_name : option string)
    (trace_idx : option Z)
    (fig_data' : list (Trace (IndicatorValue A C))) (lo hi : A) :
  update_indicator_data lt rgb fig_data value value_range cmap_name trace_idx
    = Done (fig_data', (lo, hi)) →
  (¬ lt value lo ∧ ¬ lt hi value)
  ∧ match value_range with
    | None => lo = value ∧ hi = value
    | Some (lo0, hi0) =>
        ¬ lt lo0 lo ∧ ¬ lt hi hi0
        ∧ (¬ lt value lo0 → ¬ lt hi0 value → lo = lo0 ∧ hi = hi0)
    end
  ∧ ∃ pos trace trace',
      py_position (length fig_data) (default 0 trace_idx) = Some pos
      ∧ (trace_idx = None → fig_data = [trace])
      ∧ fig_data !! pos = Some trace
      ∧ trace_type trace = indicator
      ∧ fig_data' = <[pos := trace']> fig_data
      ∧ trace_type trace' = indicator
      ∧ props trace' !! "gauge.axis.range"%string = Some (Range lo hi)
      ∧ props trace' !! "value"%string = Some (Number value)
      ∧ props trace' !! "delta.reference"%string = props trace !! "value"%string.
Proof.
  unfold update_indicator_data.
  assert (∃ i, match trace_idx return plot_result Z with
               | None =>
                   if bool_decide (1 < length fig_data)%nat
                   then Fail MustPassTraceIdx
                   else Done 0
               | Some i => Done i
               end = Done i ∧ i = default 0 trace_idx
               ∧ (trace_idx = None → (length fig_data ≤ 1)%nat)
          ∨ match trace_idx return plot_result Z with
            | None =>
                if bool_decide (1 < length fig_data)%nat
                then Fail MustPassTraceIdx
                else Done 0
            | Some i => Done i
            end = Fail MustPassTraceIdx) as Hidx.
  { destruct trace_idx as [i|]; simpl.
    - exists i. left. by split_and!.
    - exists 0. case_bool_decide; [by right|left]. split_and!; [done..|]. lia. }
  destruct Hidx as (i & [(-> & -> & Hone)| ->]); [|done]. cbn [mbind plot_result_bind].
  destruct (py_position (length fig_data) (default 0 trace_idx) ≫= _)
    as [[pos trace]|] eqn:Hget; [|done].
  apply getitem_Some in Hget as [Hpos Htrace].
  case_bool_decide as Hkind; [done|]. cbv zeta.
  intros [= <- Hrange].
  assert ((¬ lt value lo ∧ ¬ lt hi value)
          ∧ match value_range with
            | None => lo = value ∧ hi = value
            | Some (lo0, hi0) =>
                ¬ lt lo0 lo ∧ ¬ lt hi hi0
                ∧ (¬ lt value lo0 → ¬ lt hi0 value → lo = lo0 ∧ hi = hi0)
            end) as [Hin Hold].
  { destruct value_range as [[lo0 hi0]|]; injection Hrange as <- <-.
    - unfold py_min, py_max.
      destruct (decide (lt value lo0)) as [Hlo|Hlo],
        (decide (lt hi0 value)) as [Hhi|Hhi];
        split_and!; try done; try apply irreflexivity, _;
        try (intros Hx; by apply (irreflexivity lt value), (transitivity Hx));
        try (intros Hx; by apply (irreflexivity lt value), (transitivity Hlo)).
    - split_and!; try done; apply irreflexivity, _. }
  split_and!; [apply Hin..|done|].
  eexists pos, trace, _. split_and!; [done| |done|done|reflexivity|..].
  - intros Hnone. specialize (Hone Hnone).
    destruct fig_data as [|t [|t' fig_data]]; simpl in *; [done| |lia].
    rewrite Hnone in Hpos. injection Hpos as <-. by injection Htrace as ->.
  - by destruct cmap_name.
  - rewrite Hrange. destruct cmap_name; simpl;
      rewrite lookup_insert_ne by done;
      (destruct (_ !! "value"%string);
        [rewrite lookup_insert_ne by done|rewrite lookup_delete_ne by done]);
      rewrite ?lookup_insert_ne by done; by rewrite lookup_insert_eq.
  - simpl. by rewrite lookup_insert_eq.
  - destruct cmap_name; simpl; rewrite lookup_insert_ne by done;
      rewrite ?lookup_insert_ne by done.
    + destruct (props trace !! "value"%string) eqn:Hv.
      * rewrite lookup_insert_eq. done.
      * rewrite lookup_delete_eq. done.
    + destruct (props trace !! "value"%string) eqn:Hv.
      * rewrite lookup_insert_eq. done.
      * rewrite lookup_delete_eq. done.
Qed.
Lemma update_indicator_data_range_witness :
  update_indicator_data Z.lt (λ _ _ _, "rgb(1,2,3)"%string)
    [mkTrace indicator (∅ : gmap string (IndicatorValue Z string))] 4 (Some (1, 3))
    (Some "Spectral"%string) None
  = Done ([set_prop "value" (Some (Number 4))
             (set_prop "delta.reference" None
                (set_prop "gauge.bar.color" (Some (Colour "rgb(1,2,3)"%string))
                   (set_prop "gauge.axis.range" (Some (Range 1 4))
                      (mkTrace indicator ∅))))], (1, 4))
  ∧ (¬ 4 < 1 ∧ ¬ 4 < 4).
Proof.
  assert (update_indicator_data Z.lt (λ _ _ _, "rgb(1,2,3)"%string)
    [mkTrace indicator (∅ : gmap string (IndicatorValue Z string))] 4 (Some (1, 3))
    (Some "Spectral"%string) None
  = Done ([set_prop "value" (Some (Number 4))
             (set_prop "delta.reference" None
                (set_prop "gauge.bar.color" (Some (Colour "rgb(1,2,3)"%string))
                   (set_prop "gauge.axis.range" (Some (Range 1 4))
                      (mkTrace indicator ∅))))], (1, 4))) as Hrun by reflexivity.
  split; [exact Hrun|].
  exact (proj1 (update_indicator_data_range Z.lt _ _ _ _ _ _ _ _ _ Hrun)).
Defined.

(** ** Missing labels *)

Lemma runs_from_shift g rc d (l : list Z) :
  runs_from g (rc + d) l
  = match runs_from g rc l with
    | [] => []
    | c :: counts => (c + d) :: counts
    end.
Proof.
  revert rc. induction l as [|x l IH]; intros rc; simpl; [done|].
  case_bool_decide; [|done].
  replace (rc + d + 1) with (rc + 1 + d) by lia. apply IH.
Qed.

Lemma runs_from_nonempty g rc (l : list Z) :
  ∃ c counts, runs_from g rc l = c :: counts.
Proof.
  revert rc. induction l as [|x l IH]; intros rc; simpl; [by eauto|].
  case_bool_decide; [apply IH|by eauto].
Qed.

(** An iteration on the sentinel while [prev_group] is still [-1] only
    counts. *)
Lemma counts_step_sentinel n i st :
  prev_group st = -1 → (S i < n)%nat →
  counts_step n i (-1) st
  = Ok {| result_arr := result_arr st; j := j st;
          prev_group := -1; run_count := run_count st + 1 |}.
Proof.
  intros Hp Hi. unfold counts_step. rewrite Hp.
  rewrite (bool_decide_eq_false_2 (-1 < -1)) by lia.
  rewrite (bool_decide_eq_false_2 (-1 ≠ -1)) by (by intros []).
  rewrite bool_decide_eq_false_2 by lia. by rewrite Hp.
Qed.

Lemma counts_loop_sentinels n (m : nat) (l : list Z) : ∀ i st,
  prev_group st = -1 → (i + m < n)%nat →
  counts_loop n i (replicate m (-1) ++ l) st
  = counts_loop n (i + m) l
      {| result_arr := result_arr st; j := j st;
         prev_group := -1; run_count := run_count st + Z.of_nat m |}.
Proof.
  induction m as [|m IH]; intros i st Hp Hi.
  - simpl. rewrite Nat.add_0_r, Z.add_0_r. destruct st; simpl in *. by subst.
  - simpl. rewrite counts_step_sentinel by (done || lia). simpl.
    rewrite IH by (done || lia). simpl.
    replace (i + S m)%nat with (S i + m)%nat by lia.
    by replace (run_count st + 1 + Z.of_nat m)
      with (run_count st + Z.of_nat (S m)) by lia.
Qed.

(** On ids that begin with [m] sentinels and go on coherently, the loop
    does not tell the sentinels from its own initial [prev_group]: it
    counts them into the first run, and on sentinels alone it returns one
    count. *)
Lemma get_group_counts_nb_sentinels (m : nat) (rest : list Z) :
  coherent rest →
  get_group_counts_nb (replicate m (-1) ++ rest)
  = Ok match run_lengths rest with
       | [] => if decide (m = 0%nat) then [] else [Z.of_nat m]
       | c :: counts => (c + Z.of_nat m) :: counts
       end.
Proof.
  intros [Hpos Hs]. unfold get_group_counts_nb.
  remember (length (replicate m (-1) ++ rest)) as n eqn:Hn.
  rewrite length_app, length_replicate in Hn.
  destruct rest as [|g l].
  - simpl in Hn. rewrite app_nil_r. destruct m as [|m]; [by subst|].
    rewrite replicate_S_end.
    rewrite (counts_loop_sentinels n m [-1] 0 (counts_init n)) by (done || lia).
    cbn [counts_loop counts_init result_arr j prev_group run_count].
    unfold counts_step.
    cbn [result_arr j prev_group run_count].
    rewrite (bool_decide_eq_false_2 (-1 < -1)) by lia.
    rewrite (bool_decide_eq_false_2 (-1 ≠ -1)) by (by intros []).
    cbn [result_arr j prev_group run_count].
    rewrite bool_decide_eq_true_2 by lia.
    unfold emit_run. cbn. rewrite decide_False by done.
    subst n. cbn. do 3 f_equal. lia.
  - apply Forall_cons in Hpos as [Hg _]. simpl in Hn.
    rewrite (counts_loop_sentinels n m (g :: l) 0 (counts_init n)) by (done || lia).
    cbn [counts_init result_arr j prev_group run_count].
    remember {| result_arr := replicate n 0; j := 0; prev_group := -1;
                run_count := 0 + Z.of_nat m |} as st eqn:Hst.
    assert (counts_inv n m st) as Hinv.
    { unfold counts_inv. rewrite Hst. cbn [result_arr j prev_group run_count].
      rewrite length_replicate, take_0. cbn [np_sum foldr].
      split_and!; intros; subst; (done || lia). }
    destruct (counts_step_inv n m g st Hinv) as (st1 & Hstep & Hinv1 & Hprev1);
      [lia|rewrite Hst; cbn; lia|].
    cbn [counts_loop Nat.add]. rewrite Hstep. cbn [mbind result_bind].
    unfold counts_step in Hstep. rewrite Hst in Hstep.
    cbn [result_arr j prev_group run_count] in Hstep. clear Hst Hinv.
    rewrite (bool_decide_eq_false_2 (g < -1)) in Hstep by lia.
    rewrite (bool_decide_eq_true_2 (g ≠ -1)) in Hstep by lia.
    rewrite (bool_decide_eq_false_2 (-1 ≠ -1)) in Hstep by (by intros []).
    cbn [result_arr j prev_group run_count] in Hstep.
    destruct l as [|g' l].
    + simpl in Hn. rewrite bool_decide_eq_true_2 in Hstep by lia.
      injection Hstep as <-. unfold emit_run. cbn.
      subst n. rewrite Nat.add_1_r. cbn. rewrite take_0.
      assert (0 + Z.of_nat m + 1 = 1 + Z.of_nat m) as -> by lia. done.
    + simpl in Hn. rewrite bool_decide_eq_false_2 in Hstep by lia.
      destruct (counts_loop_runs n (g' :: l) (S m) st1) as (st' & Hloop & Htake);
        [done|lia|simpl in *; lia|done|lia|by rewrite Hprev1|].
      replace (0 + m + 1)%nat with (S m) by lia. rewrite Hloop.
      cbn [mbind result_bind]. rewrite Htake. injection Hstep as <-.
      cbn [result_arr j prev_group run_count take app run_lengths]. f_equal.
      replace (0 + Z.of_nat m + 1) with (1 + Z.of_nat m) by lia.
      rewrite take_0, (runs_from_shift g 1 (Z.of_nat m) (g' :: l)).
      by destruct (runs_from_nonempty g 1 (g' :: l)) as (c & counts & ->).
Qed.

(** Sorted ids that are [-1] or above are a run of sentinels followed by
    a coherent id array. *)
Lemma sorted_sentinels_first (a : list Z) :
  is_sorted a = true → Forall (λ c, -1 ≤ c) a →
  ∃ (m : nat) (rest : list Z), a = replicate m (-1) ++ rest ∧ coherent rest.
Proof.
  induction a as [|x a IH]; intros Hs Hlow.
  { exists 0%nat, []. by split. }
  apply Forall_cons in Hlow as [Hx Hlow].
  pose proof Hs as [_ Htl]%is_sorted_cons.
  destruct (decide (x = -1)) as [->|Hne].
  - destruct (IH Htl Hlow) as (m & rest & -> & Hco).
    by exists (S m), rest.
  - exists 0%nat, (x :: a). split; [done|]. split; [|done].
    apply Forall_cons. split; [lia|].
    apply Forall_forall. intros y Hy.
    pose proof (is_sorted_head_lower x a y Hs Hy). lia.
Qed.

Lemma count_id_app c (a b : list Z) :
  count_id c (a ++ b) = count_id c a + count_id c b.
Proof. induction a as [|x a IH]; simpl; [done|]. rewrite IH. lia. Qed.

Lemma count_id_replicate c x (m : nat) :
  count_id c (replicate m x) = if decide (x = c) then Z.of_nat m else 0.
Proof.
  induction m as [|m IH]; simpl; [by destruct (decide (x = c))|].
  rewrite IH. case_bool_decide; case_decide; (done || lia).
Qed.

Section Missing.
Context {L : Type} `{EqDecision L} `{!IsNa L} `{!IndexFns L}.
Implicit Types (index labels : Index L) (m : Mapper L) (gb : GroupBy L).

(** X19: the missing labels of a mapper for which factorisation returns
    come first: when a missing label follows a label that is not missing,
    factorisation raises "Groups must be coherent and sorted". *)
Theorem missing_labels_lead index m labels :
  mapper_to_index index m = Ok labels →
  (∀ groups group_index,
     get_groups_and_index index (GMapper m) = Ok (groups, group_index) →
     ∀ (i j : nat) (v w : L),
       (i ≤ j)%nat → values labels !! i = Some v → values labels !! j = Some w →
       isna w = true → isna v = true)
  ∧ (∀ (i j : nat) (v w : L),
       (i < j)%nat → values labels !! i = Some v → values labels !! j = Some w →
       isna v = false → isna w = true →
       get_groups_and_index index (GMapper m) = Raise IncoherentGroups).
Proof.
  intros Hm. rewrite (get_groups_and_index_mapper _ _ _ Hm).
  destruct (is_sorted (pd_factorize (values labels)).1) eqn:Hs.
  - split.
    + intros _ _ _ i j v w. by apply is_sorted_missing_first.
    + intros i j v w Hij Hi Hj Hv Hw.
      rewrite (is_sorted_missing_first (values labels) i j v w) in Hv;
        [done|done|lia|done..].
  - split; [by intros ? ?|done].
Qed.

(** X20: on the ids that factorisation returns, with or without missing
    labels, the run-length loop returns counts that add up to the number
    of columns.  When the group index is not empty there is one count per
    group; the count of a group [k > 0] is the number of columns with id
    [k], and the count of group [0] is the number of columns with id [0]
    plus the number of columns with the sentinel [-1], i.e. with a
    missing label.  When the group index is empty (every label is
    missing) and there are columns, there is one count all the same, the
    number of columns. *)
Theorem group_counts_with_missing_labels index gb groups group_index :
  get_groups_and_index index gb = Ok (groups, group_index) →
  ∃ counts : list Z,
    get_group_counts_nb groups = Ok counts
    ∧ np_sum counts = Z.of_nat (len index)
    ∧ ((0 < len group_index)%nat →
       length counts = len group_index
       ∧ ∀ k : nat, (k < len group_index)%nat →
           counts !! k
           = Some (count_id (Z.of_nat k) groups
                   + if decide (k = 0%nat) then count_id (-1) groups else 0))
    ∧ (len group_index = 0%nat →
       counts = if decide (len index = 0%nat) then [] else [Z.of_nat (len index)]).
Proof.
  intros Hget.
  pose proof (get_groups_and_index_ids _ _ _ _ Hget)
    as (Hlen & Hnd & Hup & Hlow & Hpred & _).
  destruct (sorted_sentinels_first groups) as (n & rest & -> & Hco).
  { by apply is_sorted_non_decreasing. }
  { apply Forall_forall. intros c Hc. apply Hup in Hc. lia. }
  rewrite (get_group_counts_nb_sentinels n rest Hco).
  pose proof Hco as [Hpos Hs]. rewrite Forall_forall in Hpos.
  rewrite length_app, length_replicate in Hlen.
  assert (first_appearance_order rest) as Hfa.
  { intros i c Hi.
    assert (0 ≤ c) by (apply Hpos; by eapply list_elem_of_lookup_2).
    destruct (Hpred (n + i)%nat c) as [?|(j & Hj & Hc)].
    - rewrite lookup_app_r by (rewrite length_replicate; lia).
      rewrite length_replicate. by replace (n + i - n)%nat with i by lia.
    - left. lia.
    - destruct (decide (j < n)%nat) as [Hjn|Hjn].
      + rewrite lookup_app_l in Hc by (by rewrite length_replicate).
        apply lookup_replicate in Hc as [? _]. left. lia.
      + right. exists (j - n)%nat. split; [lia|].
        rewrite lookup_app_r in Hc by (rewrite length_replicate; lia).
        by rewrite length_replicate in Hc. }
  apply is_sorted_non_decreasing in Hs.
  assert (∀ k : nat, Z.of_nat k ∈ rest ↔ (k < len group_index)%nat) as Hin.
  { intros k. split.
    - intros Hk. assert (-1 ≤ Z.of_nat k < Z.of_nat (len group_index)); [|lia].
      apply Hup, elem_of_app. by right.
    - intros Hk.
      assert (Z.of_nat k ∈ replicate n (-1) ++ rest) as [i Hi]%list_elem_of_lookup
        by (apply Hlow; lia).
      destruct (decide (i < n)%nat) as [Hlt|Hge].
      + rewrite lookup_app_l in Hi by (by rewrite length_replicate).
        apply lookup_replicate in Hi as [? _]. lia.
      + rewrite lookup_app_r in Hi by (rewrite length_replicate; lia).
        by eapply list_elem_of_lookup_2. }
  assert (length (run_lengths rest) = len group_index) as Hrl.
  { apply length_lookup_iff. intros k.
    rewrite run_lengths_lookup, <-Hin by done.
    by destruct (decide (Z.of_nat k ∈ rest)); split. }
  assert (∀ c, count_id c (replicate n (-1) ++ rest)
               = (if decide (-1 = c) then Z.of_nat n else 0) + count_id c rest)
    as Hcount.
  { intros c. by rewrite count_id_app, count_id_replicate. }
  assert (count_id (-1) rest = 0) as Hnone.
  { apply count_id_absent. intros Hc%Hpos. lia. }
  eexists. split; [done|].
  destruct (run_lengths rest) as [|c counts] eqn:Hruns.
  - assert (rest = []) as ->.
    { destruct rest as [|g l]; [done|].
      destruct (runs_from_nonempty g 1 l) as (c & counts & Heq).
      unfold run_lengths in Hruns. by rewrite Heq in Hruns. }
    simpl in Hrl, Hlen. rewrite Nat.add_0_r in Hlen.
    split_and!; [|lia|].
    + case_decide; simpl; lia.
    + intros _. rewrite <-Hlen. by repeat case_decide.
  - split_and!; [| |simpl in Hrl; lia].
    + destruct (get_group_counts_nb_ok (replicate n (-1) ++ rest))
        as (counts' & Hc & Hsum & _).
      { apply is_sorted_cons. split.
        - intros y Hy. assert (y ∈ replicate n (-1) ++ rest) as Hin'%Hup; [|lia].
          apply head_Some in Hy as [l' ->]. by apply elem_of_cons; left.
        - by apply is_sorted_non_decreasing. }
      rewrite (get_group_counts_nb_sentinels n rest Hco), Hruns in Hc.
      injection Hc as <-. rewrite Hsum, length_app, length_replicate. lia.
    + intros _. split; [by rewrite <-Hrl|].
      intros k Hk. rewrite Hcount.
      assert (run_lengths rest !! k = Some (count_id (Z.of_nat k) rest)) as Hk'.
      { rewrite run_lengths_lookup by done. rewrite decide_True; [done|].
        by apply Hin. }
      rewrite Hruns in Hk'. destruct k as [|k]; simpl in Hk'.
      * injection Hk' as ->. rewrite (Hcount (-1)), Hnone. simpl.
        repeat case_decide; try done; f_equal; lia.
      * simpl. rewrite Hk'. repeat case_decide; try lia; f_equal; lia.
Qed.

End Missing.

Lemma missing_labels_lead_witness :
  mapper_to_index cols3_na (MArray labels_aaN) = Ok (pd_Index labels_aaN)
  ∧ get_groups_and_index cols3_na (GMapper (MArray labels_aaN))
    = Raise IncoherentGroups.
Proof.
  split; [reflexivity|].
  destruct (missing_labels_lead cols3_na (MArray labels_aaN) (pd_Index labels_aaN)
              eq_refl) as [_ Hraise].
  apply (Hraise 0%nat 2%nat (Some "a"%string) None); (reflexivity || lia).
Defined.

Lemma group_counts_with_missing_labels_witness :
  get_groups_and_index cols3_na (GMapper (MArray labels_Naa))
    = Ok ([-1; 0; 0], pd_Index [Some "a"%string])
  ∧ get_group_counts_nb [-1; 0; 0] = Ok [3]
  ∧ ∃ counts : list Z,
      get_group_counts_nb [-1; 0; 0] = Ok counts
      ∧ np_sum counts = 3
      ∧ ((0 < 1)%nat →
         length counts = 1%nat
         ∧ ∀ k : nat, (k < 1)%nat →
             counts !! k
             = Some (count_id (Z.of_nat k) [-1; 0; 0]
                     + if decide (k = 0%nat) then count_id (-1) [-1; 0; 0] else 0))
      ∧ (1%nat = 0%nat →
         counts = if decide (3%nat = 0%nat) then [] else [Z.of_nat 3]).
Proof.
  assert (get_groups_and_index cols3_na (GMapper (MArray labels_Naa))
          = Ok ([-1; 0; 0], pd_Index [Some "a"%string])) as Hget by reflexivity.
  split; [exact Hget|]. split; [reflexivity|].
  exact (group_counts_with_missing_labels cols3_na (GMapper (MArray labels_Naa))
           [-1; 0; 0] (pd_Index [Some "a"%string]) Hget).
Defined.
